(** * OverlayScrollbars: environment probe and node insertion utilities

    A shallow embedding of the module of the [Environment] class (its
    constructor and resize handler, with the helpers [windowDPR],
    [diffBiggerThanOne] and [nativeScrollbarSize]) and of
    [core/dom/manipulation.ts] ([before], the operations derived from it
    and [removeElements]).

    JavaScript numbers are IEEE 754 binary64 values, which is what Rocq's
    primitive [float] is, so every arithmetic expression of the source is
    transcribed operator by operator.

    The document is a store of node objects.  Whether what is handed to a
    node utility is array-like is decided when the call runs, by
    [isArrayLike] on the [length] the object has, and a list that the
    document keeps up to date is read anew at every turn of a loop. *)

(** The development also covers what this code rests on and what rests on
    it: the type test [isArrayLike] and the helpers
    [each], [contents] and [createDOM] of the bundle, and what the
    measurements of the environment do to the tree when the node
    utilities carry them out. *)

From Stdlib Require Import ZArith Lia Bool List String.
From Stdlib Require Import Floats.
From stdpp Require Import base option list gmap.

Set Warnings "-inexact-float".

Local Open Scope Z_scope.

(* ===================================================================== *)
(** ** JavaScript numbers *)
(* ===================================================================== *)

Module JS.

Definition number := float.

(** [a === b] on numbers: IEEE equality ([NaN] differs from itself,
    [+0 === -0]). *)
Definition strict_eq (a b : number) : bool := PrimFloat.eqb a b.

(** [a !== b]. *)
Definition strict_neq (a b : number) : bool := negb (strict_eq a b).

(** [a > b]. *)
Definition gt (a b : number) : bool := PrimFloat.ltb b a.

(** Truthiness of a number: everything but [0], [-0] and [NaN]. *)
Definition truthy (a : number) : bool :=
  negb (PrimFloat.eqb a 0%float) && PrimFloat.eqb a a.

(** [a || b] where [a] may be [undefined] ([None]). *)
Definition or_else (a : option number) (b : number) : number :=
  match a with
  | Some v => if truthy v then v else b
  | None => b
  end.

(** [Math.abs]. *)
Definition abs (a : number) : number := PrimFloat.abs a.

Definition two52 : number := 4503599627370496%float.

(** Largest integer below or equal to [y], for [0 <= y < 2^52]: adding and
    subtracting [2^52] rounds [y] to an integer (to nearest, ties to even),
    which is then corrected downwards. *)
Definition floor_small (y : number) : number :=
  let t := PrimFloat.sub (PrimFloat.add y two52) two52 in
  if PrimFloat.ltb y t then PrimFloat.sub t 1%float else t.

(** [Math.round] (ECMAScript 21.3.2.28): [NaN], the infinities and the
    integral numbers (all numbers of magnitude [2^52] or more are integral)
    are returned as they are; otherwise the nearest integer, a tie going
    towards [+Infinity]; a negative argument that rounds to zero gives
    [-0]. *)
Definition round (x : number) : number :=
  if negb (PrimFloat.ltb (PrimFloat.abs x) two52) then x
  else
    let y := PrimFloat.abs x in
    let f := floor_small y in
    let frac := PrimFloat.sub y f in
    if PrimFloat.eqb f y then x
    else if PrimFloat.ltb 0%float x
         then (if PrimFloat.ltb frac 0.5%float then f else PrimFloat.add f 1%float)
         else (if PrimFloat.ltb 0.5%float frac
               then PrimFloat.opp (PrimFloat.add f 1%float)
               else PrimFloat.opp f).

(** The number nearest to the integer [z], for a magnitude below [2^63]:
    [z] itself when it is a number, as every integer up to [2^53] is. *)
Definition of_Z (z : Z) : number :=
  match z with
  | Z0 => 0%float
  | Zpos _ => PrimFloat.of_uint63 (Uint63.of_Z z)
  | Zneg _ => PrimFloat.opp (PrimFloat.of_uint63 (Uint63.of_Z (- z)))
  end.

(** [Number.isFinite]: neither [NaN] nor an infinity. *)
Definition isFinite (a : number) : bool := PrimFloat.ltb (PrimFloat.abs a) infinity.

(** [n % d] (Number::remainder): [NaN] when [n] is not finite or [d] is a
    zero or [NaN]; [n] itself when [n] is a zero or [d] an infinity;
    otherwise the remainder of the truncating division, which is a number
    again, with the sign of [n]. *)
Definition rem (n d : number) : number :=
  match Prim2SF n, Prim2SF d with
  | S754_nan, _ | _, S754_nan => nan
  | S754_infinity _, _ => nan
  | _, S754_zero _ => nan
  | S754_zero _, _ => n
  | _, S754_infinity _ => n
  | S754_finite sn mn en, S754_finite _ md ed =>
      let e := Z.min en ed in
      let r := (Zpos mn * 2 ^ (en - e)) mod (Zpos md * 2 ^ (ed - e)) in
      if r =? 0 then (if sn then (-0)%float else 0%float)
      else SF2Prim (binary_normalize prec emax (cond_Zopp sn r) e false)
  end.

End JS.

(* ===================================================================== *)
(** ** Integers in the binary64 format *)
(* ===================================================================== *)

Module Binary64.

(** [m] shifted left by [k] binary places. *)
Definition shl (m : positive) (k : Z) : positive :=
  match k with Zpos k' => Pos.iter xO m k' | _ => m end.

(** The sign, mantissa and exponent of the number nearest to the
    non-negative integer [n]. *)
Definition cn (n : Z) : spec_float := binary_normalize prec emax n 0 false.

(** The mantissa of a positive integer below [2^53], brought to 53 digits. *)
Definition mant (p : positive) : positive := shl p (53 - Zpos (digits2_pos p)).

End Binary64.

(* ===================================================================== *)
(** ** The values of the ['support'] helpers *)
(* ===================================================================== *)

Module Support.

(** [XY<T>]: one value per axis. *)
Record XY (T : Type) : Type := mkXY { x : T; y : T }.
Arguments mkXY {T} _ _.
Arguments x {T} _.
Arguments y {T} _.

(** What [windowSize], [clientSize] and [offsetSize] return. *)
Record WH : Type := mkWH { w : JS.number; h : JS.number }.

(** The properties of [window] and [window.screen] that [windowSize] and
    [windowDPR] read; a property the browser does not define is [None]. *)
Record Window : Type := mkWindow {
  windowSize : WH;
  devicePixelRatio : option JS.number;
  deviceXDPI : option JS.number;
  logicalXDPI : option JS.number
}.

(** The box sizes layout gives the measurement element once it is in the
    document. *)
Record Layout : Type := mkLayout {
  clientSize : WH;
  offsetSize : WH
}.

End Support.

(* ===================================================================== *)
(** ** The environment ([Environment] class and its helpers) *)
(* ===================================================================== *)

Module Environment.
Import Support.

(** Identity of a listener function. *)
Definition OnEnvironmentChanged := nat.

(** The two elements the class touches. *)
Inductive Elm : Type := body | envElm.

(** [_rtlScrollBehavior]. *)
Record RtlScrollBehavior : Type := mkRtl { i : bool; n : bool }.

(** An [Environment] instance: the private listener set (a JavaScript
    [Set] keeps insertion order and no duplicates) and the public fields. *)
Record Environment : Type := mkEnvironment {
  onChangedListener : list OnEnvironmentChanged;
  _autoUpdateLoop : bool;
  _nativeScrollbarSize : XY JS.number;
  _nativeScrollbarIsOverlaid : XY bool;
  _nativeScrollbarStyling : bool;
  _rtlScrollBehavior : RtlScrollBehavior;
  _supportPassiveEvents : bool;
  _supportResizeObserver : bool
}.

(** What the code does to the outside, in program order: the two calls
    into the node utilities, and the calls of listeners, each with the
    instance as it is when the listener receives it. *)
Inductive Effect : Type :=
| AppendChildren (parent child : Elm)
| RemoveElements (elm : Elm)
| Call (listener : OnEnvironmentChanged) (self : Environment).

(** [nativeScrollbarSize(body, measureElm)]: the element is appended, its
    boxes are read, and each axis gets the difference of the other
    dimension. *)
Definition nativeScrollbarSize (body' measureElm : Elm) (l : Layout)
  : XY JS.number * list Effect :=
  let cSize := clientSize l in
  let oSize := offsetSize l in
  ({| x := PrimFloat.sub (h oSize) (h cSize);
      y := PrimFloat.sub (w oSize) (w cSize) |},
   [AppendChildren body' measureElm]).

(** [nativeScrollbarStyling]: [scrollbarWidth] is the computed
    ['scrollbar-width'] of the element, [pseudoDisplay] the ['display'] of
    its ['::-webkit-scrollbar'] pseudo element, [None] when asking for it
    throws; the [try] leaves [false] in that case. *)
Definition nativeScrollbarStyling (scrollbarWidth : string) (pseudoDisplay : option string) : bool :=
  if String.eqb scrollbarWidth "none" then true
  else match pseudoDisplay with
       | Some d => String.eqb d "none"
       | None => false
       end.

(** [rtlScrollBehavior], from the three coordinates it reads. *)
Definition rtlScrollBehavior (parentOffset childOffset childOffsetAfterScroll : XY JS.number)
  : RtlScrollBehavior :=
  {| i := JS.strict_eq (x parentOffset) (x childOffset);
     n := JS.strict_neq (x childOffset) (x childOffsetAfterScroll) |}.

(** [windowDPR]. *)
Definition windowDPR (win : Window) : JS.number :=
  let dDPI := JS.or_else (deviceXDPI win) 0%float in
  let sDPI := JS.or_else (logicalXDPI win) 1%float in
  JS.or_else (devicePixelRatio win) (PrimFloat.div dDPI sDPI).

(** [diffBiggerThanOne]. *)
Definition diffBiggerThanOne (valOne valTwo : JS.number) : bool :=
  let absValOne := JS.abs valOne in
  let absValTwo := JS.abs valTwo in
  negb (JS.strict_eq absValOne absValTwo
        || JS.strict_eq (PrimFloat.add absValOne 1%float) absValTwo
        || JS.strict_eq (PrimFloat.sub absValOne 1%float) absValTwo).

(** The variables [size] and [dpr] the resize handler closes over. *)
Record Closure : Type := mkClosure { size : WH; dpr : JS.number }.

(** A resize event, with what the collaborators return while it is
    handled: the window as [windowSize] and [windowDPR] see it, and the
    layout of the measurement element should it be appended. *)
Record ResizeEvent : Type := mkResize { window : Window; layout : Layout }.

Definition deltaSize (c : Closure) (sizeNew : WH) : WH :=
  {| w := PrimFloat.sub (w sizeNew) (w (size c));
     h := PrimFloat.sub (h sizeNew) (h (size c)) |}.

Definition deltaAbsSize (c : Closure) (sizeNew : WH) : WH :=
  {| w := JS.abs (w (deltaSize c sizeNew));
     h := JS.abs (h (deltaSize c sizeNew)) |}.

Definition deltaAbsRatio (c : Closure) (sizeNew : WH) : WH :=
  {| w := JS.abs (JS.round (PrimFloat.div (w sizeNew) (PrimFloat.div (w (size c)) 100%float)));
     h := JS.abs (JS.round (PrimFloat.div (h sizeNew) (PrimFloat.div (h (size c)) 100%float))) |}.

Definition deltaIsBigger (c : Closure) (sizeNew : WH) : bool :=
  JS.gt (w (deltaAbsSize c sizeNew)) 2%float && JS.gt (h (deltaAbsSize c sizeNew)) 2%float.

Definition difference (c : Closure) (sizeNew : WH) : bool :=
  negb (diffBiggerThanOne (w (deltaAbsRatio c sizeNew)) (h (deltaAbsRatio c sizeNew))).

Definition dprChanged (c : Closure) (dprNew : JS.number) : bool :=
  JS.strict_neq dprNew (dpr c) && JS.gt (dpr c) 0%float.

(** [isZoom] of the handler (lines 162 to 174). *)
Definition isZoom (c : Closure) (sizeNew : WH) (dprNew : JS.number) : bool :=
  deltaIsBigger c sizeNew && difference c sizeNew && dprChanged c dprNew.

Definition set_nativeScrollbarSize (e : Environment) (s : XY JS.number) : Environment :=
  {| onChangedListener := onChangedListener e;
     _autoUpdateLoop := _autoUpdateLoop e;
     _nativeScrollbarSize := s;
     _nativeScrollbarIsOverlaid := _nativeScrollbarIsOverlaid e;
     _nativeScrollbarStyling := _nativeScrollbarStyling e;
     _rtlScrollBehavior := _rtlScrollBehavior e;
     _supportPassiveEvents := _supportPassiveEvents e;
     _supportResizeObserver := _supportResizeObserver e |}.

Definition set_onChangedListener (e : Environment) (ls : list OnEnvironmentChanged) : Environment :=
  {| onChangedListener := ls;
     _autoUpdateLoop := _autoUpdateLoop e;
     _nativeScrollbarSize := _nativeScrollbarSize e;
     _nativeScrollbarIsOverlaid := _nativeScrollbarIsOverlaid e;
     _nativeScrollbarStyling := _nativeScrollbarStyling e;
     _rtlScrollBehavior := _rtlScrollBehavior e;
     _supportPassiveEvents := _supportPassiveEvents e;
     _supportResizeObserver := _supportResizeObserver e |}.

(** [oldScrollbarSize.x !== newScrollbarSize.x || oldScrollbarSize.y !== newScrollbarSize.y]. *)
Definition scrollbarSizeChanged (old new : XY JS.number) : bool :=
  JS.strict_neq (x old) (x new) || JS.strict_neq (y old) (y new).

(** [onChangedListener.forEach((listener) => listener && listener(_self))]:
    the members of the set are functions, hence truthy, and each is called
    with the instance; a listener is taken to observe the instance only. *)
Definition notify (self : Environment) : list Effect :=
  map (fun listener => Call listener self) (onChangedListener self).

(** The resize handler (lines 152 to 191): the instance and the closure
    after the event, and the effects of handling it. *)
Definition onResize (self : Environment) (c : Closure) (ev : ResizeEvent)
  : Environment * Closure * list Effect :=
  if negb (Nat.eqb (length (onChangedListener self)) 0) then
    let sizeNew := windowSize (window ev) in
    if JS.strict_eq (w (deltaSize c sizeNew)) 0%float
       && JS.strict_eq (h (deltaSize c sizeNew)) 0%float
    then (self, c, [])
    else
      let dprNew := windowDPR (window ev) in
      let oldScrollbarSize := _nativeScrollbarSize self in
      let '(self', fx) :=
        if isZoom c sizeNew dprNew then
          let '(newScrollbarSize, fx1) := nativeScrollbarSize body envElm (layout ev) in
          let self1 := set_nativeScrollbarSize self newScrollbarSize in
          let fx2 := [RemoveElements envElm] in
          let fx3 :=
            if scrollbarSizeChanged oldScrollbarSize newScrollbarSize
            then notify self1 else [] in
          (self1, fx1 ++ fx2 ++ fx3)
        else (self, []) in
      (self', {| size := sizeNew; dpr := dprNew |}, fx)
  else (self, c, []).

(** What the probes of the constructor read from the platform. *)
Record Platform : Type := mkPlatform {
  measured : Layout;
  scrollbarWidth : string;
  pseudoDisplay : option string;
  parentOffset : XY JS.number;
  childOffset : XY JS.number;
  childOffsetAfterScroll : XY JS.number;
  passiveOptionRead : bool;
  resizeObserver : bool;
  initialWindow : Window
}.

(** The page after construction: the instance, and the resize handler
    registered on [window] ([None] when none was registered), given by
    the closure it runs in. *)
Record Page : Type := mkPage { self : Environment; resizeListener : option Closure }.

(** [new Environment()]. *)
Definition construct (p : Platform) : Page * list Effect :=
  let '(nScrollBarSize, fx1) := nativeScrollbarSize body envElm (measured p) in
  let nativeScrollbarIsOverlaid :=
    {| x := JS.strict_eq (x nScrollBarSize) 0%float;
       y := JS.strict_eq (y nScrollBarSize) 0%float |} in
  let _self :=
    {| onChangedListener := [];
       _autoUpdateLoop := false;
       _nativeScrollbarSize := nScrollBarSize;
       _nativeScrollbarIsOverlaid := nativeScrollbarIsOverlaid;
       _nativeScrollbarStyling := nativeScrollbarStyling (scrollbarWidth p) (pseudoDisplay p);
       _rtlScrollBehavior :=
         rtlScrollBehavior (parentOffset p) (childOffset p) (childOffsetAfterScroll p);
       _supportPassiveEvents := passiveOptionRead p;
       _supportResizeObserver := resizeObserver p |} in
  let fx2 := [RemoveElements envElm] in
  let listener :=
    if negb (x nativeScrollbarIsOverlaid) || negb (y nativeScrollbarIsOverlaid)
    then Some {| size := windowSize (initialWindow p); dpr := windowDPR (initialWindow p) |}
    else None in
  ({| self := _self; resizeListener := listener |}, fx1 ++ fx2).

(** [Set.prototype.add] and [Set.prototype.delete]. *)
Definition Set_add (l : OnEnvironmentChanged) (s : list OnEnvironmentChanged) :=
  if decide (l ∈ s) then s else s ++ [l].

Definition Set_delete (l : OnEnvironmentChanged) (s : list OnEnvironmentChanged) :=
  filter (fun k => k ≠ l) s.

Definition addListener (e : Environment) (listener : OnEnvironmentChanged) : Environment :=
  set_onChangedListener e (Set_add listener (onChangedListener e)).

Definition removeListener (e : Environment) (listener : OnEnvironmentChanged) : Environment :=
  set_onChangedListener e (Set_delete listener (onChangedListener e)).

(** What can happen to a page after construction. *)
Inductive Action : Type :=
| AddListener (listener : OnEnvironmentChanged)
| RemoveListener (listener : OnEnvironmentChanged)
| Resize (ev : ResizeEvent).

(** A resize event is given to the handler when there is one. *)
Definition dispatchResize (pg : Page) (ev : ResizeEvent) : Page * list Effect :=
  match resizeListener pg with
  | Some c =>
      let '(self', c', fx) := onResize (self pg) c ev in
      ({| self := self'; resizeListener := Some c' |}, fx)
  | None => (pg, [])
  end.

Definition step (pg : Page) (a : Action) : Page * list Effect :=
  match a with
  | AddListener l => ({| self := addListener (self pg) l; resizeListener := resizeListener pg |}, [])
  | RemoveListener l => ({| self := removeListener (self pg) l; resizeListener := resizeListener pg |}, [])
  | Resize ev => dispatchResize pg ev
  end.

Fixpoint run (pg : Page) (acts : list Action) : Page * list Effect :=
  match acts with
  | [] => (pg, [])
  | a :: rest =>
      let '(pg1, fx1) := step pg a in
      let '(pg2, fx2) := run pg1 rest in
      (pg2, fx1 ++ fx2)
  end.

(** *** What the properties of the environment are stated with *)

(** The effect that starts a measurement. *)
Definition is_probe (fx : Effect) : bool :=
  match fx with
  | AppendChildren _ _ => true
  | _ => false
  end.

(** A flag agrees with a size when it is [true] exactly for size [0]. *)
Definition flag_of_size (flag : bool) (s : JS.number) : Prop :=
  flag = true <-> JS.strict_eq s 0%float = true.

(** The invariant between the two scrollbar fields of an instance. *)
Definition overlaid_iff_zero (e : Environment) : Prop :=
  flag_of_size (x (_nativeScrollbarIsOverlaid e)) (x (_nativeScrollbarSize e))
  /\ flag_of_size (y (_nativeScrollbarIsOverlaid e)) (y (_nativeScrollbarSize e)).

(** Two ratios whose absolute values differ by exactly 0 or exactly 1. *)
Definition differ_by_0_or_1 (a b : JS.number) : Prop :=
  JS.strict_eq (JS.abs a) (JS.abs b) = true
  \/ JS.strict_eq (PrimFloat.add (JS.abs a) 1%float) (JS.abs b) = true
  \/ JS.strict_eq (PrimFloat.sub (JS.abs a) 1%float) (JS.abs b) = true.

(** The three conditions of a zoom, with the closeness of the ratios left
    open. *)
Definition zoom_conditions (close : JS.number -> JS.number -> Prop)
  (c : Closure) (sizeNew : WH) (dprNew : JS.number) : Prop :=
  (JS.gt (JS.abs (PrimFloat.sub (w sizeNew) (w (size c)))) 2%float = true
   /\ JS.gt (JS.abs (PrimFloat.sub (h sizeNew) (h (size c)))) 2%float = true)
  /\ close (w (deltaAbsRatio c sizeNew)) (h (deltaAbsRatio c sizeNew))
  /\ (JS.strict_neq dprNew (dpr c) = true /\ JS.gt (dpr c) 0%float = true).

(** Both deltas are exactly [0]. *)
Definition same_size (c : Closure) (sizeNew : WH) : bool :=
  JS.strict_eq (w (deltaSize c sizeNew)) 0%float
  && JS.strict_eq (h (deltaSize c sizeNew)) 0%float.

(** The absolute values of two integers differ by exactly 0 or exactly 1. *)
Definition integers_differ_by_0_or_1 (a b : Z) : Prop :=
  Z.abs a = Z.abs b \/ Z.abs a + 1 = Z.abs b \/ Z.abs a - 1 = Z.abs b.

(** The listeners an effect log calls, in the order of the calls. *)
Definition called (fx : list Effect) : list OnEnvironmentChanged :=
  omap (fun e => match e with Call l _ => Some l | _ => None end) fx.

End Environment.

(* ===================================================================== *)
(** ** The node tree, as the DOM operations the utilities call see it *)
(* ===================================================================== *)

Module Dom.

(** Identity of a node object. *)
Definition Node := positive.

Inductive DOMException : Type := HierarchyRequestError | NotFoundError | TypeError.

(** The outcome of a call that may throw. *)
Inductive Completion (A : Type) : Type :=
| Normal (a : A)
| Throw (e : DOMException).
Arguments Normal {A} _.
Arguments Throw {A} _.

Definition bind {A B : Type} (c : Completion A) (k : A -> Completion B) : Completion B :=
  match c with
  | Normal a => k a
  | Throw e => Throw e
  end.

(** What a node object answers to [length] and to an index.  Most nodes
    have no [length]: an element such as a [div], a fragment.  Character
    data (a text node, a comment) has the length of its data and nothing
    at an index.  A [select] has the number of its options and a [form]
    the number of its controls, with these at the indices: [Listing] is
    such an element when its options or controls are its child nodes, so
    that its [length] and its items follow its children as they come and
    go (a [form] whose controls stand deeper, and a [select] with option
    groups, are not modelled).  What kind of node it is otherwise is not
    recorded: as a parent, every node is taken to be an element or a
    fragment. *)
Inductive Indexed : Type :=
| NoLength
| Characters (n : nat)
| Listing.

#[global] Instance Indexed_eq_dec : EqDecision Indexed.
Proof. solve_decision. Defined.

(** What a node object holds: whether it is a [DocumentFragment], its
    parent, its children in order, and what it has as [length]. *)
Record NodeData : Type := mkNodeData {
  nd_fragment : bool;
  nd_parent : option Node;
  nd_children : list Node;
  nd_indexed : Indexed
}.

(** The node objects that exist. *)
Abbreviation Store := (gmap Node NodeData).

Definition parentNode (d : Store) (x : Node) : option Node :=
  match d !! x with Some nd => nd_parent nd | None => None end.

Definition childNodes (d : Store) (x : Node) : list Node :=
  match d !! x with Some nd => nd_children nd | None => [] end.

Definition firstChild (d : Store) (x : Node) : option Node := head (childNodes d x).

Definition indexed (d : Store) (x : Node) : Indexed :=
  match d !! x with Some nd => nd_indexed nd | None => NoLength end.

(** The element of [l] just before, respectively just after, [x]. *)
Fixpoint before_in (x : Node) (l : list Node) : option Node :=
  match l with
  | [] => None
  | a :: t =>
      if decide (a = x) then None
      else match t with
           | [] => None
           | b :: _ => if decide (b = x) then Some a else before_in x t
           end
  end.

Fixpoint after_in (x : Node) (l : list Node) : option Node :=
  match l with
  | [] => None
  | a :: t => if decide (a = x) then head t else after_in x t
  end.

Definition previousSibling (d : Store) (x : Node) : option Node :=
  match parentNode d x with
  | Some q => before_in x (childNodes d q)
  | None => None
  end.

Definition nextSibling (d : Store) (x : Node) : option Node :=
  match parentNode d x with
  | Some q => after_in x (childNodes d q)
  | None => None
  end.

Definition set_parent (x : Node) (q : option Node) (d : Store) : Store :=
  alter (fun nd => mkNodeData (nd_fragment nd) q (nd_children nd) (nd_indexed nd)) x d.

Definition set_children (x : Node) (l : list Node) (d : Store) : Store :=
  alter (fun nd => mkNodeData (nd_fragment nd) (nd_parent nd) l (nd_indexed nd)) x d.

(** The DOM's "remove": [x] leaves the children of its parent. *)
Definition remove (x : Node) (d : Store) : Store :=
  match parentNode d x with
  | Some q => set_parent x None (set_children q (filter (fun c => c ≠ x) (childNodes d q)) d)
  | None => d
  end.

(** [l] with [xs] put in front of its element [r]. *)
Fixpoint insert_before_in (xs : list Node) (r : Node) (l : list Node) : list Node :=
  match l with
  | [] => xs
  | a :: t => if decide (a = r) then xs ++ a :: t else a :: insert_before_in xs r t
  end.

(** The DOM's "insert": the parentless nodes [xs] become children of [p],
    before [child] or at the end. *)
Definition insert (xs : list Node) (p : Node) (child : option Node) (d : Store) : Store :=
  let l := childNodes d p in
  let l' := match child with
            | Some r => insert_before_in xs r l
            | None => l ++ xs
            end in
  foldr (fun x d' => set_parent x (Some p) d') (set_children p l' d) xs.

(** [x] and its ancestors, nearest first; a tree of [fuel] nodes has no
    longer chain. *)
Fixpoint chain (fuel : nat) (d : Store) (x : Node) : list Node :=
  x :: match fuel with
       | O => []
       | S k => match parentNode d x with
                | Some q => chain k d q
                | None => []
                end
       end.

(** [a] is [x] or one of its ancestors. *)
Definition inclusive_ancestor (d : Store) (a x : Node) : bool :=
  bool_decide (a ∈ chain (size d) d x).

(** "Ensure pre-insertion validity", for a parent that is an element or a
    fragment and a node that is an element, character data or a
    fragment. *)
Definition ensure_pre_insertion_validity (p node : Node) (child : option Node) (d : Store)
  : Completion unit :=
  if inclusive_ancestor d node p then Throw HierarchyRequestError
  else match child with
       | Some r => if decide (parentNode d r = Some p) then Normal tt else Throw NotFoundError
       | None => Normal tt
       end.

(** [p.insertBefore(node, child)]: a fragment gives its children, any
    other node leaves its parent and is inserted itself. *)
Definition insertBefore (p node : Node) (child : option Node) (d : Store) : Completion Store :=
  match d !! p, d !! node with
  | Some _, Some nd =>
      bind (ensure_pre_insertion_validity p node child d) (fun _ =>
      let referenceChild := if decide (child = Some node) then nextSibling d node else child in
      if nd_fragment nd
      then Normal (insert (nd_children nd) p referenceChild (set_children node [] d))
      else Normal (insert [node] p referenceChild (remove node d)))
  | _, _ => Throw TypeError
  end.

(** [p.appendChild(node)]. *)
Definition appendChild (p node : Node) (d : Store) : Completion Store :=
  insertBefore p node None d.

(** [p.removeChild(child)]. *)
Definition removeChild (p child : Node) (d : Store) : Completion Store :=
  if decide (parentNode d child = Some p) then Normal (remove child d) else Throw NotFoundError.

(** [document.createDocumentFragment()]: a new, empty fragment. *)
Definition createDocumentFragment (d : Store) : Node * Store :=
  let f := fresh (dom d) in
  (f, <[f := mkNodeData true None [] NoLength]> d).

(** A store is a forest: parents and children agree, no child is listed
    twice, and every chain of parents ends. *)
Fixpoint reaches_root (fuel : nat) (d : Store) (x : Node) : bool :=
  match parentNode d x with
  | None => true
  | Some q => match fuel with
              | O => false
              | S k => reaches_root k d q
              end
  end.

Record forest (d : Store) : Prop := mkForest {
  forest_child : forall q c, c ∈ childNodes d q -> parentNode d c = Some q;
  forest_parent : forall q c, parentNode d c = Some q -> c ∈ childNodes d q;
  forest_nodup : forall q, NoDup (childNodes d q);
  forest_root : forall x, reaches_root (size d) d x = true
}.

(** [x] is an existing node that is no fragment. *)
Definition element (d : Store) (x : Node) : bool :=
  match d !! x with
  | Some nd => negb (nd_fragment nd)
  | None => false
  end.

(** The check of [forest] on the nodes of a store. *)
Definition node_ok (d : Store) (x : Node) (nd : NodeData) : bool :=
  forallb (fun c => bool_decide (parentNode d c = Some x)) (nd_children nd)
  && match nd_parent nd with
     | Some q => bool_decide (x ∈ childNodes d q)
     | None => true
     end
  && bool_decide (NoDup (nd_children nd))
  && reaches_root (size d) d x.

Definition forestb (d : Store) : bool :=
  forallb (fun '(x, nd) => node_ok d x nd) (map_to_list d).

(** The store while [before] fills its fragment: [moved f done d] is [d]
    with the nodes [done] taken out of their parents and made, in this
    order, the children of the new fragment [f]. *)
Definition moved (f : Node) (done : list Node) (d : Store) : Store :=
  <[f := mkNodeData true None done NoLength]>
    (map_imap (fun y nd =>
                 Some (mkNodeData (nd_fragment nd)
                         (if decide (y ∈ done) then Some f else nd_parent nd)
                         (filter (fun c => c ∉ done) (nd_children nd))
                         (nd_indexed nd))) d).


End Dom.

(* ===================================================================== *)
(** ** The type tests of the bundle ([core/utils/types]) *)
(* ===================================================================== *)

Module Types.

(** The JavaScript values [isArrayLike] tells apart (symbols and big
    integers are left out).  A function and an object that is neither a
    function nor an array are given with the value of their [length]
    property, [Undefined] when they have none; an array with its
    length. *)
Inductive Value : Type :=
| Undefined
| Null
| Boolean (b : bool)
| Number (n : JS.number)
| Str (s : string)
| Function (length : Value)
| Array (length : nat)
| Object (length : Value).

(** [!!obj]. *)
Definition truthy (obj : Value) : bool :=
  match obj with
  | Undefined | Null => false
  | Boolean b => b
  | Number n => JS.truthy n
  | Str s => negb (String.eqb s "")
  | Function _ | Array _ | Object _ => true
  end.

(** [obj.length] for a truthy [obj]: a boolean or a number has none, a
    string has the number of its characters. *)
Definition get_length (obj : Value) : Value :=
  match obj with
  | Str s => Number (JS.of_Z (Z.of_nat (String.length s)))
  | Array n => Number (JS.of_Z (Z.of_nat n))
  | Function l | Object l => l
  | Undefined | Null | Boolean _ | Number _ => Undefined
  end.

(** [typeof obj === 'number']. *)
Definition isNumber (obj : Value) : bool :=
  match obj with Number _ => true | _ => false end.

(** [typeof obj === 'function']. *)
Definition isFunction (obj : Value) : bool :=
  match obj with Function _ => true | _ => false end.

(** [Array.isArray(obj)]. *)
Definition isArray (obj : Value) : bool :=
  match obj with Array _ => true | _ => false end.

(** [const length = !!obj && obj.length]. *)
Definition length_of (obj : Value) : Value :=
  if truthy obj then get_length obj else Boolean false.

(** [length > -1 && length % 1 == 0], which the code comes to for a number
    only. *)
Definition is_count (length : Value) : bool :=
  match length with
  | Number n => JS.gt n (-1)%float && JS.strict_eq (JS.rem n 1%float) 0%float
  | _ => false
  end.

(** [isArrayLike(obj)]. *)
Definition isArrayLike (obj : Value) : bool :=
  let length := length_of obj in
  isArray obj || negb (isFunction obj) && isNumber length && is_count length.

End Types.

(* ===================================================================== *)
(** ** [core/dom/manipulation.ts] *)
(* ===================================================================== *)

Module Manipulation.
Import Dom.

(** [NodeCollection = ArrayLike<Node> | Node | undefined | null], by the
    objects a caller hands over: [null] or [undefined]; a node; an array
    of nodes (or another array-like that nothing changes while a call
    runs, as the list [querySelectorAll] gives); the [childNodes] of a
    node, a list that the document keeps up to date while nodes move.
    Whether a node is array-like is not known from its type: it is tested
    when the call runs, on the [length] the node has. *)
Inductive NodeCollection : Type :=
| Nothing
| OneNode (n : Node)
| ArrayLike (ns : list Node)
| ChildNodes (q : Node).

(** What [source] holds at its indices in the store [d], from index [0]
    to [source.length - 1]: a node, or [undefined] ([None]).  An object
    without a numeric [length] holds nothing. *)
Definition items (d : Store) (source : NodeCollection) : list (option Node) :=
  match source with
  | Nothing => []
  | OneNode n =>
      match indexed d n with
      | NoLength => []
      | Characters k => replicate k None
      | Listing => Some <$> childNodes d n
      end
  | ArrayLike ns => Some <$> ns
  | ChildNodes q => Some <$> childNodes d q
  end.

(** The object as the type tests see it: [null], an array, or an object
    with what it has as [length]. *)
Definition value_of (d : Store) (obj : NodeCollection) : Types.Value :=
  let count := Types.Number (JS.of_Z (Z.of_nat (length (items d obj)))) in
  match obj with
  | Nothing => Types.Null
  | OneNode n =>
      Types.Object (match indexed d n with NoLength => Types.Undefined | _ => count end)
  | ArrayLike ns => Types.Array (length ns)
  | ChildNodes _ => Types.Object count
  end.

(** [isArrayLike(obj)], when the call runs. *)
Definition isArrayLike (d : Store) (obj : NodeCollection) : bool :=
  Types.isArrayLike (value_of d obj).

(** [if (obj)]. *)
Definition truthy (d : Store) (obj : NodeCollection) : bool :=
  Types.truthy (value_of d obj).

(** [each(source, callback)] on an array that the callback leaves alone,
    for a callback that never returns [false]: the elements in index
    order. *)
Fixpoint each {A St : Type} (source : list A) (callback : A -> St -> Completion St) (s : St)
  : Completion St :=
  match source with
  | [] => Normal s
  | e :: rest => bind (callback e s) (each rest callback)
  end.

(** The loop of [each] on an array-like, from index [i] on:
    [for (; i < source.length; i++) callback(source[i])].  The length and
    the item are read anew at every turn: [read s] is what [source] holds
    in the state [s] the callbacks so far have left.  [turns] bounds the
    number of turns. *)
Fixpoint each_from {St : Type} (turns i : nat) (read : St -> list (option Node))
  (callback : option Node -> St -> Completion St) (s : St) : Completion St :=
  match turns with
  | O => Normal s
  | S turns' =>
      match read s !! i with
      | Some insertedElm => bind (callback insertedElm s) (each_from turns' (S i) read callback)
      | None => Normal s
      end
  end.

(** [each(source, callback)] on an array-like that gets no longer while
    the loop runs, as is the case in [before]: as many turns as [source]
    has items at the start are enough then, since the index grows at every
    turn (lemma [before_loop_ends]). *)
Definition each_live {St : Type} (read : St -> list (option Node))
  (callback : option Node -> St -> Completion St) (s : St) : Completion St :=
  each_from (length (read s)) 0 read callback s.

(** The callback of [before] on a node: the state is the store and
    [anchor]. *)
Definition before_callback (fragment : Node) (insertedElm : Node) (s : Store * option Node)
  : Completion (Store * option Node) :=
  let '(d, anchor) := s in
  let anchor' := if decide (Some insertedElm = anchor) then previousSibling d insertedElm else anchor in
  bind (appendChild fragment insertedElm d) (fun d' => Normal (d', anchor')).

(** The callback of [before] on what is at an index: [undefined] is not
    the anchor, and [fragment.appendChild(undefined)] throws a
    [TypeError]. *)
Definition before_item (fragment : Node) (insertedElm : option Node) (s : Store * option Node)
  : Completion (Store * option Node) :=
  match insertedElm with
  | Some e => before_callback fragment e s
  | None => Throw TypeError
  end.

(** The anchor [before] hands to [insertBefore]: "if the preferred
    anchor isn't null set it to a valid anchor". *)
Definition valid_anchor (d : Store) (parent : Node) (preferredAnchor anchor : option Node)
  : option Node :=
  match preferredAnchor with
  | Some pa =>
      match anchor with
      | None => firstChild d parent
      | Some a => if decide (a ≠ pa) then nextSibling d a else anchor
      end
  | None => anchor
  end.

(** [before(parent, preferredAnchor, insertedElms)]: nothing happens
    without nodes or without a parent.  What is array-like when the call
    runs goes through a new fragment, item by item; anything else is
    handed to [parent.insertBefore] itself, which takes a node and throws
    a [TypeError] on another object. *)
Definition before (parent preferredAnchor : option Node) (insertedElms : NodeCollection)
  (d : Store) : Completion Store :=
  if truthy d insertedElms then
    match parent with
    | Some parent' =>
        if isArrayLike d insertedElms then
          let '(fragment, d0) := createDocumentFragment d in
          bind (each_live (fun s => items (fst s) insertedElms) (before_item fragment)
                  (d0, preferredAnchor))
               (fun '(d1, anchor) =>
                  insertBefore parent' fragment (valid_anchor d1 parent' preferredAnchor anchor) d1)
        else
          match insertedElms with
          | OneNode n =>
              insertBefore parent' n (valid_anchor d parent' preferredAnchor preferredAnchor) d
          | _ => Throw TypeError
          end
    | None => Normal d
    end
  else Normal d.

(** Modelled from the spec: [parent] of [core/dom/traversal], which is not
    among the sources; "reference = its current parent", and [null] has
    none. *)
Definition parent (d : Store) (node : option Node) : option Node :=
  match node with
  | Some n => parentNode d n
  | None => None
  end.

Definition appendChildren (node : option Node) (children : NodeCollection) (d : Store) :=
  before node None children d.


Definition insertBefore (node : option Node) (insertedNodes : NodeCollection) (d : Store) :=
  before (parent d node) node insertedNodes d.

Definition insertAfter (node : option Node) (insertedNodes : NodeCollection) (d : Store) :=
  before (parent d node) (match node with Some n => nextSibling d n | None => None end)
         insertedNodes d.

(** The branch of [removeElements] for what is not array-like, on a node:
    [parentNode.removeChild(nodes)] when it has a parent. *)
Definition removeElement (nodes : Node) (d : Store) : Completion Store :=
  match parentNode d nodes with
  | Some parentNode' => removeChild parentNode' nodes d
  | None => Normal d
  end.

(** What is at an index, as the argument of a call. *)
Definition of_item (e : option Node) : NodeCollection :=
  match e with
  | Some n => OneNode n
  | None => Nothing
  end.

(** [removeElements(nodes)], for calls nested [depth] deep at most: on
    what is array-like when the call runs it calls itself on each item of
    the copy [Array.from(nodes)]; otherwise, on a node, it takes the node
    out of its parent, and on [null], [undefined] or an object that has
    no [parentNode] it does nothing. *)
Fixpoint removeElements_from (depth : nat) (nodes : NodeCollection) (d : Store)
  : Completion Store :=
  if isArrayLike d nodes then
    match depth with
    | O => Normal d
    | S depth' => each (items d nodes) (fun e => removeElements_from depth' (of_item e)) d
    end
  else
    match nodes with
    | OneNode n => removeElement n d
    | _ => Normal d
    end.

(** [removeElements(nodes)].  The calls nest as deep as array-like nodes
    hold each other, after the call on the collection itself: an item of
    a node is one of its children, so in a tree of [size d] nodes no
    nesting is deeper than [size d] (lemma [removeElements_depth]). *)
Definition removeElements (nodes : NodeCollection) (d : Store) : Completion Store :=
  removeElements_from (S (size d)) nodes d.

(** The variable [anchor] of [before] once the nodes [done] are in the
    fragment, for a parent whose children were [pre ++ post] and the first
    of [post] as preferred anchor. *)
Definition anchor_of (pre post done : list Node) : option Node :=
  match head post with
  | None => None
  | Some c => if decide (c ∈ done) then last (filter (fun y => y ∉ done) pre) else Some c
  end.

(** The nodes of a collection that is nothing, a node or an array (a list
    of the document has those the document gives it, none of its own). *)
Definition nodes_of (c : NodeCollection) : list Node :=
  match c with
  | Nothing => []
  | OneNode n => [n]
  | ArrayLike ns => ns
  | ChildNodes _ => []
  end.

(** The collection is nothing, an array, or a node without a numeric
    [length]: what the utilities work on are the nodes [nodes_of]. *)
Definition plain (d : Store) (c : NodeCollection) : Prop :=
  match c with
  | Nothing | ArrayLike _ => True
  | OneNode n => indexed d n = NoLength
  | ChildNodes _ => False
  end.

(** The calls of [removeElements] on the node [x] nest at most [depth]
    deep: they nest through the nodes that have nodes at their indices. *)
Fixpoint nested_within (depth : nat) (d : Store) (x : Node) : Prop :=
  match indexed d x with
  | Listing =>
      match depth with
      | O => childNodes d x = []
      | S depth' => forall c, c ∈ childNodes d x -> nested_within depth' d c
      end
  | _ => True
  end.

(** The node [x] has [a] ancestors at least. *)
Definition ancestors_at_least (a : nat) (d : Store) (x : Node) : Prop :=
  match a with
  | O => True
  | S a' => reaches_root a' d x = false
  end.

(** What the calls on the items of a collection need. *)
Definition items_within (depth : nat) (d : Store) (l : list (option Node)) : Prop :=
  forall x, Some x ∈ l -> nested_within depth d x.

(** Every second element of a list, from the first on. *)
Fixpoint every_second {A : Type} (l : list A) : list A :=
  match l with
  | [] => []
  | a :: t => a :: match t with
                   | [] => []
                   | _ :: rest => every_second rest
                   end
  end.

(** An array-like object of the document with the children of [q] at its
    indices: the list [q.childNodes], or a node [q] that has them as its
    items. *)
Definition lists_children (d : Store) (source : NodeCollection) (q : Node) : Prop :=
  source = ChildNodes q \/ (source = OneNode q /\ indexed d q = Listing).

End Manipulation.

(* ===================================================================== *)
(** ** The helpers of the bundle ([overlayscrollbars.esm.js]) *)
(* ===================================================================== *)

Module Utils.
Import Dom.

(** [each(source, callback)] on an array [source], from index [i] on: the
    callback is given the element and its index, and the loop ends when
    the callback returns [false].  A callback gives the new state and
    whether it returned [false]. *)
Fixpoint each_from {A St : Type} (i : nat) (source : list A)
  (callback : A -> nat -> St -> Completion (St * bool)) (s : St) : Completion St :=
  match source with
  | [] => Normal s
  | e :: rest =>
      bind (callback e i s) (fun '(s', returnedFalse) =>
        if returnedFalse : bool then Normal s' else each_from (S i) rest callback s')
  end.

Definition each {A St : Type} (source : list A)
  (callback : A -> nat -> St -> Completion (St * bool)) (s : St) : Completion St :=
  each_from 0 source callback s.

(** [contents(elm)]: a copy of the child nodes; the empty array for
    [null]. *)
Definition contents (d : Store) (elm : option Node) : list Node :=
  match elm with
  | Some e => childNodes d e
  | None => []
  end.

(** [createDiv()]: a new element without parent or children. *)
Definition createDiv (d : Store) : Node * Store :=
  let elm := fresh (dom d) in
  (elm, <[elm := mkNodeData false None [] NoLength]> d).

(** [createDOM(html)].  [setInnerHTML elm] stands for
    [elm.innerHTML = html.trim()], the parser of the browser: it gives the
    store in which [elm] has the parsed nodes as children.  Each of them
    is handed to [removeElements], which tests whether it is array-like as
    it does with every argument.  The callback given to [each] returns
    what [removeElements] returns, [undefined], and [each] returns the
    array it was given. *)
Definition createDOM (setInnerHTML : Node -> Store -> Store) (d : Store)
  : Completion (list Node * Store) :=
  let '(elm, d0) := createDiv d in
  let d1 := setInnerHTML elm d0 in
  let source := contents d1 (Some elm) in
  bind (each source
          (fun elm' _ d' =>
             bind (Manipulation.removeElements (Manipulation.OneNode elm') d')
                  (fun d'' => Normal (d'', false)))
          d1)
       (fun d2 => Normal (source, d2)).

End Utils.

(* ===================================================================== *)
(** ** The effects of the environment on the tree *)
(* ===================================================================== *)

Module Document.
Import Dom Manipulation.

(** The node objects of [document.body] and of the measurement element. *)
Record Elements : Type := mkElements { bodyNode : Node; envNode : Node }.

Definition node_of (els : Elements) (e : Environment.Elm) : Node :=
  match e with
  | Environment.body => bodyNode els
  | Environment.envElm => envNode els
  end.

(** What an effect of the environment does to the tree: the two calls are
    those of [core/dom/manipulation], each with the node of the
    measurement element; a listener is taken to leave the tree alone. *)
Definition perform (els : Elements) (fx : Environment.Effect) (d : Store) : Completion Store :=
  match fx with
  | Environment.AppendChildren parent child =>
      appendChildren (Some (node_of els parent)) (OneNode (node_of els child)) d
  | Environment.RemoveElements elm => removeElements (OneNode (node_of els elm)) d
  | Environment.Call _ _ => Normal d
  end.

Fixpoint perform_all (els : Elements) (fxs : list Environment.Effect) (d : Store)
  : Completion Store :=
  match fxs with
  | [] => Normal d
  | fx :: rest => bind (perform els fx d) (perform_all els rest)
  end.

End Document.

(* ===================================================================== *)
(** ** Concrete pages and events *)
(* ===================================================================== *)

Module Examples.
Import Support Environment.
Local Open Scope float_scope.

Definition win (width height ratio : JS.number) : Window :=
  mkWindow (mkWH width height) (Some ratio) None None.

Definition boxes (clientW clientH offsetW offsetH : JS.number) : Layout :=
  mkLayout (mkWH clientW clientH) (mkWH offsetW offsetH).

Definition origin : XY JS.number := mkXY 0 0.

(** A desktop browser with classic scrollbars, 17px thick, in a window of
    1000 by 800 at a device pixel ratio of 1. *)
Definition classic : Platform :=
  mkPlatform (boxes 100 100 117 117) "auto" None origin origin origin true true
             (win 1000 800 1).

(** The same window with overlay scrollbars. *)
Definition overlay : Platform :=
  mkPlatform (boxes 100 100 100 100) "auto" None origin origin origin true true
             (win 1000 800 1).

(** Zooming to 110%: both dimensions grow by a tenth, the ratio changes,
    and the horizontal scrollbar now measures 0. *)
Definition zoom_in : ResizeEvent :=
  mkResize (win 1100 880 1.1) (boxes 100 100 115 100).

(** The ratio changes while the window keeps its size. *)
Definition ratio_only : ResizeEvent :=
  mkResize (win 1000 800 2) (boxes 100 100 110 110).

Definition classic_page : Page := fst (construct classic).

Definition classic_closure : Closure := mkClosure (mkWH 1000 800) 1.

(** The instance of [classic_page] once listener [1] is registered. *)
Definition listening : Environment := addListener (self classic_page) 1%nat.

(** The page [classic_page] once listener [1] is registered. *)
Definition listening_page : Page := fst (step classic_page (AddListener 1%nat)).

(** Both dimensions of the window grow by a tenth at an unchanged device
    pixel ratio. *)
Definition grow : ResizeEvent :=
  mkResize (win 1100 880 1) (boxes 100 100 117 117).

(** A browser that defines neither [devicePixelRatio] nor
    [screen.deviceXDPI], with classic scrollbars. *)
Definition legacy : Platform :=
  mkPlatform (boxes 100 100 117 117) "auto" None origin origin origin false false
             (mkWindow (mkWH 1000 800) None None None).

(** Both dimensions of its window grow by a tenth. *)
Definition legacy_zoom : ResizeEvent :=
  mkResize (mkWindow (mkWH 1100 880) None None None) (boxes 100 100 115 100).

End Examples.

(* ===================================================================== *)
(** ** A concrete tree *)
(* ===================================================================== *)

Module Tree.
Import Dom.

Definition p : Node := 1%positive.
Definition c : Node := 2%positive.
Definition d : Node := 3%positive.
Definition a : Node := 4%positive.
Definition b : Node := 5%positive.
Definition e : Node := 6%positive.

Definition el (parent : option Node) (children : list Node) : NodeData :=
  mkNodeData false parent children NoLength.

(** [p] has the children [c] and [d]; [a], [b] and [e] are detached. *)
Definition store : Store :=
  list_to_map [(p, el None [c; d]); (c, el (Some p) []); (d, el (Some p) []);
               (a, el None []); (b, el None []); (e, el None [])].

Definition q : Node := 7%positive.
Definition g : Node := 8%positive.
Definition h : Node := 9%positive.

(** [p] has the children [c] and [d] and [q] the children [a], [b] and
    [e]; the fragment [g] holds [h]. *)
Definition two_lists : Store :=
  list_to_map [(p, el None [c; d]); (c, el (Some p) []); (d, el (Some p) []);
               (q, el None [a; b; e]); (a, el (Some q) []); (b, el (Some q) []);
               (e, el (Some q) []);
               (g, mkNodeData true None [h] NoLength); (h, el (Some g) [])].

Definition text : Node := 10%positive.
Definition select : Node := 11%positive.
Definition option1 : Node := 12%positive.
Definition option2 : Node := 13%positive.
Definition option3 : Node := 14%positive.

(** [p] has as children the text node [text], of two characters, and the
    element [c]; the detached [select] has the three options [option1],
    [option2] and [option3]. *)
Definition with_text : Store :=
  list_to_map [(p, el None [text; c]);
               (text, mkNodeData false (Some p) [] (Characters 2));
               (c, el (Some p) []);
               (select, mkNodeData false None [option1; option2; option3] Listing);
               (option1, el (Some select) []); (option2, el (Some select) []);
               (option3, el (Some select) [])].

(** [p] as [document.body] and the detached [a] as measurement element. *)
Definition elements : Document.Elements := Document.mkElements p a.

Definition outer : Node := 101%positive.
Definition inner : Node := 102%positive.

(** What the parser does with ['<div><div></div></div>']: [elm] gets one
    child, [outer], which has the child [inner]. *)
Definition parsed (elm : Node) (s : Store) : Store :=
  <[inner := el (Some outer) []]>
    (<[outer := el (Some elm) [inner]]> (set_children elm [outer] s)).

Definition words : Node := 103%positive.

(** What the parser does with ['hello<div><div></div></div>']: [elm] gets
    a text node of five characters, [words], and [outer], which has the
    child [inner]. *)
Definition parsed_with_text (elm : Node) (s : Store) : Store :=
  <[words := mkNodeData false (Some elm) [] (Characters 5)]>
    (<[inner := el (Some outer) []]>
       (<[outer := el (Some elm) [inner]]> (set_children elm [words; outer] s))).

(** A callback that records the elements it is given and returns [false]
    on [3]. *)
Definition until_three (e : nat) (_ : nat) (s : list nat) : Completion (list nat * bool) :=
  Normal (s ++ [e], Nat.eqb e 3).

End Tree.

(* ===================================================================== *)
(** ** Integers as JavaScript numbers

    The specification of the primitive floats gives each operation on the
    sign, mantissa and exponent of its arguments ([Prim2SF]).  Below
    [2^53] every integer is a number, and adding or subtracting [1] and
    comparing are exact. *)
(* ===================================================================== *)

Module NumberFacts.
Import Binary64.

(** *** [Math.round] on sample arguments *)

Example round_tie_up : JS.round 2.5%float = 3%float.
Proof. vm_compute. reflexivity. Qed.

Example round_tie_up_negative : JS.round (-2.5)%float = (-2)%float.
Proof. vm_compute. reflexivity. Qed.

Example round_just_below_half : JS.round 0.49999999999999994%float = 0%float.
Proof. vm_compute. reflexivity. Qed.

Example round_to_negative_zero : JS.round (-0.25)%float = (-0)%float.
Proof. vm_compute. reflexivity. Qed.

Example round_largest_fraction :
  JS.round 4503599627370495.5%float = 4503599627370496%float.
Proof. vm_compute. reflexivity. Qed.

Example round_infinity : JS.round infinity = infinity.
Proof. vm_compute. reflexivity. Qed.

Example round_percentage :
  JS.round (PrimFloat.div 1100%float (PrimFloat.div 1000%float 100%float)) = 110%float.
Proof. vm_compute. reflexivity. Qed.

(** *** Shifts and digits *)

Lemma Ziter_xO (m k : positive) : Zpos (Pos.iter xO m k) = Zpos m * 2 ^ Zpos k.
Proof.
  revert m. induction k using Pos.peano_ind; intros m.
  - cbn. lia.
  - rewrite Pos.iter_succ. rewrite Pos2Z.inj_xO, IHk.
    rewrite Pos2Z.inj_succ, Z.pow_succ_r by lia. lia.
Qed.

Lemma digits_iter_xO (m k : positive) :
  digits2_pos (Pos.iter xO m k) = (digits2_pos m + k)%positive.
Proof.
  revert m. induction k using Pos.peano_ind; intros m.
  - cbn. lia.
  - rewrite Pos.iter_succ. cbn [digits2_pos]. rewrite IHk. lia.
Qed.

Lemma iter_pos_iter {A} (f : A -> A) (k : positive) (x : A) :
  SpecFloat.iter_pos f k x = Pos.iter f x k.
Proof.
  revert x. induction k; intros x; cbn.
  - rewrite !IHk. now rewrite !Pos.iter_swap.
  - now rewrite !IHk.
  - reflexivity.
Qed.

Lemma shr_exact (m k : positive) :
  SpecFloat.iter_pos shr_1 k {| shr_m := Zpos (Pos.iter xO m k); shr_r := false; shr_s := false |}
  = {| shr_m := Zpos m; shr_r := false; shr_s := false |}.
Proof.
  rewrite iter_pos_iter. revert m. induction k using Pos.peano_ind; intros m.
  - reflexivity.
  - rewrite Pos.iter_succ. rewrite (Pos.iter_succ_r k positive xO). rewrite IHk. reflexivity.
Qed.

Lemma digits_bounds (p : positive) :
  2 ^ (Zpos (digits2_pos p) - 1) <= Zpos p < 2 ^ Zpos (digits2_pos p).
Proof.
  induction p; cbn [digits2_pos].
  - rewrite Pos2Z.inj_succ. replace (Z.succ (Zpos (digits2_pos p)) - 1) with (Z.succ (Zpos (digits2_pos p) - 1)) by lia.
    rewrite !Z.pow_succ_r by lia. lia.
  - rewrite Pos2Z.inj_succ. replace (Z.succ (Zpos (digits2_pos p)) - 1) with (Z.succ (Zpos (digits2_pos p) - 1)) by lia.
    rewrite !Z.pow_succ_r by lia. lia.
  - cbn. lia.
Qed.

Lemma Zshl (m : positive) (k : Z) : 0 <= k -> Zpos (shl m k) = Zpos m * 2 ^ k.
Proof.
  intros H. destruct k as [|k|k]; cbn [shl]; [cbn; lia | apply Ziter_xO | lia].
Qed.

Lemma digits_shl (m : positive) (k : Z) :
  0 <= k -> Zpos (digits2_pos (shl m k)) = Zpos (digits2_pos m) + k.
Proof.
  intros H. destruct k as [|k|k]; cbn [shl]; [lia | | lia].
  rewrite digits_iter_xO. lia.
Qed.

Lemma shr_shl (m : positive) (k e : Z) :
  0 <= k ->
  shr {| shr_m := Zpos (shl m k); shr_r := false; shr_s := false |} (e - k) k
  = ({| shr_m := Zpos m; shr_r := false; shr_s := false |}, e).
Proof.
  intros H. destruct k as [|k|k]; cbn [shr shl]; [f_equal; lia | | lia].
  rewrite shr_exact. f_equal. lia.
Qed.

(** An integer mantissa of 53 digits shifted left by [k] at exponent [e - k]
    rounds, exactly, to the mantissa at exponent [e]. *)
Lemma round_exact (m : positive) (k e : Z) :
  Zpos (digits2_pos m) = 53 -> 0 <= k -> -1074 <= e <= 971 ->
  binary_round_aux prec emax false (Zpos (shl m k)) (e - k) loc_Exact
  = S754_finite false m e.
Proof.
  intros Hd Hk He. unfold binary_round_aux, shr_fexp. cbn [Zdigits2 shr_record_of_loc].
  rewrite digits_shl by exact Hk. rewrite Hd.
  replace (fexp prec emax (53 + k + (e - k)) - (e - k)) with k
    by (unfold fexp, SpecFloat.emin, prec, emax; lia).
  rewrite shr_shl by exact Hk. cbn [shr_m loc_of_shr_record round_nearest_even Zdigits2].
  rewrite Hd.
  replace (fexp prec emax (53 + e) - e) with 0
    by (unfold fexp, SpecFloat.emin, prec, emax; lia).
  cbn [shr shr_m].
  replace (e <=? emax - prec) with true; [reflexivity|].
  symmetry. apply Z.leb_le. unfold prec, emax. lia.
Qed.

Lemma round_exact' (m : positive) (k e e0 : Z) :
  Zpos (digits2_pos m) = 53 -> 0 <= k -> -1074 <= e <= 971 -> e0 = e - k ->
  binary_round_aux prec emax false (Zpos (shl m k)) e0 loc_Exact
  = S754_finite false m e.
Proof. intros Hd Hk He ->. now apply round_exact. Qed.

Lemma digits_small (p : positive) : Zpos p < 2 ^ 53 -> 1 <= Zpos (digits2_pos p) <= 53.
Proof.
  intros H. pose proof (digits_bounds p) as [H1 _]. split; [lia|].
  destruct (Z_lt_le_dec 53 (Zpos (digits2_pos p))); [|lia].
  assert (2 ^ 53 <= 2 ^ (Zpos (digits2_pos p) - 1)) by (apply Z.pow_le_mono_r; lia). lia.
Qed.

Lemma digits_mant (p : positive) : Zpos p < 2 ^ 53 -> Zpos (digits2_pos (mant p)) = 53.
Proof.
  intros H. pose proof (digits_small p H). unfold mant. rewrite digits_shl; lia.
Qed.

(** A positive integer below [2^53] is represented exactly: its mantissa is
    the integer shifted to 53 bits. *)
Lemma cn_pos (p : positive) :
  Zpos p < 2 ^ 53 ->
  cn (Zpos p) = S754_finite false (mant p) (Zpos (digits2_pos p) - 53).
Proof.
  intros H. pose proof (digits_small p H) as Hd. pose proof (digits_mant p H) as Hm.
  unfold cn, binary_normalize, binary_round, shl_align.
  replace (fexp prec emax (Zpos (digits2_pos p) + 0)) with (Zpos (digits2_pos p) - 53)
    by (unfold fexp, SpecFloat.emin, prec, emax; lia).
  rewrite Z.sub_0_r.
  assert (forall mz ez, mz = mant p -> ez = Zpos (digits2_pos p) - 53 ->
            binary_round_aux prec emax false (Zpos mz) ez loc_Exact
            = S754_finite false (mant p) (Zpos (digits2_pos p) - 53)) as Haux.
  { intros mz ez -> ->.
    rewrite <- (round_exact (mant p) 0 (Zpos (digits2_pos p) - 53)); [|exact Hm|lia|lia].
    cbn [shl]. now rewrite Z.sub_0_r. }
  unfold mant in Haux |- *.
  destruct (Zpos (digits2_pos p) - 53) as [|k|k] eqn:E.
  - apply Haux; [|reflexivity]. replace (53 - Zpos (digits2_pos p)) with 0 by lia. reflexivity.
  - lia.
  - apply Haux; [|reflexivity].
    replace (53 - Zpos (digits2_pos p)) with (Zpos k) by lia. reflexivity.
Qed.

(** Any integer below [2^53] given with 52 more binary places normalizes
    to the same float. *)
Lemma normalize_scaled (p : positive) :
  Zpos p < 2 ^ 53 ->
  binary_normalize prec emax (Zpos p * 2 ^ 52) (-52) false = cn (Zpos p).
Proof.
  intros H. pose proof (digits_small p H) as Hd. pose proof (digits_mant p H) as Hm.
  rewrite (cn_pos p H).
  assert (Zpos p * 2 ^ 52 = Zpos (shl (mant p) (Zpos (digits2_pos p) - 1))) as ->.
  { rewrite Zshl by lia. unfold mant. rewrite Zshl by lia.
    rewrite <- Z.mul_assoc, <- Z.pow_add_r by lia. f_equal. f_equal. lia. }
  unfold binary_normalize, binary_round, shl_align.
  rewrite digits_shl by lia. rewrite Hm.
  replace (fexp prec emax (53 + (Zpos (digits2_pos p) - 1) + -52))
    with (Zpos (digits2_pos p) - 53)
    by (unfold fexp, SpecFloat.emin, prec, emax; lia).
  destruct (Zpos (digits2_pos p) - 53 - - 52) as [|k|k] eqn:E; [| |lia].
  - apply round_exact'; [exact Hm | lia | lia | lia].
  - apply round_exact'; [exact Hm | lia | lia | lia].
Qed.

Lemma cn_1 : cn 1 = S754_finite false 4503599627370496 (-52).
Proof. vm_compute. reflexivity. Qed.

Lemma aligned (p : positive) :
  Zpos p < 2 ^ 53 ->
  Zpos (fst (shl_align (mant p) (Zpos (digits2_pos p) - 53) (-52))) = Zpos p * 2 ^ 52.
Proof.
  intros H. pose proof (digits_small p H) as Hd.
  assert (Zpos (mant p) * 2 ^ (Zpos (digits2_pos p) - 1) = Zpos p * 2 ^ 52) as Hv.
  { unfold mant. rewrite Zshl by lia.
    rewrite <- Z.mul_assoc, <- Z.pow_add_r by lia. f_equal. f_equal. lia. }
  unfold shl_align.
  destruct (-52 - (Zpos (digits2_pos p) - 53)) as [|k|k] eqn:E; cbn [fst].
  - rewrite <- Hv. replace (Zpos (digits2_pos p) - 1) with 0 by lia. lia.
  - lia.
  - rewrite Ziter_xO, <- Hv. f_equal. f_equal. lia.
Qed.

Lemma min_exp (p : positive) :
  Zpos p < 2 ^ 53 -> Z.min (Zpos (digits2_pos p) - 53) (-52) = -52.
Proof. intros H. pose proof (digits_small p H). lia. Qed.

(** Adding 1 to an integer is exact while the sum stays below [2^53]. *)
Lemma add_one (p : positive) :
  Zpos p + 1 < 2 ^ 53 -> SFadd prec emax (cn (Zpos p)) (cn 1) = cn (Zpos p + 1).
Proof.
  intros H. rewrite cn_pos by lia. rewrite cn_1. unfold SFadd.
  rewrite min_exp by lia. cbn [cond_Zopp].
  rewrite aligned by lia.
  change (Zpos (fst (shl_align 4503599627370496 (-52) (-52)))) with (2 ^ 52).
  replace (Zpos p * 2 ^ 52 + 2 ^ 52) with (Zpos (p + 1)%positive * 2 ^ 52) by lia.
  rewrite normalize_scaled by lia. f_equal.
Qed.

(** Subtracting 1 from a positive integer below [2^53] is exact. *)
Lemma sub_one (p : positive) :
  Zpos p < 2 ^ 53 -> SFsub prec emax (cn (Zpos p)) (cn 1) = cn (Zpos p - 1).
Proof.
  intros H. rewrite cn_pos by lia. rewrite cn_1. unfold SFsub.
  rewrite min_exp by lia. cbn [cond_Zopp].
  rewrite aligned by lia.
  change (Zpos (fst (shl_align 4503599627370496 (-52) (-52)))) with (2 ^ 52).
  destruct (Pos.eq_dec p 1%positive) as [->|Hne].
  - reflexivity.
  - replace (Zpos p * 2 ^ 52 - 2 ^ 52) with (Zpos (p - 1)%positive * 2 ^ 52) by lia.
    rewrite normalize_scaled by lia. f_equal. lia.
Qed.

Lemma mant_inj (p q : positive) :
  Zpos p < 2 ^ 53 -> Zpos q < 2 ^ 53 ->
  digits2_pos p = digits2_pos q -> mant p = mant q -> p = q.
Proof.
  intros Hp Hq Hd Hm. pose proof (digits_small p Hp). 
  assert (Zpos (mant p) = Zpos (mant q)) as Hz by now rewrite Hm.
  unfold mant in Hz. rewrite !Zshl in Hz by lia. rewrite Hd in Hz.
  apply Z.mul_reg_r in Hz; [congruence|].
  apply Z.pow_nonzero; lia.
Qed.

(** On integers below [2^53] the comparison of floats is the comparison of
    the integers. *)
Lemma cn_eqb (n m : Z) :
  0 <= n < 2 ^ 53 -> 0 <= m < 2 ^ 53 -> SFeqb (cn n) (cn m) = (n =? m).
Proof.
  intros Hn Hm.
  destruct n as [|p|p]; [| |lia]; destruct m as [|q|q]; try lia.
  - reflexivity.
  - rewrite (cn_pos q) by lia. reflexivity.
  - rewrite (cn_pos p) by lia. reflexivity.
  - rewrite (cn_pos p), (cn_pos q) by lia. unfold SFeqb, SFcompare.
    destruct (Z.compare_spec (Zpos (digits2_pos p) - 53) (Zpos (digits2_pos q) - 53))
      as [E|E|E].
    + assert (digits2_pos p = digits2_pos q) as Hd by lia.
      fold (Pos.compare (mant p) (mant q)).
      destruct (Pos.compare_spec (mant p) (mant q)) as [Em|Em|Em].
      * rewrite (mant_inj p q) by (lia || assumption). symmetry. apply Z.eqb_refl.
      * symmetry. apply Z.eqb_neq. intros Eq. injection Eq as ->. lia.
      * symmetry. apply Z.eqb_neq. intros Eq. injection Eq as ->. lia.
    + symmetry. apply Z.eqb_neq. intros Eq. injection Eq as ->. lia.
    + symmetry. apply Z.eqb_neq. intros Eq. injection Eq as ->. lia.
Qed.

Lemma to_Z_of_Z (z : Z) : 0 <= z < 2 ^ 53 -> Uint63.to_Z (Uint63.of_Z z) = z.
Proof.
  intros H. rewrite Uint63.of_Z_spec. apply Z.mod_small.
  change Uint63.wB with (2 ^ 63). split; [lia|].
  apply Z.lt_trans with (2 ^ 53); [lia | reflexivity].
Qed.

(** [Math.abs] of the number of an integer is the number of its absolute
    value. *)
Lemma Prim2SF_abs_of_Z (a : Z) :
  Z.abs a < 2 ^ 53 -> Prim2SF (PrimFloat.abs (JS.of_Z a)) = cn (Z.abs a).
Proof.
  intros H. rewrite FloatAxioms.abs_spec. destruct a as [|p|p].
  - reflexivity.
  - change (Z.abs (Zpos p)) with (Zpos p) in H |- *. unfold JS.of_Z.
    rewrite FloatAxioms.of_uint63_spec, to_Z_of_Z by lia.
    fold (cn (Zpos p)). now rewrite cn_pos by lia.
  - change (Z.abs (Zneg p)) with (Zpos p) in H |- *. unfold JS.of_Z.
    rewrite FloatAxioms.opp_spec, FloatAxioms.of_uint63_spec.
    change (- Zneg p) with (Zpos p). rewrite to_Z_of_Z by lia.
    fold (cn (Zpos p)). now rewrite cn_pos by lia.
Qed.

Lemma Prim2SF_one : Prim2SF 1%float = cn 1.
Proof. vm_compute. reflexivity. Qed.

(** [A + 1 === B] on numbers decides [A + 1 = B] on the integers, also at
    the boundary [A + 1 = 2^53]. *)
Lemma add_one_eqb (A B : Z) :
  0 <= A < 2 ^ 53 -> 0 <= B < 2 ^ 53 ->
  SFeqb (SF64add (cn A) (cn 1)) (cn B) = (A + 1 =? B).
Proof.
  intros HA HB. unfold SF64add.
  destruct (Z.eq_dec (A + 1) (2 ^ 53)) as [E|E].
  - assert (A = 9007199254740991) as -> by lia.
    replace (SFadd prec emax (cn 9007199254740991) (cn 1))
      with (S754_finite false 4503599627370496 1) by (vm_compute; reflexivity).
    replace (9007199254740991 + 1 =? B) with false by (symmetry; apply Z.eqb_neq; lia).
    destruct B as [|q|q]; [reflexivity | | lia].
    rewrite cn_pos by lia. pose proof (digits_small q ltac:(lia)) as Hd.
    unfold SFeqb, SFcompare.
    destruct (Z.compare_spec 1 (Zpos (digits2_pos q) - 53)); [lia | lia | reflexivity].
  - destruct A as [|p|p]; [| |lia].
    + change (SFadd prec emax (cn 0) (cn 1)) with (cn 1). apply cn_eqb; lia.
    + rewrite add_one by lia. apply cn_eqb; lia.
Qed.

(** [A - 1 === B] on numbers decides [A - 1 = B] on the integers, also at
    [A = 0], where the difference is negative. *)
Lemma sub_one_eqb (A B : Z) :
  0 <= A < 2 ^ 53 -> 0 <= B < 2 ^ 53 ->
  SFeqb (SF64sub (cn A) (cn 1)) (cn B) = (A - 1 =? B).
Proof.
  intros HA HB. unfold SF64sub. destruct A as [|p|p]; [| |lia].
  - replace (SFsub prec emax (cn 0) (cn 1))
      with (S754_finite true 4503599627370496 (-52)) by (vm_compute; reflexivity).
    replace (0 - 1 =? B) with false by (symmetry; apply Z.eqb_neq; lia).
    destruct B as [|q|q]; [reflexivity | | lia].
    rewrite cn_pos by lia. reflexivity.
  - rewrite sub_one by lia. apply cn_eqb; lia.
Qed.


(** *** Finite numbers, zero and comparison *)

Lemma isFinite_cases (a : float) :
  JS.isFinite a = true ->
  (exists s, Prim2SF a = S754_zero s) \/ (exists s m e, Prim2SF a = S754_finite s m e).
Proof.
  unfold JS.isFinite. rewrite FloatAxioms.ltb_spec, FloatAxioms.abs_spec.
  destruct (Prim2SF a) as [s|s| |s m e]; [eauto | | | eauto 6].
  - destruct s; vm_compute; discriminate.
  - vm_compute; discriminate.
Qed.

(** [a - a === 0] for a finite number. *)
Lemma sub_diag (a : float) :
  JS.isFinite a = true -> JS.strict_eq (PrimFloat.sub a a) 0%float = true.
Proof.
  intros H. unfold JS.strict_eq. rewrite FloatAxioms.eqb_spec, FloatAxioms.sub_spec.
  destruct (isFinite_cases a H) as [[s ->] | (s & m & e & ->)].
  - destruct s; vm_compute; reflexivity.
  - unfold SF64sub, SFsub. rewrite Z.sub_diag. vm_compute. reflexivity.
Qed.

Lemma SFcompare_refl (s : bool) (m : positive) (e : Z) :
  SFcompare (S754_finite s m e) (S754_finite s m e) = Some Eq.
Proof.
  unfold SFcompare. rewrite Z.compare_refl, Pos.compare_cont_refl. now destruct s.
Qed.

(** [k !== k && k > 0] is [false] for every number: only [NaN] differs
    from itself, and [NaN] is not above [0]. *)
Lemma same_number_not_changed (k : float) :
  JS.strict_neq k k && JS.gt k 0%float = false.
Proof.
  unfold JS.strict_neq, JS.strict_eq, JS.gt.
  rewrite FloatAxioms.eqb_spec, FloatAxioms.ltb_spec.
  destruct (Prim2SF k) as [s|s| |s m e].
  - destruct s; vm_compute; reflexivity.
  - destruct s; vm_compute; reflexivity.
  - vm_compute; reflexivity.
  - unfold SFeqb. rewrite SFcompare_refl. reflexivity.
Qed.

Lemma zero_not_positive (k : float) :
  JS.strict_eq k 0%float = true -> JS.gt k 0%float = false.
Proof.
  unfold JS.strict_eq, JS.gt. rewrite FloatAxioms.eqb_spec, FloatAxioms.ltb_spec.
  destruct (Prim2SF k) as [s|s| |s m e].
  - intros _. destruct s; vm_compute; reflexivity.
  - destruct s; vm_compute; discriminate.
  - vm_compute; discriminate.
  - destruct s; vm_compute; discriminate.
Qed.

(** [0 / s === 0] for a truthy [s] (not [0], not [NaN]). *)
Lemma zero_div_truthy (s : float) :
  JS.truthy s = true -> JS.strict_eq (PrimFloat.div 0%float s) 0%float = true.
Proof.
  unfold JS.truthy, JS.strict_eq. rewrite !FloatAxioms.eqb_spec, FloatAxioms.div_spec.
  destruct (Prim2SF s) as [b|b| |b m e].
  - destruct b; vm_compute; discriminate.
  - intros _. destruct b; vm_compute; reflexivity.
  - vm_compute; discriminate.
  - intros _. destruct b; vm_compute; reflexivity.
Qed.

(** *** Integers, [-1] and the remainder by [1] *)

Lemma Prim2SF_of_Z (z : Z) :
  Z.abs z < 2 ^ 53 ->
  Prim2SF (JS.of_Z z)
  = match z with
    | Z0 => S754_zero false
    | Zpos p => S754_finite false (mant p) (Zpos (digits2_pos p) - 53)
    | Zneg p => S754_finite true (mant p) (Zpos (digits2_pos p) - 53)
    end.
Proof.
  intros H. destruct z as [|p|p]; unfold JS.of_Z.
  - reflexivity.
  - rewrite FloatAxioms.of_uint63_spec, to_Z_of_Z by lia.
    fold (cn (Zpos p)). apply cn_pos. lia.
  - rewrite FloatAxioms.opp_spec, FloatAxioms.of_uint63_spec.
    change (- Zneg p) with (Zpos p). rewrite to_Z_of_Z by lia.
    fold (cn (Zpos p)). rewrite cn_pos by lia. reflexivity.
Qed.

Lemma mant_scaled (p : positive) :
  Zpos p < 2 ^ 53 ->
  Zpos (mant p) * 2 ^ (Zpos (digits2_pos p) - 53 - -52) = Zpos p * 2 ^ 52.
Proof.
  intros H. pose proof (digits_small p H) as Hd.
  unfold mant. rewrite Zshl by lia.
  rewrite <- Z.mul_assoc, <- Z.pow_add_r by lia. f_equal. f_equal. lia.
Qed.

(** An integer below [2^53] leaves no remainder by [1]. *)
Lemma rem_one_of_Z (z : Z) :
  Z.abs z < 2 ^ 53 -> JS.strict_eq (JS.rem (JS.of_Z z) 1%float) 0%float = true.
Proof.
  intros H. unfold JS.rem. rewrite (Prim2SF_of_Z z H).
  change (Prim2SF 1%float) with (S754_finite false 4503599627370496 (-52)).
  destruct z as [|p|p]; [reflexivity| |].
  all: assert (Zpos p < 2 ^ 53) as Hp by lia.
  all: rewrite (min_exp p Hp), (mant_scaled p Hp).
  all: change (4503599627370496 * 2 ^ (-52 - -52)) with (2 ^ 52).
  all: rewrite Z.mod_mul by lia.
  all: reflexivity.
Qed.

(** An integer below [2^53] is above [-1] exactly when it is not
    negative. *)
Lemma gt_minus_one_of_Z (z : Z) :
  Z.abs z < 2 ^ 53 -> JS.gt (JS.of_Z z) (-1)%float = (0 <=? z).
Proof.
  intros H. unfold JS.gt. rewrite FloatAxioms.ltb_spec, (Prim2SF_of_Z z H).
  change (Prim2SF (-1)%float) with (S754_finite true 4503599627370496 (-52)).
  destruct z as [|p|p]; [reflexivity | reflexivity |].
  assert (Zpos p < 2 ^ 53) as Hp by lia.
  pose proof (digits_small p Hp) as Hd.
  unfold SFltb, SFcompare.
  destruct (Z.compare_spec (-52) (Zpos (digits2_pos p) - 53)) as [E|E|E]; [|reflexivity|lia].
  assert (digits2_pos p = 1%positive) as Hd1 by lia.
  assert (p = 1%positive) as ->.
  { destruct p; cbn in Hd1; lia. }
  reflexivity.
Qed.

(** [%] on sample arguments. *)
Example rem_samples :
  JS.rem 5.5%float 1%float = 0.5%float
  /\ JS.rem (-5.5)%float 1%float = (-0.5)%float
  /\ JS.rem (-7)%float 3%float = (-1)%float
  /\ JS.rem 7%float (-3)%float = 1%float
  /\ JS.rem (-4)%float 2%float = (-0)%float
  /\ JS.rem 3%float infinity = 3%float
  /\ PrimFloat.is_nan (JS.rem infinity 1%float) = true
  /\ PrimFloat.is_nan (JS.rem 1%float 0%float) = true.
Proof. repeat split; vm_compute; reflexivity. Qed.

End NumberFacts.

(* ===================================================================== *)
(** ** Properties of the environment *)
(* ===================================================================== *)

Module EnvironmentFacts.
Import Support Environment.

(** *** Numbers *)

Lemma gt_two_not_zero (d : float) :
  JS.gt (JS.abs d) 2%float = true -> JS.strict_eq d 0%float = false.
Proof.
  unfold JS.gt, JS.abs, JS.strict_eq.
  rewrite FloatAxioms.ltb_spec, FloatAxioms.abs_spec, FloatAxioms.eqb_spec.
  destruct (Prim2SF d) as [s|s| |s m e].
  - vm_compute. congruence.
  - intros _. destruct s; reflexivity.
  - intros _. reflexivity.
  - intros _. destruct s; reflexivity.
Qed.

Lemma diffBiggerThanOne_false (a b : JS.number) :
  diffBiggerThanOne a b = false <-> differ_by_0_or_1 a b.
Proof.
  unfold diffBiggerThanOne, differ_by_0_or_1.
  rewrite negb_false_iff, !orb_true_iff. tauto.
Qed.

Lemma isZoom_true (c : Closure) (sizeNew : WH) (dprNew : JS.number) :
  isZoom c sizeNew dprNew = true <-> zoom_conditions differ_by_0_or_1 c sizeNew dprNew.
Proof.
  unfold isZoom, zoom_conditions, deltaIsBigger, difference, dprChanged.
  rewrite !andb_true_iff, negb_true_iff, diffBiggerThanOne_false.
  cbn [deltaAbsSize deltaSize w h]. tauto.
Qed.

Lemma isZoom_not_same_size (c : Closure) (sizeNew : WH) (dprNew : JS.number) :
  isZoom c sizeNew dprNew = true -> same_size c sizeNew = false.
Proof.
  unfold isZoom, deltaIsBigger, same_size. rewrite !andb_true_iff.
  intros [[[Hw _] _] _]. apply gt_two_not_zero in Hw.
  cbn in Hw |- *. now rewrite Hw.
Qed.

(** *** The handler, case by case *)

Lemma listeners_nonempty (ls : list OnEnvironmentChanged) :
  ls <> [] -> negb (Nat.eqb (length ls) 0) = true.
Proof. destruct ls; [congruence | reflexivity]. Qed.

Lemma onResize_no_listener (e : Environment) (c : Closure) (ev : ResizeEvent) :
  onChangedListener e = [] -> onResize e c ev = (e, c, []).
Proof. intros H. unfold onResize. now rewrite H. Qed.

Lemma onResize_same_size (e : Environment) (c : Closure) (ev : ResizeEvent) :
  same_size c (windowSize (window ev)) = true -> onResize e c ev = (e, c, []).
Proof.
  intros H. unfold onResize. unfold same_size in H. rewrite H.
  now destruct (negb _).
Qed.

Lemma onResize_zoom (e : Environment) (c : Closure) (ev : ResizeEvent) :
  onChangedListener e <> [] ->
  isZoom c (windowSize (window ev)) (windowDPR (window ev)) = true ->
  onResize e c ev =
    (set_nativeScrollbarSize e (fst (nativeScrollbarSize body envElm (layout ev))),
     {| size := windowSize (window ev); dpr := windowDPR (window ev) |},
     [AppendChildren body envElm; RemoveElements envElm]
       ++ (if scrollbarSizeChanged (_nativeScrollbarSize e)
                                   (fst (nativeScrollbarSize body envElm (layout ev)))
           then notify (set_nativeScrollbarSize e
                          (fst (nativeScrollbarSize body envElm (layout ev))))
           else [])).
Proof.
  intros Hl Hz. unfold onResize.
  rewrite (listeners_nonempty _ Hl).
  pose proof (isZoom_not_same_size _ _ _ Hz) as Hs. unfold same_size in Hs.
  rewrite Hs, Hz. reflexivity.
Qed.

Lemma onResize_no_zoom (e : Environment) (c : Closure) (ev : ResizeEvent) :
  onChangedListener e <> [] ->
  same_size c (windowSize (window ev)) = false ->
  isZoom c (windowSize (window ev)) (windowDPR (window ev)) = false ->
  onResize e c ev =
    (e, {| size := windowSize (window ev); dpr := windowDPR (window ev) |}, []).
Proof.
  intros Hl Hs Hz. unfold onResize.
  rewrite (listeners_nonempty _ Hl). unfold same_size in Hs.
  rewrite Hs, Hz. reflexivity.
Qed.

(** The handler never touches the overlay flags, nor any field but the
    scrollbar size. *)
Lemma onResize_frame (e : Environment) (c : Closure) (ev : ResizeEvent) :
  let e' := fst (fst (onResize e c ev)) in
  e' = e \/ e' = set_nativeScrollbarSize e (fst (nativeScrollbarSize body envElm (layout ev))).
Proof.
  unfold onResize.
  destruct (negb _); [|now left].
  destruct (_ && _); [now left|].
  destruct (isZoom _ _ _); [now right | now left].
Qed.

Lemma step_overlaid (pg : Page) (a : Action) :
  _nativeScrollbarIsOverlaid (self (fst (step pg a))) = _nativeScrollbarIsOverlaid (self pg).
Proof.
  destruct a as [l|l|ev]; cbn; try reflexivity.
  unfold dispatchResize. destruct (resizeListener pg) as [c|]; [|reflexivity].
  pose proof (onResize_frame (self pg) c ev) as H.
  destruct (onResize (self pg) c ev) as [[e' c'] fx]. cbn in *.
  destruct H as [-> | ->]; reflexivity.
Qed.

Lemma run_cons (pg : Page) (a : Action) (acts : list Action) :
  run pg (a :: acts) =
    (fst (run (fst (step pg a)) acts), snd (step pg a) ++ snd (run (fst (step pg a)) acts)).
Proof.
  cbn [run]. destruct (step pg a) as [pg1 fx1]. cbn [fst snd].
  destruct (run pg1 acts) as [pg2 fx2]. reflexivity.
Qed.

Lemma run_overlaid (acts : list Action) (pg : Page) :
  _nativeScrollbarIsOverlaid (self (fst (run pg acts))) = _nativeScrollbarIsOverlaid (self pg).
Proof.
  revert pg. induction acts as [|a acts IH]; intros pg; [reflexivity|].
  rewrite run_cons. cbn [fst]. rewrite IH. apply step_overlaid.
Qed.

Lemma construct_overlaid (p : Platform) : overlaid_iff_zero (self (fst (construct p))).
Proof. split; cbn; unfold flag_of_size; reflexivity. Qed.

Lemma run_no_handler (acts : list Action) (pg : Page) :
  resizeListener pg = None ->
  _nativeScrollbarSize (self (fst (run pg acts))) = _nativeScrollbarSize (self pg)
  /\ snd (run pg acts) = [].
Proof.
  revert pg. induction acts as [|a acts IH]; intros pg H; [now split|].
  rewrite run_cons. cbn [fst snd].
  assert (resizeListener (fst (step pg a)) = None
          /\ _nativeScrollbarSize (self (fst (step pg a))) = _nativeScrollbarSize (self pg)
          /\ snd (step pg a) = []) as (H1 & H2 & H3).
  { destruct a as [l|l|ev]; cbn; try now repeat split.
    unfold dispatchResize. rewrite H. now repeat split. }
  destruct (IH _ H1) as [IH1 IH2]. rewrite IH1, IH2, H2, H3. now split.
Qed.

Lemma call_in_notify (l : OnEnvironmentChanged) (s e : Environment) :
  Call l s ∈ notify e <-> l ∈ onChangedListener e /\ s = e.
Proof.
  unfold notify. rewrite list_elem_of_fmap. split.
  - intros (k & E & Hk). inversion E; subst. now split.
  - intros [Hl ->]. now exists l.
Qed.

Lemma call_in_probe (l : OnEnvironmentChanged) (s : Environment) (calls : list Effect) :
  Call l s ∈ [AppendChildren body envElm; RemoveElements envElm] ++ calls <-> Call l s ∈ calls.
Proof.
  cbn [app]. rewrite !elem_of_cons. split; [|tauto].
  intros [H|[H|H]]; [discriminate H | discriminate H | exact H].
Qed.

(** *** The claims *)

(** C1, as stated, fails on the code: on the classic page with listener
    [1], the zoom [zoom_in] makes the re-probe measure [0] on the x axis;
    afterwards [nativeScrollbarSize.x] is [0] while
    [nativeScrollbarIsOverlaid.x] is still [false]. *)
Lemma overlaid_flag_stale_after_zoom :
  ~ overlaid_iff_zero
      (self (fst (run Examples.classic_page [AddListener 1%nat; Resize Examples.zoom_in]))).
Proof.
  unfold overlaid_iff_zero, flag_of_size. intros [[_ H] _].
  assert (JS.strict_eq
            (x (_nativeScrollbarSize
                  (self (fst (run Examples.classic_page
                                [AddListener 1%nat; Resize Examples.zoom_in])))))
            0%float = true) as E by (vm_compute; reflexivity).
  apply H in E. vm_compute in E. discriminate E.
Qed.

(** C1, amended: at construction each overlay flag is [true] exactly when
    the measured scrollbar size of its axis is [0]; after any sequence of
    listener registrations and resize events the flags are still the ones
    of construction, so each is [true] exactly when the size measured at
    construction was [0] (a zoom-triggered re-probe replaces the size
    only). *)
Theorem overlaid_flags_are_those_of_construction (p : Platform) (acts : list Action) :
  let pg0 := fst (construct p) in
  let pg := fst (run pg0 acts) in
  overlaid_iff_zero (self pg0)
  /\ _nativeScrollbarIsOverlaid (self pg) = _nativeScrollbarIsOverlaid (self pg0)
  /\ flag_of_size (x (_nativeScrollbarIsOverlaid (self pg))) (x (_nativeScrollbarSize (self pg0)))
  /\ flag_of_size (y (_nativeScrollbarIsOverlaid (self pg))) (y (_nativeScrollbarSize (self pg0))).
Proof.
  intros pg0 pg.
  pose proof (construct_overlaid p) as [Hx Hy].
  pose proof (run_overlaid acts pg0) as Hrun.
  fold pg in Hrun. fold pg0 in Hx, Hy.
  split; [now split|]. split; [exact Hrun|].
  rewrite Hrun. now split.
Qed.

(** C2, as stated, fails on the code: from 1000x800 at ratio 1 to 1100x880
    at ratio 1.1 both percentage ratios are 110, so they differ by exactly
    0, which the claim calls not close; the handler re-probes all the
    same. *)
Lemma zoom_with_equal_ratios :
  existsb is_probe (snd (onResize Examples.listening Examples.classic_closure Examples.zoom_in))
    = true
  /\ ~ zoom_conditions (fun a b => ~ differ_by_0_or_1 a b) Examples.classic_closure
         (windowSize (window Examples.zoom_in)) (windowDPR (window Examples.zoom_in)).
Proof.
  split; [vm_compute; reflexivity|].
  intros (_ & H & _). apply H. left. vm_compute. reflexivity.
Qed.

(** C2, amended: for a resize event handled while at least one listener is
    registered, the handler classifies it as a zoom, and re-runs the
    measurement, if and only if the absolute pixel delta of each axis
    exceeds 2, the absolute values of the two rounded percentage ratios
    differ by exactly 0 or exactly 1, and the device pixel ratio differs
    from the recorded one while the recorded one is positive. *)
Theorem zoom_iff_three_conditions (e : Environment) (c : Closure) (ev : ResizeEvent) :
  onChangedListener e <> [] ->
  (isZoom c (windowSize (window ev)) (windowDPR (window ev)) = true
   <-> zoom_conditions differ_by_0_or_1 c (windowSize (window ev)) (windowDPR (window ev)))
  /\ (existsb is_probe (snd (onResize e c ev)) = true
      <-> zoom_conditions differ_by_0_or_1 c (windowSize (window ev)) (windowDPR (window ev))).
Proof.
  intros Hl. split; [apply isZoom_true|].
  rewrite <- isZoom_true.
  destruct (isZoom c (windowSize (window ev)) (windowDPR (window ev))) eqn:Hz.
  - rewrite (onResize_zoom _ _ _ Hl Hz). cbn. tauto.
  - destruct (same_size c (windowSize (window ev))) eqn:Hs.
    + rewrite (onResize_same_size _ _ _ Hs). cbn. tauto.
    + rewrite (onResize_no_zoom _ _ _ Hl Hs Hz). cbn. tauto.
Qed.

Lemma zoom_iff_three_conditions_witness :
  onChangedListener Examples.listening <> []
  /\ (existsb is_probe
        (snd (onResize Examples.listening Examples.classic_closure Examples.zoom_in)) = true
      <-> zoom_conditions differ_by_0_or_1 Examples.classic_closure
            (windowSize (window Examples.zoom_in)) (windowDPR (window Examples.zoom_in))).
Proof.
  split; [discriminate|].
  apply (zoom_iff_three_conditions Examples.listening Examples.classic_closure Examples.zoom_in).
  discriminate.
Defined.

(** C3: on a resize event classified as a zoom the measurement is re-run
    and the measurement element removed; the stored size is the new one;
    every registered listener is called, with the instance, exactly when
    the new size differs from the old one on the x or the y axis; and the
    instance a listener receives already holds the new size. *)
Theorem zoom_reprobes_and_notifies (e : Environment) (c : Closure) (ev : ResizeEvent) :
  onChangedListener e <> [] ->
  isZoom c (windowSize (window ev)) (windowDPR (window ev)) = true ->
  let old := _nativeScrollbarSize e in
  let new := fst (nativeScrollbarSize body envElm (layout ev)) in
  let e' := fst (fst (onResize e c ev)) in
  let fx := snd (onResize e c ev) in
  e' = set_nativeScrollbarSize e new
  /\ (exists calls, fx = AppendChildren body envElm :: RemoveElements envElm :: calls
                    /\ calls = if scrollbarSizeChanged old new
                               then map (fun l => Call l e') (onChangedListener e)
                               else [])
  /\ ((forall l, l ∈ onChangedListener e -> Call l e' ∈ fx)
      <-> (JS.strict_neq (x old) (x new) = true \/ JS.strict_neq (y old) (y new) = true))
  /\ (forall l s, Call l s ∈ fx ->
        l ∈ onChangedListener e /\ s = e' /\ _nativeScrollbarSize s = new).
Proof.
  intros Hl Hz old new e' fx. subst e' fx.
  rewrite (onResize_zoom _ _ _ Hl Hz). cbn [fst snd]. fold new. fold old.
  split; [reflexivity|]. split; [eexists; split; reflexivity|].
  assert (scrollbarSizeChanged old new = true
          <-> JS.strict_neq (x old) (x new) = true \/ JS.strict_neq (y old) (y new) = true) as Hc
    by (unfold scrollbarSizeChanged; apply orb_true_iff).
  rewrite <- Hc. split.
  - destruct (scrollbarSizeChanged old new).
    + split; [reflexivity|].
      intros _ l Hin. rewrite call_in_probe, call_in_notify. now split.
    + split; [|discriminate].
      intros H. destruct (onChangedListener e) as [|l ls] eqn:Els; [congruence|].
      specialize (H l (list_elem_of_here l ls)).
      rewrite call_in_probe in H. inversion H.
  - intros l s H. rewrite call_in_probe in H.
    destruct (scrollbarSizeChanged old new); [|inversion H].
    rewrite call_in_notify in H. destruct H as [H ->]. now repeat split.
Qed.

Lemma zoom_reprobes_and_notifies_witness :
  onChangedListener Examples.listening <> []
  /\ isZoom Examples.classic_closure (windowSize (window Examples.zoom_in))
       (windowDPR (window Examples.zoom_in)) = true
  /\ snd (onResize Examples.listening Examples.classic_closure Examples.zoom_in)
     = [AppendChildren body envElm; RemoveElements envElm;
        Call 1%nat (fst (fst (onResize Examples.listening Examples.classic_closure
                                Examples.zoom_in)))].
Proof.
  split; [discriminate|]. split; [vm_compute; reflexivity|].
  destruct (zoom_reprobes_and_notifies Examples.listening Examples.classic_closure
              Examples.zoom_in) as (_ & (calls & -> & ->) & _).
  - discriminate.
  - vm_compute. reflexivity.
  - vm_compute. reflexivity.
Defined.

(** C4: when the scrollbars measured at construction are overlaid on both
    axes no resize handler is registered, and whatever listeners are added
    or removed and whatever resize events follow, [nativeScrollbarSize]
    stays the one of construction and nothing is measured or notified. *)
Theorem overlaid_never_reprobes (p : Platform) (acts : list Action) :
  x (_nativeScrollbarIsOverlaid (self (fst (construct p)))) = true ->
  y (_nativeScrollbarIsOverlaid (self (fst (construct p)))) = true ->
  resizeListener (fst (construct p)) = None
  /\ _nativeScrollbarSize (self (fst (run (fst (construct p)) acts)))
     = _nativeScrollbarSize (self (fst (construct p)))
  /\ snd (run (fst (construct p)) acts) = [].
Proof.
  intros Hx Hy.
  assert (resizeListener (fst (construct p)) = None) as Hn.
  { cbn in Hx, Hy |- *. now rewrite Hx, Hy. }
  split; [exact Hn|]. now apply run_no_handler.
Qed.

Lemma overlaid_never_reprobes_witness :
  x (_nativeScrollbarIsOverlaid (self (fst (construct Examples.overlay)))) = true
  /\ y (_nativeScrollbarIsOverlaid (self (fst (construct Examples.overlay)))) = true
  /\ snd (run (fst (construct Examples.overlay))
            [AddListener 1%nat; Resize Examples.zoom_in]) = [].
Proof.
  split; [vm_compute; reflexivity|]. split; [vm_compute; reflexivity|].
  apply (overlaid_never_reprobes Examples.overlay [AddListener 1%nat; Resize Examples.zoom_in]);
    vm_compute; reflexivity.
Defined.

(** C5: a resize event that arrives while no listener is registered
    changes nothing: the instance with all its fields and the recorded
    window size and device pixel ratio are the same afterwards, and there
    is no effect (no measurement, no call of a listener). *)
Theorem resize_without_listeners_is_noop (pg : Page) (ev : ResizeEvent) :
  onChangedListener (self pg) = [] ->
  step pg (Resize ev) = (pg, []).
Proof.
  intros H. destruct pg as [e [c|]]; cbn in *; [|reflexivity].
  unfold dispatchResize. cbn. now rewrite (onResize_no_listener _ _ _ H).
Qed.

Lemma resize_without_listeners_is_noop_witness :
  onChangedListener (self Examples.classic_page) = []
  /\ step Examples.classic_page (Resize Examples.zoom_in) = (Examples.classic_page, []).
Proof.
  split; [reflexivity|].
  apply (resize_without_listeners_is_noop Examples.classic_page Examples.zoom_in).
  reflexivity.
Defined.

(** C6, as stated, fails on the code, at each of the two guards of the
    handler.  The classic page has a handler and no listener: after the
    resize event [zoom_in] the recorded baseline is still the one of
    construction, and neither its width nor its ratio is the event's.
    With listener [1] registered and the event [ratio_only], whose window
    size is the recorded one, the recorded ratio stays 1 while the event's
    is 2. *)
Lemma baseline_kept_without_listeners :
  (resizeListener (fst (step Examples.classic_page (Resize Examples.zoom_in)))
     = Some Examples.classic_closure
   /\ JS.strict_eq (w (size Examples.classic_closure))
        (w (windowSize (window Examples.zoom_in))) = false
   /\ JS.strict_eq (dpr Examples.classic_closure) (windowDPR (window Examples.zoom_in)) = false)
  /\ (snd (fst (onResize Examples.listening Examples.classic_closure Examples.ratio_only))
        = Examples.classic_closure
      /\ JS.strict_eq (dpr Examples.classic_closure)
           (windowDPR (window Examples.ratio_only)) = false).
Proof. repeat split; vm_compute; reflexivity. Qed.

(** C6, amended: on every resize event handled while at least one listener
    is registered and whose window size differs from the recorded one on
    some axis, the recorded window size and device pixel ratio become the
    event's, whether or not the event is classified as a zoom, so the
    deltas of the next event are taken against this event. *)
Theorem baseline_follows_handled_events (e : Environment) (c : Closure) (ev : ResizeEvent) :
  onChangedListener e <> [] ->
  same_size c (windowSize (window ev)) = false ->
  let c' := snd (fst (onResize e c ev)) in
  c' = {| size := windowSize (window ev); dpr := windowDPR (window ev) |}
  /\ forall sizeNext,
       deltaSize c' sizeNext
       = {| w := PrimFloat.sub (w sizeNext) (w (windowSize (window ev)));
            h := PrimFloat.sub (h sizeNext) (h (windowSize (window ev))) |}.
Proof.
  intros Hl Hs c'.
  assert (c' = {| size := windowSize (window ev); dpr := windowDPR (window ev) |}) as ->.
  { subst c'.
    destruct (isZoom c (windowSize (window ev)) (windowDPR (window ev))) eqn:Hz.
    - now rewrite (onResize_zoom _ _ _ Hl Hz).
    - now rewrite (onResize_no_zoom _ _ _ Hl Hs Hz). }
  split; reflexivity.
Qed.

Lemma baseline_follows_handled_events_witness :
  onChangedListener Examples.listening <> []
  /\ same_size Examples.classic_closure (windowSize (window Examples.zoom_in)) = false
  /\ snd (fst (onResize Examples.listening Examples.classic_closure Examples.zoom_in))
     = {| size := windowSize (window Examples.zoom_in);
          dpr := windowDPR (window Examples.zoom_in) |}.
Proof.
  split; [discriminate|]. split; [vm_compute; reflexivity|].
  apply (baseline_follows_handled_events Examples.listening Examples.classic_closure
           Examples.zoom_in); [discriminate | vm_compute; reflexivity].
Defined.

(** C10: a resize event handled while a listener is registered and whose
    window size equals the recorded one on both axes ends the handler at
    once: nothing is measured, no listener is called, and the recorded
    device pixel ratio stays, whatever the event's ratio is. *)
Theorem same_size_returns_early (e : Environment) (c : Closure) (ev : ResizeEvent) :
  onChangedListener e <> [] ->
  JS.strict_eq (w (deltaSize c (windowSize (window ev)))) 0%float = true ->
  JS.strict_eq (h (deltaSize c (windowSize (window ev)))) 0%float = true ->
  onResize e c ev = (e, c, []).
Proof.
  intros _ Hw Hh. apply onResize_same_size. unfold same_size. now rewrite Hw, Hh.
Qed.

Lemma same_size_returns_early_witness :
  onChangedListener Examples.listening <> []
  /\ JS.strict_neq (windowDPR (window Examples.ratio_only)) (dpr Examples.classic_closure) = true
  /\ onResize Examples.listening Examples.classic_closure Examples.ratio_only
     = (Examples.listening, Examples.classic_closure, []).
Proof.
  split; [discriminate|]. split; [vm_compute; reflexivity|].
  apply (same_size_returns_early Examples.listening Examples.classic_closure Examples.ratio_only);
    [discriminate | vm_compute; reflexivity | vm_compute; reflexivity].
Defined.

(** C7, as stated, fails on the code: [2^53 + 2] and [2^53 + 4] are
    numbers whose absolute values differ by 2, and [diffBiggerThanOne]
    returns [false] for them, because the sum [2^53 + 2 + 1] is rounded to
    [2^53 + 4].  Fractions fail as well: the numbers written [0.1] and
    [1.1] are [7205759403792794 * 2^-56] and [4953959590107546 * 2^-52],
    which do not differ by 1, and [0.1 + 1] is rounded to [1.1]. *)
Lemma diffBiggerThanOne_rounds_large_sums :
  (JS.of_Z 9007199254740994 = 9007199254740994%float
   /\ JS.of_Z 9007199254740996 = 9007199254740996%float
   /\ diffBiggerThanOne (JS.of_Z 9007199254740994) (JS.of_Z 9007199254740996) = false
   /\ ~ integers_differ_by_0_or_1 9007199254740994 9007199254740996)
  /\ (diffBiggerThanOne 0.1%float 1.1%float = false
      /\ Prim2SF 0.1%float = S754_finite false 7205759403792794 (-56)
      /\ Prim2SF 1.1%float = S754_finite false 4953959590107546 (-52)
      /\ 7205759403792794 + 1 * 2 ^ 56 <> 4953959590107546 * 2 ^ 4).
Proof.
  repeat split; try (vm_compute; reflexivity).
  - unfold integers_differ_by_0_or_1. lia.
  - vm_compute. discriminate.
Qed.

(** C7, amended: for all integer-valued numbers [a] and [b] of magnitude
    below [2^53], [diffBiggerThanOne(a, b)] returns [false] exactly when
    the absolute values of [a] and [b] are equal or differ by exactly 1
    in either direction, and [true] for every other difference. *)
Theorem diffBiggerThanOne_on_integers (a b : Z) :
  Z.abs a < 2 ^ 53 -> Z.abs b < 2 ^ 53 ->
  diffBiggerThanOne (JS.of_Z a) (JS.of_Z b) = false <-> integers_differ_by_0_or_1 a b.
Proof.
  intros Ha Hb. unfold diffBiggerThanOne, JS.strict_eq, JS.abs, integers_differ_by_0_or_1.
  rewrite !FloatAxioms.eqb_spec, FloatAxioms.add_spec, FloatAxioms.sub_spec.
  rewrite !NumberFacts.Prim2SF_abs_of_Z, NumberFacts.Prim2SF_one by assumption.
  rewrite NumberFacts.cn_eqb, NumberFacts.add_one_eqb, NumberFacts.sub_one_eqb by lia.
  rewrite negb_false_iff, !orb_true_iff, !Z.eqb_eq. tauto.
Qed.

Lemma diffBiggerThanOne_on_integers_witness :
  Z.abs 110 < 2 ^ 53 /\ Z.abs (-111) < 2 ^ 53
  /\ (diffBiggerThanOne (JS.of_Z 110) (JS.of_Z (-111)) = false
      <-> integers_differ_by_0_or_1 110 (-111)).
Proof.
  split; [reflexivity|]. split; [reflexivity|].
  apply (diffBiggerThanOne_on_integers 110 (-111)); reflexivity.
Defined.

(** *** More on the handler *)

Lemma onResize_cases (e : Environment) (c : Closure) (ev : ResizeEvent) :
  (onResize e c ev = (e, c, [])
   /\ (onChangedListener e = [] \/ same_size c (windowSize (window ev)) = true))
  \/ (onChangedListener e <> []
      /\ same_size c (windowSize (window ev)) = false
      /\ snd (fst (onResize e c ev))
         = {| size := windowSize (window ev); dpr := windowDPR (window ev) |}
      /\ onChangedListener (fst (fst (onResize e c ev))) = onChangedListener e).
Proof.
  destruct (decide (onChangedListener e = [])) as [Hl|Hl].
  - left. split; [now apply onResize_no_listener | now left].
  - destruct (same_size c (windowSize (window ev))) eqn:Hs.
    + left. split; [now apply onResize_same_size | now right].
    + right. split; [exact Hl|]. split; [reflexivity|].
      destruct (isZoom c (windowSize (window ev)) (windowDPR (window ev))) eqn:Hz.
      * rewrite (onResize_zoom _ _ _ Hl Hz). now split.
      * rewrite (onResize_no_zoom _ _ _ Hl Hs Hz). now split.
Qed.

Lemma onResize_listeners (e : Environment) (c : Closure) (ev : ResizeEvent) :
  onChangedListener (fst (fst (onResize e c ev))) = onChangedListener e.
Proof.
  destruct (onResize_frame e c ev) as [H|H]; rewrite H; reflexivity.
Qed.

Lemma onResize_without_zoom (e : Environment) (c : Closure) (ev : ResizeEvent) :
  dprChanged c (windowDPR (window ev)) = false ->
  fst (fst (onResize e c ev)) = e
  /\ snd (onResize e c ev) = []
  /\ (snd (fst (onResize e c ev)) = c
      \/ dpr (snd (fst (onResize e c ev))) = windowDPR (window ev)).
Proof.
  intros Hd.
  assert (isZoom c (windowSize (window ev)) (windowDPR (window ev)) = false) as Hz
    by (unfold isZoom; rewrite Hd; apply andb_false_r).
  destruct (onResize_cases e c ev) as [[H _] | (Hl & Hs & _)].
  - rewrite H. cbn. tauto.
  - rewrite (onResize_no_zoom _ _ _ Hl Hs Hz). cbn. tauto.
Qed.

(** A run in which no event can change the recorded ratio, in the sense of
    the handler, measures nothing and calls nobody. *)
Lemma run_without_zoom (P : JS.number -> Prop) :
  (forall k k', P k -> P k' -> JS.strict_neq k' k && JS.gt k 0%float = false) ->
  forall (acts : list Action) (pg : Page),
    (forall c, resizeListener pg = Some c -> P (dpr c)) ->
    (forall ev, Resize ev ∈ acts -> P (windowDPR (window ev))) ->
    _nativeScrollbarSize (self (fst (run pg acts))) = _nativeScrollbarSize (self pg)
    /\ snd (run pg acts) = [].
Proof.
  intros HP. induction acts as [|a acts IH]; intros pg Hc Hev; [now split|].
  rewrite run_cons. cbn [fst snd].
  assert ((forall c, resizeListener (fst (step pg a)) = Some c -> P (dpr c))
          /\ _nativeScrollbarSize (self (fst (step pg a))) = _nativeScrollbarSize (self pg)
          /\ snd (step pg a) = []) as (H1 & H2 & H3).
  { destruct a as [l|l|ev]; cbn; try now repeat split.
    unfold dispatchResize. destruct (resizeListener pg) as [c|] eqn:E.
    2: { cbn. rewrite E. now repeat split. }
    assert (P (windowDPR (window ev))) as Hk by (apply Hev, list_elem_of_here).
    destruct (onResize_without_zoom (self pg) c ev) as (He & Hfx & Hc').
    { unfold dprChanged. apply HP; [now apply Hc | exact Hk]. }
    destruct (onResize (self pg) c ev) as [[e1 c1] fx]. cbn in He, Hfx, Hc' |- *. subst e1 fx.
    repeat split. intros c2 E2. injection E2 as <-.
    destruct Hc' as [-> | ->]; [now apply Hc | exact Hk]. }
  destruct (IH (fst (step pg a)) H1) as [IH1 IH2].
  { intros ev Hin. apply Hev. now apply list_elem_of_further. }
  rewrite IH1, IH2, H2, H3. now split.
Qed.

Lemma windowDPR_without_ratio (win : Window) :
  devicePixelRatio win = None -> deviceXDPI win = None ->
  JS.strict_eq (windowDPR win) 0%float = true.
Proof.
  intros H1 H2. unfold windowDPR. rewrite H1, H2. cbn [JS.or_else].
  apply NumberFacts.zero_div_truthy.
  destruct (logicalXDPI win) as [v|]; cbn [JS.or_else]; [|vm_compute; reflexivity].
  destruct (JS.truthy v) eqn:E; [exact E | vm_compute; reflexivity].
Qed.

Lemma construct_closure (p : Platform) (c : Closure) :
  resizeListener (fst (construct p)) = Some c ->
  c = {| size := windowSize (initialWindow p); dpr := windowDPR (initialWindow p) |}.
Proof.
  cbn. destruct (negb _ || negb _); [|discriminate]. intros E. now injection E as <-.
Qed.

Lemma step_listeners_nodup (pg : Page) (a : Action) :
  NoDup (onChangedListener (self pg)) -> NoDup (onChangedListener (self (fst (step pg a)))).
Proof.
  intros H. destruct a as [l|l|ev]; cbn.
  - unfold Set_add. destruct (decide (l ∈ onChangedListener (self pg))) as [Hin|Hin]; [exact H|].
    apply NoDup_app. split; [exact H|]. split; [|apply NoDup_singleton].
    intros x Hx Hx'. apply list_elem_of_singleton in Hx'. now subst.
  - unfold Set_delete. now apply NoDup_filter.
  - unfold dispatchResize. destruct (resizeListener pg) as [c|]; [|exact H].
    pose proof (onResize_listeners (self pg) c ev) as Hl.
    destruct (onResize (self pg) c ev) as [[e1 c1] fx]. cbn in Hl |- *. now rewrite Hl.
Qed.

Lemma run_listeners_nodup (acts : list Action) (pg : Page) :
  NoDup (onChangedListener (self pg)) -> NoDup (onChangedListener (self (fst (run pg acts)))).
Proof.
  revert pg. induction acts as [|a acts IH]; intros pg H; [exact H|].
  rewrite run_cons. cbn [fst]. apply IH. now apply step_listeners_nodup.
Qed.

Lemma called_notify (e : Environment) : called (notify e) = onChangedListener e.
Proof.
  unfold called, notify. induction (onChangedListener e) as [|l ls IH]; [reflexivity|].
  cbn. now rewrite IH.
Qed.

Lemma called_probe (calls : list Effect) :
  called ([AppendChildren body envElm; RemoveElements envElm] ++ calls) = called calls.
Proof. reflexivity. Qed.

Lemma step_calls_registered (pg : Page) (a : Action) (l : OnEnvironmentChanged) (s : Environment) :
  Call l s ∈ snd (step pg a) -> l ∈ onChangedListener (self pg).
Proof.
  destruct a as [k|k|ev]; cbn; [intros H; inversion H | intros H; inversion H |].
  unfold dispatchResize. destruct (resizeListener pg) as [c|]; [|intros H; inversion H].
  destruct (onResize_cases (self pg) c ev) as [[E _] | (Hl & Hs & _)].
  - rewrite E. cbn. intros H. inversion H.
  - destruct (isZoom c (windowSize (window ev)) (windowDPR (window ev))) eqn:Hz.
    + rewrite (onResize_zoom _ _ _ Hl Hz). cbn [snd]. rewrite call_in_probe.
      destruct (scrollbarSizeChanged _ _); [|intros H; inversion H].
      rewrite call_in_notify. now intros [H _].
    + rewrite (onResize_no_zoom _ _ _ Hl Hs Hz). cbn. intros H. inversion H.
Qed.

Lemma step_listeners (pg : Page) (a : Action) (l : OnEnvironmentChanged) :
  l ∈ onChangedListener (self (fst (step pg a))) ->
  l ∈ onChangedListener (self pg) \/ a = AddListener l.
Proof.
  destruct a as [k|k|ev]; cbn.
  - unfold Set_add. destruct (decide (k ∈ onChangedListener (self pg))); [tauto|].
    rewrite elem_of_app, list_elem_of_singleton. intros [H | ->]; tauto.
  - unfold Set_delete. rewrite list_elem_of_filter. tauto.
  - unfold dispatchResize. destruct (resizeListener pg) as [c|]; [|tauto].
    pose proof (onResize_listeners (self pg) c ev) as Hl.
    destruct (onResize (self pg) c ev) as [[e1 c1] fx]. cbn in Hl |- *. rewrite Hl. tauto.
Qed.

Lemma run_calls_registered (acts : list Action) (pg : Page)
  (l : OnEnvironmentChanged) (s : Environment) :
  Call l s ∈ snd (run pg acts) -> l ∈ onChangedListener (self pg) \/ AddListener l ∈ acts.
Proof.
  revert pg. induction acts as [|a acts IH]; intros pg H; [inversion H|].
  rewrite run_cons in H. cbn [snd] in H. apply elem_of_app in H as [H|H].
  - left. now apply (step_calls_registered pg a l s).
  - apply IH in H as [H|H].
    + apply step_listeners in H as [H | ->]; [now left | right; apply list_elem_of_here].
    + right. now apply list_elem_of_further.
Qed.

Lemma step_detections (pg : Page) (a : Action) :
  let e := self pg in
  let e' := self (fst (step pg a)) in
  _autoUpdateLoop e' = _autoUpdateLoop e
  /\ _nativeScrollbarStyling e' = _nativeScrollbarStyling e
  /\ _rtlScrollBehavior e' = _rtlScrollBehavior e
  /\ _supportPassiveEvents e' = _supportPassiveEvents e
  /\ _supportResizeObserver e' = _supportResizeObserver e.
Proof.
  destruct a as [l|l|ev]; cbn; try now repeat split.
  unfold dispatchResize. destruct (resizeListener pg) as [c|]; [|now repeat split].
  pose proof (onResize_frame (self pg) c ev) as H.
  destruct (onResize (self pg) c ev) as [[e1 c1] fx]. cbn in H |- *.
  destruct H as [-> | ->]; now repeat split.
Qed.

(** *** Further properties of the environment *)

(** X1: a resize event that reports the window size of the event handled
    just before it does nothing: once an event has been handled (or
    ignored), the same event again leaves the instance and the recorded
    size and ratio as they are and has no effect, for a window size that
    is a finite number on both axes. *)
Theorem repeated_event_is_ignored (pg : Page) (ev : ResizeEvent) :
  JS.isFinite (w (windowSize (window ev))) = true ->
  JS.isFinite (h (windowSize (window ev))) = true ->
  step (fst (step pg (Resize ev))) (Resize ev) = (fst (step pg (Resize ev)), []).
Proof.
  intros Hw Hh. cbn [step]. unfold dispatchResize at 2 3.
  destruct (resizeListener pg) as [c|] eqn:E.
  - destruct (onResize_cases (self pg) c ev) as [[H _] | (Hl & Hs & Hc & Hls)].
    + rewrite H. cbn. rewrite H. reflexivity.
    + destruct (onResize (self pg) c ev) as [[e1 c1] fx]. cbn in Hc, Hls |- *. subst c1.
      rewrite onResize_same_size; [reflexivity|].
      unfold same_size, deltaSize. cbn.
      now rewrite !NumberFacts.sub_diag.
  - unfold dispatchResize. cbn. rewrite E. reflexivity.
Qed.

Lemma repeated_event_is_ignored_witness :
  JS.isFinite (w (windowSize (window Examples.zoom_in))) = true
  /\ JS.isFinite (h (windowSize (window Examples.zoom_in))) = true
  /\ snd (step Examples.listening_page (Resize Examples.zoom_in)) <> []
  /\ step (fst (step Examples.listening_page (Resize Examples.zoom_in)))
       (Resize Examples.zoom_in)
     = (fst (step Examples.listening_page (Resize Examples.zoom_in)), []).
Proof.
  split; [vm_compute; reflexivity|]. split; [vm_compute; reflexivity|].
  split; [vm_compute; discriminate|].
  apply (repeated_event_is_ignored Examples.listening_page Examples.zoom_in);
    vm_compute; reflexivity.
Defined.

(** X2: resizing the window at an unchanged device pixel ratio is never a
    zoom.  If every resize event of a run reports the ratio the window had
    at construction, then, whatever the sizes and whatever listeners are
    added or removed, the scrollbar size is never measured again and no
    listener is called. *)
Theorem constant_ratio_never_reprobes (p : Platform) (acts : list Action) :
  (forall ev, Resize ev ∈ acts -> windowDPR (window ev) = windowDPR (initialWindow p)) ->
  _nativeScrollbarSize (self (fst (run (fst (construct p)) acts)))
  = _nativeScrollbarSize (self (fst (construct p)))
  /\ snd (run (fst (construct p)) acts) = [].
Proof.
  intros Hev.
  apply (run_without_zoom (fun k => k = windowDPR (initialWindow p))).
  - intros k k' -> ->. apply NumberFacts.same_number_not_changed.
  - intros c Hc. apply construct_closure in Hc. now subst c.
  - exact Hev.
Qed.

Lemma constant_ratio_never_reprobes_witness :
  (forall ev, Resize ev ∈ [AddListener 1%nat; Resize Examples.grow] ->
              windowDPR (window ev) = windowDPR (initialWindow Examples.classic))
  /\ resizeListener (fst (construct Examples.classic)) <> None
  /\ deltaIsBigger Examples.classic_closure (windowSize (window Examples.grow))
     && difference Examples.classic_closure (windowSize (window Examples.grow)) = true
  /\ snd (run (fst (construct Examples.classic)) [AddListener 1%nat; Resize Examples.grow]) = [].
Proof.
  assert (forall ev, Resize ev ∈ [AddListener 1%nat; Resize Examples.grow] ->
                     windowDPR (window ev) = windowDPR (initialWindow Examples.classic)) as H.
  { intros ev Hin. rewrite !elem_of_cons in Hin.
    destruct Hin as [Hin|[Hin|Hin]]; [discriminate Hin | | inversion Hin].
    injection Hin as ->. reflexivity. }
  split; [exact H|]. split; [vm_compute; discriminate|]. split; [vm_compute; reflexivity|].
  apply (constant_ratio_never_reprobes Examples.classic
           [AddListener 1%nat; Resize Examples.grow] H).
Defined.

(** X3: in a browser that defines neither [window.devicePixelRatio] nor
    [screen.deviceXDPI], [windowDPR] is [0] at construction and at every
    event, the recorded ratio is never above [0], and so no resize event
    is classified as a zoom: the scrollbar size is never measured again
    and no listener is called. *)
Theorem no_pixel_ratio_never_reprobes (p : Platform) (acts : list Action) :
  devicePixelRatio (initialWindow p) = None ->
  deviceXDPI (initialWindow p) = None ->
  (forall ev, Resize ev ∈ acts ->
              devicePixelRatio (window ev) = None /\ deviceXDPI (window ev) = None) ->
  JS.strict_eq (windowDPR (initialWindow p)) 0%float = true
  /\ _nativeScrollbarSize (self (fst (run (fst (construct p)) acts)))
     = _nativeScrollbarSize (self (fst (construct p)))
  /\ snd (run (fst (construct p)) acts) = [].
Proof.
  intros H1 H2 Hev. split; [now apply windowDPR_without_ratio|].
  apply (run_without_zoom (fun k => JS.strict_eq k 0%float = true)).
  - intros k k' Hk _. rewrite (NumberFacts.zero_not_positive k Hk). apply andb_false_r.
  - intros c Hc. apply construct_closure in Hc. subst c. cbn.
    now apply windowDPR_without_ratio.
  - intros ev Hin. destruct (Hev ev Hin). now apply windowDPR_without_ratio.
Qed.

Lemma no_pixel_ratio_never_reprobes_witness :
  resizeListener (fst (construct Examples.legacy)) <> None
  /\ same_size {| size := windowSize (initialWindow Examples.legacy);
                  dpr := windowDPR (initialWindow Examples.legacy) |}
       (windowSize (window Examples.legacy_zoom)) = false
  /\ snd (run (fst (construct Examples.legacy))
            [AddListener 1%nat; Resize Examples.legacy_zoom]) = [].
Proof.
  split; [vm_compute; discriminate|]. split; [vm_compute; reflexivity|].
  apply (no_pixel_ratio_never_reprobes Examples.legacy
           [AddListener 1%nat; Resize Examples.legacy_zoom]); [reflexivity | reflexivity |].
  intros ev Hin. rewrite !elem_of_cons in Hin.
  destruct Hin as [Hin|[Hin|Hin]]; [discriminate Hin | | inversion Hin].
  injection Hin as ->. split; reflexivity.
Defined.

(** X4: the listener set holds a function once however often it is added.
    After any sequence of registrations, removals and resize events no
    listener is registered twice, and a resize event either calls no
    listener or calls every registered listener exactly once, in the order
    of registration. *)
Theorem listeners_called_once_in_order (p : Platform) (acts : list Action) (ev : ResizeEvent) :
  let pg := fst (run (fst (construct p)) acts) in
  NoDup (onChangedListener (self pg))
  /\ (called (snd (step pg (Resize ev))) = []
      \/ called (snd (step pg (Resize ev))) = onChangedListener (self pg)).
Proof.
  intros pg. split.
  - apply run_listeners_nodup. cbn. constructor.
  - cbn [step]. unfold dispatchResize. destruct (resizeListener pg) as [c|]; [|now left].
    destruct (onResize_cases (self pg) c ev) as [[E _] | (Hl & Hs & _)].
    + rewrite E. now left.
    + destruct (isZoom c (windowSize (window ev)) (windowDPR (window ev))) eqn:Hz.
      * rewrite (onResize_zoom _ _ _ Hl Hz). cbn [snd].
        destruct (scrollbarSizeChanged _ _); [|now left].
        right. now rewrite called_probe, called_notify.
      * rewrite (onResize_no_zoom _ _ _ Hl Hs Hz). now left.
Qed.

(** X5: a listener that was removed is not called again: in whatever
    follows [removeListener(l)], as long as [l] is not added anew, no
    resize event calls [l]. *)
Theorem removed_listener_is_not_called (pg : Page) (l : OnEnvironmentChanged)
  (acts : list Action) (s : Environment) :
  AddListener l ∉ acts ->
  Call l s ∉ snd (run (fst (step pg (RemoveListener l))) acts).
Proof.
  intros Hadd Hcall. apply run_calls_registered in Hcall as [H|H]; [|tauto].
  cbn in H. unfold Set_delete in H. apply list_elem_of_filter in H. tauto.
Qed.

Lemma removed_listener_is_not_called_witness :
  (AddListener 1%nat ∉ [AddListener 2%nat; Resize Examples.zoom_in])
  /\ called (snd (run (fst (step Examples.listening_page (RemoveListener 1%nat)))
                    [AddListener 2%nat; Resize Examples.zoom_in])) = [2%nat]
  /\ (forall s, Call 1%nat s ∉ snd (run (fst (step Examples.listening_page (RemoveListener 1%nat)))
                                      [AddListener 2%nat; Resize Examples.zoom_in])).
Proof.
  assert (AddListener 1%nat ∉ [AddListener 2%nat; Resize Examples.zoom_in]) as H.
  { rewrite !elem_of_cons. intros [E|[E|E]]; [discriminate E | discriminate E | inversion E]. }
  split; [exact H|]. split; [vm_compute; reflexivity|].
  intros s.
  apply (removed_listener_is_not_called Examples.listening_page 1%nat
           [AddListener 2%nat; Resize Examples.zoom_in] s H).
Defined.

(** X6: the detections of the constructor are made once.  Whatever
    listeners are added or removed and whatever resize events follow, the
    fields [_autoUpdateLoop], [_nativeScrollbarStyling],
    [_rtlScrollBehavior], [_supportPassiveEvents] and
    [_supportResizeObserver] keep their values; a zoom replaces the
    scrollbar size only. *)
Theorem detections_are_made_once (pg : Page) (acts : list Action) :
  let e := self pg in
  let e' := self (fst (run pg acts)) in
  _autoUpdateLoop e' = _autoUpdateLoop e
  /\ _nativeScrollbarStyling e' = _nativeScrollbarStyling e
  /\ _rtlScrollBehavior e' = _rtlScrollBehavior e
  /\ _supportPassiveEvents e' = _supportPassiveEvents e
  /\ _supportResizeObserver e' = _supportResizeObserver e.
Proof.
  revert pg. induction acts as [|a acts IH]; intros pg; [now repeat split|].
  cbn zeta. rewrite run_cons. cbn [fst].
  destruct (IH (fst (step pg a))) as (I1 & I2 & I3 & I4 & I5).
  destruct (step_detections pg a) as (S1 & S2 & S3 & S4 & S5).
  rewrite I1, I2, I3, I4, I5. now repeat split.
Qed.

(** [diffBiggerThanOne] on integers below [2^53], as a test on the
    integers. *)
Lemma diffBiggerThanOne_of_Z (a b : Z) :
  Z.abs a < 2 ^ 53 -> Z.abs b < 2 ^ 53 ->
  diffBiggerThanOne (JS.of_Z a) (JS.of_Z b)
  = negb ((Z.abs a =? Z.abs b) || (Z.abs a + 1 =? Z.abs b) || (Z.abs a - 1 =? Z.abs b)).
Proof.
  intros Ha Hb. unfold diffBiggerThanOne, JS.strict_eq, JS.abs.
  rewrite !FloatAxioms.eqb_spec, FloatAxioms.add_spec, FloatAxioms.sub_spec.
  rewrite !NumberFacts.Prim2SF_abs_of_Z, NumberFacts.Prim2SF_one by assumption.
  now rewrite NumberFacts.cn_eqb, NumberFacts.add_one_eqb, NumberFacts.sub_one_eqb by lia.
Qed.

(** X7: on integers of magnitude below [2^53], [diffBiggerThanOne] does
    not depend on the order of its arguments nor on their signs: swapping
    the two numbers, or negating either, gives the same answer.  (Beyond
    [2^53] the order matters: [2^53 + 2] and [2^53 + 4] are not told apart
    in this order and are in the other.) *)
Theorem diffBiggerThanOne_is_symmetric (a b : Z) :
  Z.abs a < 2 ^ 53 -> Z.abs b < 2 ^ 53 ->
  diffBiggerThanOne (JS.of_Z b) (JS.of_Z a) = diffBiggerThanOne (JS.of_Z a) (JS.of_Z b)
  /\ diffBiggerThanOne (JS.of_Z (- a)) (JS.of_Z b) = diffBiggerThanOne (JS.of_Z a) (JS.of_Z b)
  /\ diffBiggerThanOne (JS.of_Z a) (JS.of_Z (- b)) = diffBiggerThanOne (JS.of_Z a) (JS.of_Z b).
Proof.
  intros Ha Hb.
  rewrite !diffBiggerThanOne_of_Z by (rewrite ?Z.abs_opp; assumption).
  rewrite !Z.abs_opp. split; [|split; reflexivity].
  f_equal.
  destruct (Z.eqb_spec (Z.abs a) (Z.abs b)), (Z.eqb_spec (Z.abs a + 1) (Z.abs b)),
    (Z.eqb_spec (Z.abs a - 1) (Z.abs b)), (Z.eqb_spec (Z.abs b) (Z.abs a)),
    (Z.eqb_spec (Z.abs b + 1) (Z.abs a)), (Z.eqb_spec (Z.abs b - 1) (Z.abs a));
    try reflexivity; lia.
Qed.

Lemma diffBiggerThanOne_is_symmetric_witness :
  (diffBiggerThanOne (JS.of_Z 111) (JS.of_Z (-110)) = diffBiggerThanOne (JS.of_Z (-110)) (JS.of_Z 111)
   /\ diffBiggerThanOne (JS.of_Z (-110)) (JS.of_Z 111) = false)
  /\ (diffBiggerThanOne (JS.of_Z 9007199254740994) (JS.of_Z 9007199254740996) = false
      /\ diffBiggerThanOne (JS.of_Z 9007199254740996) (JS.of_Z 9007199254740994) = true).
Proof.
  split; [|split; vm_compute; reflexivity].
  split; [|vm_compute; reflexivity].
  apply (diffBiggerThanOne_is_symmetric (-110) 111); reflexivity.
Defined.

End EnvironmentFacts.

(* ===================================================================== *)
(** ** Properties of the node tree *)
(* ===================================================================== *)

Module DomFacts.
Import Dom.

(** *** Lists of siblings *)

Lemma filter_ne_id (x : Node) (l : list Node) :
  x ∉ l -> filter (fun c => c ≠ x) l = l.
Proof.
  induction l as [|a l IH]; intros H; [reflexivity|].
  apply not_elem_of_cons in H as [Ha Hl].
  rewrite filter_cons_True by congruence. now rewrite IH.
Qed.

Lemma filter_notin_snoc (done : list Node) (x : Node) (l : list Node) :
  filter (fun c => c ∉ done ++ [x]) l = filter (fun c => c ≠ x) (filter (fun c => c ∉ done) l).
Proof.
  induction l as [|a l IH]; [reflexivity|].
  destruct (decide (a ∈ done)) as [Hd|Hd].
  - rewrite (filter_cons_False _ a) by (rewrite elem_of_app; tauto).
    rewrite (filter_cons_False (fun c => c ∉ done) a) by tauto. exact IH.
  - rewrite (filter_cons_True (fun c => c ∉ done) a) by exact Hd.
    destruct (decide (a = x)) as [->|Hx].
    + rewrite (filter_cons_False _ x) by (rewrite elem_of_app, list_elem_of_singleton; tauto).
      rewrite (filter_cons_False (fun c => c ≠ x) x) by tauto. exact IH.
    + rewrite (filter_cons_True _ a)
        by (rewrite elem_of_app, list_elem_of_singleton; tauto).
      rewrite (filter_cons_True (fun c => c ≠ x) a) by exact Hx. now rewrite IH.
Qed.

Lemma filter_notin_nil (l : list Node) : filter (fun c => c ∉ @nil Node) l = l.
Proof.
  induction l as [|a l IH]; [reflexivity|].
  rewrite filter_cons_True by apply not_elem_of_nil. now rewrite IH.
Qed.

Lemma before_in_app (x : Node) (l1 l2 : list Node) :
  x ∉ l1 -> before_in x (l1 ++ x :: l2) = last l1.
Proof.
  induction l1 as [|a l1 IH]; intros H.
  - cbn. now rewrite decide_True.
  - apply not_elem_of_cons in H as [Ha Hl]. cbn [app before_in].
    rewrite decide_False by congruence.
    destruct l1 as [|b l1].
    + cbn. now rewrite decide_True.
    + specialize (IH Hl). cbn [app] in IH |- *.
      apply not_elem_of_cons in Hl as [Hb Hl'].
      rewrite decide_False by congruence.
      rewrite IH. reflexivity.
Qed.

Lemma after_in_app (x : Node) (l1 l2 : list Node) :
  x ∉ l1 -> after_in x (l1 ++ x :: l2) = head l2.
Proof.
  induction l1 as [|a l1 IH]; intros H.
  - cbn. now rewrite decide_True.
  - apply not_elem_of_cons in H as [Ha Hl]. cbn [app after_in].
    rewrite decide_False by congruence. now apply IH.
Qed.

Lemma insert_before_in_app (xs : list Node) (r : Node) (l1 l2 : list Node) :
  r ∉ l1 -> insert_before_in xs r (l1 ++ r :: l2) = l1 ++ xs ++ r :: l2.
Proof.
  induction l1 as [|a l1 IH]; intros H.
  - cbn. now rewrite decide_True.
  - apply not_elem_of_cons in H as [Ha Hl]. cbn [app insert_before_in].
    rewrite decide_False by congruence. now rewrite IH.
Qed.

(** *** Reading a store after an update *)

Lemma lookup_set_parent (x : Node) (q : option Node) (d : Store) (y : Node) :
  set_parent x q d !! y =
    if decide (x = y)
    then (fun nd => mkNodeData (nd_fragment nd) q (nd_children nd) (nd_indexed nd)) <$> d !! x
    else d !! y.
Proof. unfold set_parent. apply lookup_alter. Qed.

Lemma lookup_set_children (x : Node) (l : list Node) (d : Store) (y : Node) :
  set_children x l d !! y =
    if decide (x = y)
    then (fun nd => mkNodeData (nd_fragment nd) (nd_parent nd) l (nd_indexed nd)) <$> d !! x
    else d !! y.
Proof. unfold set_children. apply lookup_alter. Qed.

Lemma childNodes_set_parent (x : Node) (q : option Node) (d : Store) (y : Node) :
  childNodes (set_parent x q d) y = childNodes d y.
Proof.
  unfold childNodes. rewrite lookup_set_parent.
  destruct (decide (x = y)) as [->|]; [|reflexivity].
  now destruct (d !! y).
Qed.


Lemma childNodes_set_children (x : Node) (l : list Node) (d : Store) (y : Node) :
  childNodes (set_children x l d) y =
    if decide (x = y) then (match d !! x with Some _ => l | None => [] end) else childNodes d y.
Proof.
  unfold childNodes. rewrite lookup_set_children.
  destruct (decide (x = y)) as [->|]; [|reflexivity].
  now destruct (d !! y).
Qed.

Lemma parentNode_set_parent (x : Node) (q : option Node) (d : Store) (y : Node) :
  parentNode (set_parent x q d) y =
    if decide (x = y) then (match d !! x with Some _ => q | None => None end) else parentNode d y.
Proof.
  unfold parentNode. rewrite lookup_set_parent.
  destruct (decide (x = y)) as [->|]; [|reflexivity].
  now destruct (d !! y).
Qed.

Lemma childNodes_set_parents (xs : list Node) (q : option Node) (d : Store) (y : Node) :
  childNodes (foldr (fun x d' => set_parent x q d') d xs) y = childNodes d y.
Proof.
  induction xs as [|x xs IH]; [reflexivity|].
  cbn [foldr]. now rewrite childNodes_set_parent.
Qed.

Lemma lookup_set_parents_is_Some (xs : list Node) (q : option Node) (d : Store) (y : Node) :
  is_Some (foldr (fun x d' => set_parent x q d') d xs !! y) <-> is_Some (d !! y).
Proof.
  induction xs as [|x xs IH]; [reflexivity|].
  cbn [foldr]. rewrite lookup_set_parent.
  destruct (decide (x = y)) as [->|]; [|exact IH].
  rewrite fmap_is_Some. exact IH.
Qed.

Lemma parentNode_set_parents (xs : list Node) (q : Node) (d : Store) (y : Node) :
  y ∈ xs -> is_Some (d !! y) ->
  parentNode (foldr (fun x d' => set_parent x (Some q) d') d xs) y = Some q.
Proof.
  induction xs as [|x xs IH]; intros Hin Hy; [inversion Hin|].
  cbn [foldr]. rewrite parentNode_set_parent.
  destruct (decide (x = y)) as [->|Hne].
  - apply (lookup_set_parents_is_Some xs (Some q)) in Hy.
    destruct Hy as [nd ->]. reflexivity.
  - apply elem_of_cons in Hin as [->|Hin]; [congruence|]. now apply IH.
Qed.

Lemma lookup_remove (x : Node) (d : Store) (y : Node) :
  remove x d !! y =
    match parentNode d x with
    | None => d !! y
    | Some q =>
        (fun nd => mkNodeData (nd_fragment nd)
                     (if decide (x = y) then None else nd_parent nd)
                     (if decide (q = y) then filter (fun c => c ≠ x) (nd_children nd)
                      else nd_children nd)
                     (nd_indexed nd)) <$> d !! y
    end.
Proof.
  unfold remove. destruct (parentNode d x) as [q|]; [|reflexivity].
  rewrite lookup_set_parent. destruct (decide (x = y)) as [->|Hxy].
  - rewrite lookup_set_children. destruct (decide (q = y)) as [->|Hqy].
    + unfold childNodes. now destruct (d !! y).
    + now destruct (d !! y) as [[]|].
  - rewrite lookup_set_children. destruct (decide (q = y)) as [->|Hqy].
    + unfold childNodes. now destruct (d !! y).
    + now destruct (d !! y) as [[]|].
Qed.

Lemma indexed_set_parent (x : Node) (q : option Node) (d : Store) (y : Node) :
  indexed (set_parent x q d) y = indexed d y.
Proof.
  unfold indexed. rewrite lookup_set_parent.
  destruct (decide (x = y)) as [->|]; [|reflexivity]. now destruct (d !! y).
Qed.

Lemma indexed_set_children (x : Node) (l : list Node) (d : Store) (y : Node) :
  indexed (set_children x l d) y = indexed d y.
Proof.
  unfold indexed. rewrite lookup_set_children.
  destruct (decide (x = y)) as [->|]; [|reflexivity]. now destruct (d !! y).
Qed.

Lemma indexed_remove (x : Node) (d : Store) (y : Node) :
  indexed (remove x d) y = indexed d y.
Proof.
  unfold remove. destruct (parentNode d x); [|reflexivity].
  now rewrite indexed_set_parent, indexed_set_children.
Qed.

(** *** Chains of ancestors *)

Lemma chain_root (fuel : nat) (d : Store) (x : Node) :
  parentNode d x = None -> chain fuel d x = [x].
Proof. intros H. destruct fuel; cbn; [reflexivity|]. now rewrite H. Qed.


Lemma chain_agree (fuel : nat) (d d' : Store) (x : Node) :
  (forall y, y ∈ chain fuel d x -> parentNode d' y = parentNode d y) ->
  chain fuel d' x = chain fuel d x.
Proof.
  revert x. induction fuel as [|k IH]; intros x H; [reflexivity|].
  cbn in H |- *. rewrite (H x) by apply list_elem_of_here.
  destruct (parentNode d x) as [q|]; [|reflexivity].
  f_equal. apply IH. intros y Hy. apply H. now apply list_elem_of_further.
Qed.

Lemma chain_allocated (fuel : nat) (d : Store) (x y : Node) :
  forest d -> is_Some (d !! x) -> y ∈ chain fuel d x -> is_Some (d !! y).
Proof.
  intros Hf. revert x. induction fuel as [|k IH]; intros x Hx Hy.
  - cbn in Hy. apply list_elem_of_singleton in Hy. now subst.
  - cbn in Hy. apply elem_of_cons in Hy as [->|Hy]; [exact Hx|].
    destruct (parentNode d x) as [q|] eqn:E; [|inversion Hy].
    apply (IH q); [|exact Hy].
    apply (forest_parent d Hf) in E. unfold childNodes in E.
    destruct (d !! q); [eauto | inversion E].
Qed.

(** *** A forest *)

Lemma forest_parent_allocated (d : Store) (x q : Node) :
  forest d -> parentNode d x = Some q -> is_Some (d !! q).
Proof.
  intros Hf E. apply (forest_parent d Hf) in E. unfold childNodes in E.
  destruct (d !! q); [eauto | inversion E].
Qed.

Lemma forest_not_child (d : Store) (x y : Node) (nd : NodeData) :
  forest d -> d !! y = Some nd -> parentNode d x ≠ Some y -> x ∉ nd_children nd.
Proof.
  intros Hf Hy Hne Hin. apply Hne. apply (forest_child d Hf).
  unfold childNodes. now rewrite Hy.
Qed.

Lemma forestb_forest (d : Store) : forestb d = true -> forest d.
Proof.
  unfold forestb. rewrite forallb_forall. intros H.
  assert (forall x nd, d !! x = Some nd -> node_ok d x nd = true) as Hok.
  { intros x nd Hx. apply (H (x, nd)). apply list_elem_of_In.
    now apply elem_of_map_to_list. }
  clear H. split.
  - intros q c Hin. unfold childNodes in Hin.
    destruct (d !! q) as [nd|] eqn:Eq; [|inversion Hin].
    specialize (Hok q nd Eq). unfold node_ok in Hok.
    rewrite !andb_true_iff, forallb_forall in Hok.
    destruct Hok as [[[H _] _] _].
    apply list_elem_of_In in Hin. apply H in Hin. now apply bool_decide_eq_true_1 in Hin.
  - intros q c Hpar. unfold parentNode in Hpar.
    destruct (d !! c) as [nd|] eqn:Ec; [|discriminate].
    specialize (Hok c nd Ec). unfold node_ok in Hok.
    rewrite !andb_true_iff in Hok. destruct Hok as [[[_ H] _] _].
    rewrite Hpar in H. now apply bool_decide_eq_true_1 in H.
  - intros q. unfold childNodes. destruct (d !! q) as [nd|] eqn:Eq; [|constructor].
    specialize (Hok q nd Eq). unfold node_ok in Hok.
    rewrite !andb_true_iff in Hok. destruct Hok as [[_ H] _].
    now apply bool_decide_eq_true_1 in H.
  - intros x. destruct (d !! x) as [nd|] eqn:Ex.
    + specialize (Hok x nd Ex). unfold node_ok in Hok.
      rewrite !andb_true_iff in Hok. now destruct Hok as [_ H].
    + destruct (size d); cbn; unfold parentNode; now rewrite Ex.
Qed.

(** *** The store while [before] fills its fragment *)

Lemma lookup_moved (f : Node) (done : list Node) (d : Store) (y : Node) :
  moved f done d !! y =
    if decide (f = y) then Some (mkNodeData true None done NoLength)
    else (fun nd => mkNodeData (nd_fragment nd)
                      (if decide (y ∈ done) then Some f else nd_parent nd)
                      (filter (fun c => c ∉ done) (nd_children nd))
                      (nd_indexed nd)) <$> d !! y.
Proof.
  unfold moved. rewrite lookup_insert. destruct (decide (f = y)); [reflexivity|].
  rewrite map_lookup_imap. now destruct (d !! y).
Qed.

Lemma moved_nil (d : Store) :
  moved (fresh (dom d)) [] d = snd (createDocumentFragment d).
Proof.
  unfold createDocumentFragment, moved. cbn [snd]. f_equal.
  apply map_eq. intros y. rewrite map_lookup_imap.
  destruct (d !! y) as [[fr pa ch ix]|]; [|reflexivity]. cbn.
  rewrite filter_notin_nil. rewrite decide_False by apply not_elem_of_nil. reflexivity.
Qed.

Lemma parentNode_moved (f : Node) (done : list Node) (d : Store) (y : Node) :
  d !! f = None ->
  parentNode (moved f done d) y =
    if decide (y ∈ done) then (match d !! y with Some _ => Some f | None => None end)
    else parentNode d y.
Proof.
  intros Hf. unfold parentNode. rewrite lookup_moved.
  destruct (decide (f = y)) as [->|Hne].
  - rewrite Hf. now destruct (decide (y ∈ done)).
  - destruct (d !! y); cbn; now destruct (decide (y ∈ done)).
Qed.

Lemma childNodes_moved (f : Node) (done : list Node) (d : Store) (y : Node) :
  f ≠ y -> childNodes (moved f done d) y = filter (fun c => c ∉ done) (childNodes d y).
Proof.
  intros Hne. unfold childNodes. rewrite lookup_moved, decide_False by exact Hne.
  now destruct (d !! y).
Qed.


Lemma parentNode_moved_fragment (f : Node) (done : list Node) (d : Store) :
  parentNode (moved f done d) f = None.
Proof. unfold parentNode. now rewrite lookup_moved, decide_True. Qed.

Lemma elem_of_snoc_ne (done : list Node) (x y : Node) :
  x ≠ y -> y ∈ done ++ [x] <-> y ∈ done.
Proof.
  intros H. rewrite elem_of_app, list_elem_of_singleton. split; [|tauto].
  intros [?|?]; [assumption | congruence].
Qed.

Ltac split_decide :=
  repeat match goal with
         | |- context [decide ?P] => destruct (decide P); try congruence
         end.

Lemma children_unchanged (d : Store) (x y : Node) (ndy : NodeData) (done : list Node) :
  forest d -> d !! y = Some ndy -> parentNode d x ≠ Some y ->
  filter (fun c => c ∉ done ++ [x]) (nd_children ndy)
  = filter (fun c => c ∉ done) (nd_children ndy).
Proof.
  intros Hf Hy Hne. rewrite filter_notin_snoc. apply filter_ne_id.
  rewrite list_elem_of_filter. intros [_ Hin].
  now apply (forest_not_child d x y ndy Hf Hy).
Qed.

Lemma appendChild_element (d : Store) (p x : Node) (ndp nd : NodeData) :
  d !! p = Some ndp -> d !! x = Some nd -> nd_fragment nd = false ->
  inclusive_ancestor d x p = false ->
  appendChild p x d =
    Normal (set_parent x (Some p)
              (set_children p (childNodes (remove x d) p ++ [x]) (remove x d))).
Proof.
  intros Hp Hx Hfrag Hanc. unfold appendChild, insertBefore.
  rewrite Hp, Hx. unfold ensure_pre_insertion_validity. rewrite Hanc. cbn [bind].
  rewrite decide_False by done. rewrite Hfrag. reflexivity.
Qed.

Lemma appendChild_moved (d : Store) (f x : Node) (done : list Node) (nd : NodeData) :
  forest d -> d !! f = None -> x ∉ done ->
  d !! x = Some nd -> nd_fragment nd = false ->
  appendChild f x (moved f done d) = Normal (moved f (done ++ [x]) d).
Proof.
  intros Hf Hfresh Hx Hnd Hfrag.
  assert (f ≠ x) as Hfx by (intros ->; congruence).
  assert (parentNode d x = nd_parent nd) as Hpx by (unfold parentNode; now rewrite Hnd).
  assert (parentNode (moved f done d) x = nd_parent nd) as Hpm.
  { rewrite parentNode_moved by exact Hfresh. now rewrite decide_False. }
  assert (nd_parent nd ≠ Some f) as Hpf.
  { intros E. rewrite E in Hpx. apply (forest_parent_allocated d x f Hf) in Hpx.
    rewrite Hfresh in Hpx. now destruct Hpx. }
  assert (childNodes (remove x (moved f done d)) f = done) as Hdone.
  { unfold childNodes at 1. rewrite lookup_remove, Hpm.
    destruct (nd_parent nd) as [q|].
    - rewrite lookup_moved, decide_True by reflexivity. cbn.
      rewrite decide_False by congruence. reflexivity.
    - rewrite lookup_moved, decide_True by reflexivity. reflexivity. }
  rewrite (appendChild_element _ f x (mkNodeData true None done NoLength)
             (mkNodeData (nd_fragment nd) (nd_parent nd)
                (filter (fun c => c ∉ done) (nd_children nd)) (nd_indexed nd))).
  2: { rewrite lookup_moved. now rewrite decide_True. }
  2: { rewrite lookup_moved, decide_False by exact Hfx. rewrite Hnd. cbn.
       now rewrite decide_False. }
  2: { exact Hfrag. }
  2: { unfold inclusive_ancestor. rewrite chain_root by apply parentNode_moved_fragment.
       apply bool_decide_eq_false_2. rewrite list_elem_of_singleton. congruence. }
  f_equal. rewrite Hdone.
  apply map_eq. intros y.
  rewrite lookup_set_parent, !lookup_set_children, !lookup_remove, Hpm.
  rewrite !lookup_moved.
  destruct (decide (f = y)) as [<-|Hfy]; [|destruct (decide (x = y)) as [<-|Hxy]].
  - rewrite ?Hnd, ?Hfresh.
    destruct (nd_parent nd) as [q|] eqn:Eq; cbn; split_decide; reflexivity.
  - rewrite ?Hnd, ?Hfresh.
    assert (x ∈ done ++ [x]) as Hin by (rewrite elem_of_app, list_elem_of_singleton; tauto).
    destruct (nd_parent nd) as [q|] eqn:Eq; cbn.
    all: rewrite ?(decide_True (P := x ∈ done ++ [x])) by exact Hin.
    all: rewrite ?(decide_False (P := x ∈ done)) by exact Hx.
    all: split_decide; cbn; do 2 f_equal.
    all: first [ symmetry; apply filter_notin_snoc
               | symmetry; apply (children_unchanged d x x nd done Hf Hnd); congruence ].
  - destruct (d !! y) as [ndy|] eqn:Ey.
    2: { destruct (nd_parent nd) as [q|]; reflexivity. }
    assert (forall b : option Node,
              (if decide (y ∈ done ++ [x]) then b else nd_parent ndy)
              = (if decide (y ∈ done) then b else nd_parent ndy)) as Hdec.
    { intros b. destruct (decide (y ∈ done)) as [H|H].
      - rewrite decide_True; [reflexivity|]. now apply elem_of_snoc_ne.
      - rewrite decide_False; [reflexivity|]. now rewrite elem_of_snoc_ne. }
    destruct (nd_parent nd) as [q|] eqn:Eq; cbn; rewrite Hdec.
    all: destruct (decide (y ∈ done)); split_decide; cbn; do 2 f_equal.
    all: first [ symmetry; apply filter_notin_snoc
               | symmetry; apply (children_unchanged d x y ndy done Hf Ey); congruence ].
Qed.


Lemma last_filter_ne (x : Node) (l : list Node) :
  last l ≠ Some x -> last (filter (fun c => c ≠ x) l) = last l.
Proof.
  destruct (last l) as [z|] eqn:E; intros Hne.
  - apply last_Some in E as [l' ->]. rewrite filter_app.
    rewrite (filter_cons_True _ z) by congruence. cbn. now rewrite !last_snoc.
  - apply last_None in E. now subst.
Qed.

Lemma filter_ne_snoc (x : Node) (l : list Node) :
  x ∉ l -> filter (fun c => c ≠ x) (l ++ [x]) = l.
Proof.
  intros H. rewrite filter_app, (filter_ne_id x l H).
  rewrite filter_cons_False by tauto. cbn. apply app_nil_r.
Qed.

(** *** Chains of parents that end *)

Lemma chain_S (k : nat) (d : Store) (x : Node) :
  chain (S k) d x
  = x :: match parentNode d x with Some q => chain k d q | None => [] end.
Proof. reflexivity. Qed.

Lemma chain_head (k : nat) (d : Store) (x : Node) : x ∈ chain k d x.
Proof. destruct k; cbn; apply list_elem_of_here. Qed.











(** *** Giving nodes a new parent

    The store [d'] is the forest [d] with the nodes [ns], none of them [p]
    or an ancestor of [p], made children of [p] between the children
    [pre] and [post] it had. *)

Section Reparent.
Variables (d d' : Store) (p : Node) (ns pre post : list Node).
Hypothesis Hforest : forest d.
Hypothesis Hkids : childNodes d p = pre ++ post.
Hypothesis Hnd : NoDup ns.
Hypothesis Hanc : forall x, x ∈ ns -> inclusive_ancestor d x p = false.
Hypothesis Hparent' :
  forall y, parentNode d' y = if decide (y ∈ ns) then Some p else parentNode d y.
Hypothesis Hchildren' :
  forall q, q ≠ p -> childNodes d' q = filter (fun c => c ∉ ns) (childNodes d q).
Hypothesis Hkids' :
  childNodes d' p = filter (fun c => c ∉ ns) pre ++ ns ++ filter (fun c => c ∉ ns) post.








End Reparent.

Lemma size_moved (f : Node) (done : list Node) (d : Store) :
  d !! f = None -> size (moved f done d) = S (size d).
Proof.
  intros Hf. unfold moved. rewrite map_size_insert_None.
  - f_equal. rewrite <- !(size_dom (D := gset Node)). f_equal.
    apply dom_imap_L. intros y. rewrite elem_of_dom. split.
    + intros [nd E]. exists nd. split; [exact E | eauto].
    + intros (nd & E & _). eauto.
  - rewrite map_lookup_imap, Hf. reflexivity.
Qed.

(** Once a node of the chain of [x] is in the fragment, the fragment is on
    the chain. *)
Lemma chain_moved_hits (d : Store) (f : Node) (ns : list Node) (n : Node) :
  d !! f = None -> (forall y, y ∈ ns -> is_Some (d !! y)) -> n ∈ ns ->
  forall k x, n ∈ chain k d x -> f ∈ chain (S k) (moved f ns d) x.
Proof.
  intros Hfresh Hall Hn. induction k as [|k IH]; intros x Hin.
  - cbn in Hin. apply list_elem_of_singleton in Hin as <-.
    rewrite chain_S, parentNode_moved, decide_True by assumption.
    destruct (Hall n Hn) as [nd ->]. apply list_elem_of_further, chain_head.
  - rewrite chain_S, (parentNode_moved f ns d x Hfresh).
    destruct (decide (x ∈ ns)) as [Hx|Hx].
    + destruct (Hall x Hx) as [nd ->]. apply list_elem_of_further, chain_head.
    + rewrite chain_S in Hin. apply elem_of_cons in Hin as [->|Hin]; [tauto|].
      destruct (parentNode d x) as [q|]; [|inversion Hin].
      apply list_elem_of_further. now apply IH.
Qed.

End DomFacts.

(* ===================================================================== *)
(** ** Properties of [before] and [removeElements] *)
(* ===================================================================== *)

Module ManipulationFacts.
Import Dom Manipulation DomFacts.

(** *** What is array-like when a call runs *)

Lemma truthy_node (d : Store) (n : Node) : truthy d (OneNode n) = true.
Proof. reflexivity. Qed.

Lemma truthy_array (d : Store) (ns : list Node) : truthy d (ArrayLike ns) = true.
Proof. reflexivity. Qed.

Lemma isArrayLike_array (d : Store) (ns : list Node) : isArrayLike d (ArrayLike ns) = true.
Proof. reflexivity. Qed.

Lemma isArrayLike_nothing (d : Store) : isArrayLike d Nothing = false.
Proof. reflexivity. Qed.

(** A node without a numeric [length] is not array-like. *)
Lemma isArrayLike_no_length (d : Store) (n : Node) :
  indexed d n = NoLength -> isArrayLike d (OneNode n) = false.
Proof. intros H. unfold isArrayLike, value_of. now rewrite H. Qed.

(** An object whose [length] is a count below [2^53] is array-like. *)
Lemma isArrayLike_count (k : nat) :
  Z.of_nat k < 2 ^ 53 ->
  Types.isArrayLike (Types.Object (Types.Number (JS.of_Z (Z.of_nat k)))) = true.
Proof.
  intros H. unfold Types.isArrayLike, Types.length_of.
  cbn [Types.truthy Types.get_length Types.isArray Types.isFunction Types.isNumber
       Types.is_count negb andb orb].
  rewrite NumberFacts.gt_minus_one_of_Z, NumberFacts.rem_one_of_Z by lia.
  apply andb_true_iff. split; [apply Z.leb_le; lia | reflexivity].
Qed.

(** *** The loop of [each] *)

(** On an array, which stays as it is, the loop hands over the elements
    one after the other. *)
Lemma each_from_array {St : Type} (l : list Node) (callback : Node -> St -> Completion St)
  (callback' : option Node -> St -> Completion St) (read : St -> list (option Node)) :
  (forall s, read s = Some <$> l) ->
  (forall e s, callback' (Some e) s = callback e s) ->
  forall turns i s,
    (length l <= i + turns)%nat ->
    each_from turns i read callback' s = each (drop i l) callback s.
Proof.
  intros Hread Hcb. induction turns as [|k IH]; intros i s Hlen.
  - rewrite drop_ge by lia. reflexivity.
  - cbn [each_from]. rewrite Hread, list_lookup_fmap.
    destruct (l !! i) as [e|] eqn:E; cbn [fmap option_fmap option_map].
    + rewrite (drop_S l e i E). cbn [each]. rewrite Hcb.
      destruct (callback e s) as [s'|err]; [|reflexivity]. cbn [bind].
      apply IH. lia.
    + apply lookup_ge_None in E. now rewrite drop_ge by lia.
Qed.

Lemma each_live_array {St : Type} (l : list Node) (callback : Node -> St -> Completion St)
  (callback' : option Node -> St -> Completion St) (read : St -> list (option Node)) (s : St) :
  (forall s, read s = Some <$> l) ->
  (forall e s, callback' (Some e) s = callback e s) ->
  each_live read callback' s = each l callback s.
Proof.
  intros Hread Hcb. unfold each_live.
  rewrite (each_from_array l callback callback' read Hread Hcb).
  - reflexivity.
  - rewrite Hread, length_fmap. lia.
Qed.

(** [before] on an array: the elements go to the new fragment one after
    the other, and the fragment goes to the parent. *)
Lemma before_on_array (d : Store) (p : Node) (preferredAnchor : option Node) (ns : list Node) :
  before (Some p) preferredAnchor (ArrayLike ns) d
  = bind (each ns (before_callback (fst (createDocumentFragment d)))
            (snd (createDocumentFragment d), preferredAnchor))
         (fun '(d1, anchor) =>
            Dom.insertBefore p (fst (createDocumentFragment d))
              (valid_anchor d1 p preferredAnchor anchor) d1).
Proof.
  unfold before. rewrite truthy_array, isArrayLike_array.
  destruct (createDocumentFragment d) as [f d0]. cbn [fst snd].
  now rewrite (each_live_array ns (before_callback f)).
Qed.

(** [before] on a node without a numeric [length]: the node goes to the
    parent itself. *)
Lemma before_on_node (d : Store) (p n : Node) (preferredAnchor : option Node) :
  indexed d n = NoLength ->
  before (Some p) preferredAnchor (OneNode n) d = Dom.insertBefore p n preferredAnchor d.
Proof.
  intros H. unfold before. rewrite truthy_node, (isArrayLike_no_length d n H).
  unfold valid_anchor. destruct preferredAnchor as [r|]; [|reflexivity].
  destruct (decide (r ≠ r)); [congruence | reflexivity].
Qed.

(** *** The loop of [before] over an array

    The parent [p] of the store [d] has the children [pre ++ post], the
    preferred anchor is the first of [post] (none when [post] is empty),
    and [f] is the fragment the call creates. *)

Section Loop.
Variables (d : Store) (p f : Node) (pre post : list Node).
Hypothesis Hforest : forest d.
Hypothesis Hfresh : d !! f = None.
Hypothesis Hkids : childNodes d p = pre ++ post.

Lemma kids_nodup : NoDup (pre ++ post).
Proof. rewrite <- Hkids. apply (forest_nodup d Hforest). Qed.

Lemma kid_parent (c : Node) : c ∈ pre ++ post -> parentNode d c = Some p.
Proof. rewrite <- Hkids. apply (forest_child d Hforest). Qed.



Lemma kids_moved (done : list Node) :
  f ≠ p ->
  childNodes (moved f done d) p
  = filter (fun y => y ∉ done) pre ++ filter (fun y => y ∉ done) post.
Proof. intros H. now rewrite childNodes_moved, Hkids, filter_app. Qed.

Lemma previousSibling_moved (done : list Node) (x : Node) (l1 l2 : list Node) :
  f ≠ p -> x ∉ done -> x ∈ pre ++ post ->
  filter (fun y => y ∉ done) pre ++ filter (fun y => y ∉ done) post = l1 ++ x :: l2 ->
  previousSibling (moved f done d) x = last l1.
Proof.
  intros Hfp Hx Hin E. unfold previousSibling.
  rewrite parentNode_moved by exact Hfresh.
  rewrite decide_False by exact Hx. rewrite (kid_parent x Hin).
  rewrite (kids_moved done Hfp), E. apply before_in_app.
  pose proof kids_nodup as Hnd.
  assert (NoDup (l1 ++ x :: l2)) as Hnd'.
  { rewrite <- E. apply NoDup_app in Hnd as (H1 & H2 & H3).
    apply NoDup_app. repeat split.
    - now apply NoDup_filter.
    - intros z Hz1 Hz2. apply list_elem_of_filter in Hz1, Hz2.
      now apply (H2 z).
    - now apply NoDup_filter. }
  apply NoDup_app in Hnd' as (_ & H & _). intros Hx1.
  apply (H x Hx1). apply list_elem_of_here.
Qed.

Lemma anchor_step (done : list Node) (x : Node) :
  f ≠ p -> x ∉ done ->
  (if decide (Some x = anchor_of pre post done)
   then previousSibling (moved f done d) x else anchor_of pre post done)
  = anchor_of pre post (done ++ [x]).
Proof.
  intros Hfp Hx. unfold anchor_of.
  destruct (head post) as [c|] eqn:Ehead; [|now rewrite decide_False].
  apply head_Some in Ehead as [post' Epost].
  pose proof kids_nodup as Hnd. rewrite Epost in Hnd.
  assert (c ∉ pre) as Hcpre.
  { apply NoDup_app in Hnd as (_ & H & _). intros Hc. apply (H c Hc), list_elem_of_here. }
  destruct (decide (c ∈ done)) as [Hc|Hc].
  - rewrite (decide_True (P := c ∈ done ++ [x])) by (rewrite elem_of_app; tauto).
    rewrite filter_notin_snoc.
    destruct (decide (Some x = last (filter (fun y => y ∉ done) pre))) as [E|E].
    + symmetry in E. apply last_Some in E as [l1 E].
      assert (x ∈ pre) as Hxpre.
      { assert (x ∈ filter (fun y => y ∉ done) pre) as H
          by (rewrite E, elem_of_app, list_elem_of_singleton; tauto).
        now apply list_elem_of_filter in H. }
      assert (x ∉ l1) as Hxl1.
      { assert (NoDup (l1 ++ [x])) as H.
        { rewrite <- E. apply NoDup_filter. now apply NoDup_app in Hnd. }
        apply NoDup_app in H as (_ & H & _). intros Hx1.
        apply (H x Hx1), list_elem_of_here. }
      rewrite (previousSibling_moved done x l1 (filter (fun y => y ∉ done) post)).
      * rewrite E. now rewrite filter_ne_snoc.
      * exact Hfp.
      * exact Hx.
      * rewrite elem_of_app. tauto.
      * rewrite E, <- app_assoc. reflexivity.
    + rewrite last_filter_ne; [reflexivity|]. congruence.
  - destruct (decide (Some x = Some c)) as [E|E].
    + injection E as ->.
      rewrite (decide_True (P := c ∈ done ++ [c]))
        by (rewrite elem_of_app, list_elem_of_singleton; tauto).
      rewrite filter_notin_snoc.
      rewrite (filter_ne_id c (filter _ pre))
        by (rewrite list_elem_of_filter; tauto).
      apply (previousSibling_moved done c _ (filter (fun y => y ∉ done) post')).
      * exact Hfp.
      * exact Hc.
      * rewrite Epost, elem_of_app, elem_of_cons. tauto.
      * rewrite Epost. now rewrite filter_cons_True.
    + rewrite decide_False; [reflexivity|].
      rewrite elem_of_app, list_elem_of_singleton. intros [?|?]; congruence.
Qed.

Lemma before_callback_moved (done : list Node) (x : Node) (nd : NodeData) :
  f ≠ p -> x ∉ done -> d !! x = Some nd -> nd_fragment nd = false ->
  before_callback f x (moved f done d, anchor_of pre post done)
  = Normal (moved f (done ++ [x]) d, anchor_of pre post (done ++ [x])).
Proof.
  intros Hfp Hx Hnd Hfrag. unfold before_callback.
  rewrite (anchor_step done x Hfp Hx).
  now rewrite (appendChild_moved d f x done nd Hforest Hfresh Hx Hnd Hfrag).
Qed.

Lemma each_before_callback (todo done : list Node) :
  f ≠ p -> NoDup (done ++ todo) ->
  (forall x, x ∈ todo -> exists nd, d !! x = Some nd /\ nd_fragment nd = false) ->
  each todo (before_callback f) (moved f done d, anchor_of pre post done)
  = Normal (moved f (done ++ todo) d, anchor_of pre post (done ++ todo)).
Proof.
  intros Hfp. revert done. induction todo as [|x todo IH]; intros done Hnd Hel.
  - now rewrite app_nil_r.
  - cbn [each].
    destruct (Hel x (list_elem_of_here x todo)) as (nd & Hx & Hfrag).
    assert (x ∉ done) as Hxd.
    { apply NoDup_app in Hnd as (_ & H & _). intros Hin.
      apply (H x Hin), list_elem_of_here. }
    rewrite (before_callback_moved done x nd Hfp Hxd Hx Hfrag). cbn [bind].
    replace (done ++ x :: todo) with ((done ++ [x]) ++ todo) by now rewrite <- app_assoc.
    apply IH.
    + now rewrite <- app_assoc.
    + intros z Hz. apply Hel. now apply list_elem_of_further.
Qed.

Lemma filtered_kids_nodup (done : list Node) :
  NoDup (filter (fun y => y ∉ done) pre ++ filter (fun y => y ∉ done) post).
Proof. rewrite <- filter_app. apply NoDup_filter, kids_nodup. Qed.

Lemma nextSibling_moved (done : list Node) (x : Node) (l1 l2 : list Node) :
  f ≠ p -> x ∉ done -> x ∈ pre ++ post ->
  filter (fun y => y ∉ done) pre ++ filter (fun y => y ∉ done) post = l1 ++ x :: l2 ->
  nextSibling (moved f done d) x = head l2.
Proof.
  intros Hfp Hx Hin E. unfold nextSibling.
  rewrite parentNode_moved by exact Hfresh.
  rewrite decide_False by exact Hx. rewrite (kid_parent x Hin).
  rewrite (kids_moved done Hfp), E. apply after_in_app.
  pose proof (filtered_kids_nodup done) as Hnd. rewrite E in Hnd.
  apply NoDup_app in Hnd as (_ & H & _). intros Hx1.
  apply (H x Hx1). apply list_elem_of_here.
Qed.

(** After the loop the anchor the code settles on is the first child of
    [post] that was not inserted, whichever way it gets there. *)
Lemma final_anchor (ns : list Node) :
  f ≠ p ->
  valid_anchor (moved f ns d) p (head post) (anchor_of pre post ns)
  = head (filter (fun y => y ∉ ns) post).
Proof.
  intros Hfp. unfold valid_anchor, anchor_of.
  destruct (head post) as [c|] eqn:Ehead.
  2: { destruct post; [reflexivity | discriminate]. }
  apply head_Some in Ehead as [post' Epost].
  destruct (decide (c ∈ ns)) as [Hc|Hc].
  - destruct (last (filter (fun y => y ∉ ns) pre)) as [a|] eqn:Elast.
    + apply last_Some in Elast as [l1 E].
      assert (a ∈ filter (fun y => y ∉ ns) pre) as Ha
        by (rewrite E, elem_of_app, list_elem_of_singleton; tauto).
      apply list_elem_of_filter in Ha as [Hans Hapre].
      rewrite decide_True by congruence.
      apply (nextSibling_moved ns a l1).
      * exact Hfp.
      * exact Hans.
      * rewrite elem_of_app. tauto.
      * rewrite E, <- app_assoc. reflexivity.
    + apply last_None in Elast. unfold firstChild.
      rewrite (kids_moved ns Hfp), Elast. reflexivity.
  - rewrite decide_False by tauto.
    rewrite Epost, filter_cons_True by exact Hc.
    destruct (decide (c ≠ c)); [congruence | reflexivity].
Qed.

(** The chain of ancestors of [p] is the same once the nodes [ns] are in
    the fragment, as long as none of them is on it. *)
Lemma chain_within (K : nat) (x : Node) :
  reaches_root K d x = true -> forall k y, y ∈ chain k d x -> y ∈ chain K d x.
Proof.
  revert x. induction K as [|K IH]; intros x Hr k y Hy.
  - cbn in Hr. destruct (parentNode d x) eqn:E; [discriminate|].
    rewrite chain_root in Hy by exact E. now rewrite chain_root.
  - cbn in Hr |- *. destruct k as [|k]; cbn in Hy.
    + apply list_elem_of_singleton in Hy as ->. apply list_elem_of_here.
    + apply elem_of_cons in Hy as [->|Hy]; [apply list_elem_of_here|].
      apply list_elem_of_further.
      destruct (parentNode d x) as [q|]; [|inversion Hy]. now apply (IH q Hr k).
Qed.

Lemma fragment_not_ancestor (ns : list Node) :
  is_Some (d !! p) ->
  (forall x, x ∈ ns -> inclusive_ancestor d x p = false) ->
  inclusive_ancestor (moved f ns d) f p = false.
Proof.
  intros Hp Hanc. unfold inclusive_ancestor. apply bool_decide_eq_false_2.
  rewrite (chain_agree _ d).
  - intros Hin. apply (chain_allocated _ d p f Hforest Hp) in Hin.
    rewrite Hfresh in Hin. now destruct Hin.
  - intros y Hy. rewrite parentNode_moved by exact Hfresh.
    rewrite decide_False; [reflexivity|].
    intros Hyns. specialize (Hanc y Hyns). unfold inclusive_ancestor in Hanc.
    apply bool_decide_eq_false_1 in Hanc. apply Hanc.
    apply (chain_within _ p (forest_root d Hforest p) _ y Hy).
Qed.

End Loop.

Lemma anchor_of_nil (pre post : list Node) : anchor_of pre post [] = head post.
Proof.
  unfold anchor_of. destruct (head post); [|reflexivity].
  rewrite decide_False; [reflexivity | apply not_elem_of_nil].
Qed.

Lemma lookup_set_children_is_Some (x : Node) (l : list Node) (d : Store) (y : Node) :
  is_Some (set_children x l d !! y) <-> is_Some (d !! y).
Proof.
  rewrite lookup_set_children. destruct (decide (x = y)) as [->|]; [|reflexivity].
  apply fmap_is_Some.
Qed.

(** [p.insertBefore(f, child)] for a fragment [f] holding [ns], when
    [child] is the first of the children [l2] of [p]. *)
Lemma insertBefore_fragment (d1 : Store) (p f : Node) (ndp : NodeData)
  (ns l1 l2 : list Node) :
  d1 !! p = Some ndp -> d1 !! f = Some (mkNodeData true None ns NoLength) ->
  inclusive_ancestor d1 f p = false ->
  nd_children ndp = l1 ++ l2 -> NoDup (l1 ++ l2) ->
  (forall r, r ∈ l1 ++ l2 -> parentNode d1 r = Some p) ->
  exists d',
    Dom.insertBefore p f (head l2) d1 = Normal d'
    /\ childNodes d' p = l1 ++ ns ++ l2
    /\ (forall x, x ∈ ns -> is_Some (d1 !! x) -> parentNode d' x = Some p).
Proof.
  intros Hp Hf Hanc Hkids Hnd Hpar.
  assert (f ≠ p) as Hfp.
  { intros ->. unfold inclusive_ancestor in Hanc.
    apply bool_decide_eq_false_1 in Hanc. apply Hanc.
    destruct (size d1); cbn; apply list_elem_of_here. }
  assert (parentNode d1 f = None) as Hpf by (unfold parentNode; now rewrite Hf).
  exists (insert ns p (head l2) (set_children f [] d1)).
  split; [|split].
  - unfold Dom.insertBefore. rewrite Hp, Hf.
    unfold ensure_pre_insertion_validity. rewrite Hanc.
    destruct l2 as [|r t]; cbn [head bind nd_fragment nd_children].
    + now rewrite decide_False by done.
    + assert (parentNode d1 r = Some p) as Hr
        by (apply Hpar; rewrite elem_of_app, elem_of_cons; tauto).
      rewrite decide_True by exact Hr. cbn [bind].
      rewrite decide_False; [reflexivity|]. intros E. injection E as ->. congruence.
  - unfold insert. rewrite childNodes_set_parents, !childNodes_set_children.
    rewrite decide_True by reflexivity. rewrite decide_False by exact Hfp.
    assert (is_Some (set_children f [] d1 !! p)) as [ndp' ->]
      by (apply lookup_set_children_is_Some; eauto).
    unfold childNodes. rewrite Hp, Hkids.
    destruct l2 as [|r t]; cbn [head].
    + now rewrite !app_nil_r.
    + apply insert_before_in_app.
      apply NoDup_app in Hnd as (_ & H & _). intros Hr.
      apply (H r Hr), list_elem_of_here.
  - intros x Hx Hal. unfold insert. apply parentNode_set_parents; [exact Hx|].
    now rewrite !lookup_set_children_is_Some.
Qed.

(** [before] on an array of distinct element nodes, none of them [p] or
    an ancestor of [p]: the nodes end up, in the order given, where the
    anchor (the first node of [post]) is. *)
Lemma before_array (d : Store) (p : Node) (pre post ns : list Node) :
  forest d -> is_Some (d !! p) -> childNodes d p = pre ++ post ->
  NoDup ns ->
  (forall x, x ∈ ns -> exists nd, d !! x = Some nd /\ nd_fragment nd = false) ->
  (forall x, x ∈ ns -> inclusive_ancestor d x p = false) ->
  exists d',
    before (Some p) (head post) (ArrayLike ns) d = Normal d'
    /\ childNodes d' p
       = filter (fun y => y ∉ ns) pre ++ ns ++ filter (fun y => y ∉ ns) post
    /\ (forall x, x ∈ ns -> parentNode d' x = Some p).
Proof.
  intros Hforest Hp Hkids Hnd Hel Hanc.
  set (f := fresh (dom d)).
  assert (d !! f = None) as Hfresh by (apply not_elem_of_dom, is_fresh).
  assert (f ≠ p) as Hfp by (intros E; rewrite E in Hfresh; rewrite Hfresh in Hp; now destruct Hp).
  destruct Hp as [ndp Hp].
  destruct (insertBefore_fragment (moved f ns d) p f
              (mkNodeData (nd_fragment ndp)
                 (if decide (p ∈ ns) then Some f else nd_parent ndp)
                 (filter (fun c => c ∉ ns) (nd_children ndp))
                 (nd_indexed ndp))
              ns (filter (fun y => y ∉ ns) pre) (filter (fun y => y ∉ ns) post))
    as (d' & Hins & Hkids' & Hpar').
  { rewrite lookup_moved, decide_False by exact Hfp. now rewrite Hp. }
  { rewrite lookup_moved. now rewrite decide_True. }
  { apply (fragment_not_ancestor d p f Hforest Hfresh ns); eauto. }
  { cbn. unfold childNodes in Hkids. rewrite Hp in Hkids. now rewrite Hkids, filter_app. }
  { apply (filtered_kids_nodup d p pre post Hforest Hkids). }
  { intros r Hr. rewrite <- filter_app in Hr. apply list_elem_of_filter in Hr as [Hr1 Hr2].
    rewrite parentNode_moved by exact Hfresh. rewrite decide_False by exact Hr1.
    apply (kid_parent d p pre post Hforest Hkids r Hr2). }
  exists d'. split; [|split].
  - rewrite before_on_array.
    assert (createDocumentFragment d = (f, moved f [] d)) as ->
      by (unfold f; rewrite moved_nil; reflexivity).
    cbn [fst snd].
    rewrite <- (anchor_of_nil pre post) at 1.
    rewrite (each_before_callback d p f pre post Hforest Hfresh Hkids ns [] Hfp Hnd Hel).
    cbn [bind app].
    rewrite (final_anchor d p f pre post Hforest Hfresh Hkids ns Hfp).
    exact Hins.
  - exact Hkids'.
  - intros x Hx. apply Hpar'; [exact Hx|].
    destruct (Hel x Hx) as (nd & Hx' & _).
    rewrite lookup_moved. destruct (decide (f = x)); [eauto|]. rewrite Hx'. cbn. eauto.
Qed.

(** *** Removal *)

Lemma remove_unparented (n : Node) (d : Store) : parentNode d n = None -> remove n d = d.
Proof. intros H. unfold remove. now rewrite H. Qed.

Lemma removeElement_remove (n : Node) (d : Store) : removeElement n d = Normal (remove n d).
Proof.
  unfold removeElement. destruct (parentNode d n) as [q|] eqn:E.
  - unfold removeChild. now rewrite decide_True.
  - now rewrite remove_unparented.
Qed.

Lemma each_removeElement (ns : list Node) (d : Store) :
  each ns removeElement d = Normal (foldl (fun d' n => remove n d') d ns).
Proof.
  revert d. induction ns as [|n ns IH]; intros d; [reflexivity|].
  cbn [each foldl]. rewrite removeElement_remove. cbn [bind]. apply IH.
Qed.

Lemma parentNode_remove (x : Node) (d : Store) (y : Node) :
  parentNode (remove x d) y = if decide (x = y) then None else parentNode d y.
Proof.
  unfold parentNode at 1. rewrite lookup_remove.
  destruct (parentNode d x) as [q|] eqn:E.
  - unfold parentNode. destruct (d !! y); cbn; now destruct (decide (x = y)).
  - destruct (decide (x = y)) as [->|]; [exact E | reflexivity].
Qed.

Lemma childNodes_remove (x : Node) (d : Store) (q : Node) :
  childNodes (remove x d) q =
    if decide (parentNode d x = Some q) then filter (fun c => c ≠ x) (childNodes d q)
    else childNodes d q.
Proof.
  unfold childNodes at 1. rewrite lookup_remove.
  destruct (parentNode d x) as [q'|] eqn:E.
  - unfold childNodes.
    destruct (d !! q) as [nd|]; cbn; destruct (decide (Some q' = Some q)) as [Eq|Hne];
      try reflexivity.
    + injection Eq as ->. now rewrite decide_True by reflexivity.
    + rewrite decide_False by congruence. reflexivity.
  - now rewrite decide_False by done.
Qed.

Lemma remove_all_parent (ns : list Node) (d : Store) (y : Node) :
  parentNode (foldl (fun d' n => remove n d') d ns) y =
    if decide (y ∈ ns) then None else parentNode d y.
Proof.
  revert d. induction ns as [|n ns IH]; intros d.
  - cbn [foldl]. destruct (decide (y ∈ [])) as [H|]; [inversion H | reflexivity].
  - cbn [foldl]. rewrite IH, parentNode_remove.
    destruct (decide (y ∈ ns)) as [H|H].
    + rewrite decide_True; [reflexivity|]. now apply list_elem_of_further.
    + destruct (decide (n = y)) as [->|Hne].
      * rewrite decide_True; [reflexivity|]. apply list_elem_of_here.
      * rewrite decide_False; [reflexivity|].
        rewrite elem_of_cons. intros [?|?]; [congruence | tauto].
Qed.

Lemma filter_all (P : Node -> Prop) `{forall n, Decision (P n)} (l : list Node) :
  (forall c, c ∈ l -> P c) -> filter P l = l.
Proof.
  induction l as [|a l IH]; intros Hall; [reflexivity|].
  rewrite filter_cons_True by apply Hall, list_elem_of_here.
  rewrite IH; [reflexivity|]. intros c Hc. now apply Hall, list_elem_of_further.
Qed.

Lemma remove_all_children (ns : list Node) (d : Store) (q : Node) :
  childNodes (foldl (fun d' n => remove n d') d ns) q =
    filter (fun c => ~ (c ∈ ns /\ parentNode d c = Some q)) (childNodes d q).
Proof.
  revert d. induction ns as [|n ns IH]; intros d.
  - cbn [foldl]. symmetry. apply filter_all. intros c _ [H _]. inversion H.
  - cbn [foldl]. rewrite IH, childNodes_remove.
    destruct (decide (parentNode d n = Some q)) as [Hn|Hn].
    + rewrite list_filter_filter. apply list_filter_iff. intros c.
      rewrite parentNode_remove, elem_of_cons.
      destruct (decide (n = c)) as [->|Hne].
      * split; [intros [_ H]; congruence|].
        intros H. exfalso. apply H. split; [left; reflexivity | exact Hn].
      * split.
        -- intros [H1 H2] [[E|Hin] Hp]; [congruence | apply H1; tauto].
        -- intros H. split; [intros [Hin Hp]; apply H; tauto | congruence].
    + apply list_filter_iff. intros c.
      rewrite parentNode_remove, elem_of_cons.
      destruct (decide (n = c)) as [->|Hne].
      * split; intros _ [_ H]; [congruence | discriminate].
      * split.
        -- intros H [[E|Hin] Hp]; [congruence | apply H; tauto].
        -- intros H [Hin Hp]. apply H. tauto.
Qed.


Lemma removeElements_from_nothing (depth : nat) (d : Store) :
  removeElements_from depth Nothing d = Normal d.
Proof. destruct depth; reflexivity. Qed.

(** On a node without a numeric [length], [removeElements] takes the
    branch of a single node. *)
Lemma removeElements_from_node (depth : nat) (d : Store) (n : Node) :
  indexed d n = NoLength -> removeElements_from depth (OneNode n) d = Normal (remove n d).
Proof.
  intros H. destruct depth; cbn [removeElements_from];
    rewrite (isArrayLike_no_length d n H); apply removeElement_remove.
Qed.

Lemma each_removeElements_from (depth : nat) (ns : list Node) (d : Store) :
  (forall n, n ∈ ns -> indexed d n = NoLength) ->
  each (Some <$> ns) (fun e => removeElements_from depth (of_item e)) d
  = Normal (foldl (fun d' n => remove n d') d ns).
Proof.
  revert d. induction ns as [|n ns IH]; intros d H; [reflexivity|].
  cbn [fmap list_fmap each of_item].
  rewrite removeElements_from_node by apply H, list_elem_of_here.
  cbn [bind foldl]. apply IH. intros m Hm. rewrite indexed_remove.
  now apply H, list_elem_of_further.
Qed.

(** On nothing, on a node or on an array of nodes, none of them with a
    numeric [length], [removeElements] removes the nodes one after the
    other. *)
Lemma removeElements_remove_all (c : NodeCollection) (d : Store) :
  plain d c -> (forall n, n ∈ nodes_of c -> indexed d n = NoLength) ->
  removeElements c d = Normal (foldl (fun d' n => remove n d') d (nodes_of c)).
Proof.
  intros Hc Hns. unfold removeElements. destruct c as [|n|ns|q]; cbn [nodes_of foldl] in *.
  - reflexivity.
  - now apply removeElements_from_node.
  - cbn [removeElements_from]. rewrite isArrayLike_array. cbn [items].
    now apply each_removeElements_from.
  - destruct Hc.
Qed.

(** Whatever it is given, [removeElements] does not throw, and what holds
    of a store and still holds when a node has left its parent holds of
    the store it leaves. *)
Lemma removeElements_from_keeps (P : Store -> Prop) :
  (forall x d, P d -> P (remove x d)) ->
  forall depth nodes d,
    P d -> exists d', removeElements_from depth nodes d = Normal d' /\ P d'.
Proof.
  intros Hremove.
  assert (forall n d, P d -> exists d', removeElement n d = Normal d' /\ P d') as Hone.
  { intros n d Hd. rewrite removeElement_remove. eauto. }
  induction depth as [|k IH]; intros nodes d Hd; cbn [removeElements_from].
  - destruct (isArrayLike d nodes); [eauto|]. destruct nodes; eauto.
  - destruct (isArrayLike d nodes); [|destruct nodes; eauto].
    generalize (items d nodes). intros l. revert d Hd.
    induction l as [|e l IHl]; intros d Hd; cbn [each]; [eauto|].
    destruct (IH (of_item e) d Hd) as (d1 & -> & Hd1). cbn [bind]. now apply IHl.
Qed.

(** *** How deep the calls of [removeElements] nest *)

Lemma child_ancestors (d : Store) (a : nat) (x c : Node) :
  parentNode d c = Some x -> ancestors_at_least a d x -> ancestors_at_least (S a) d c.
Proof.
  intros Hc Hx. cbn [ancestors_at_least]. destruct a as [|a]; cbn [reaches_root]; rewrite Hc.
  - reflexivity.
  - exact Hx.
Qed.

Lemma forest_nested (d : Store) :
  forest d ->
  forall depth a x, (a + depth = size d)%nat -> ancestors_at_least a d x ->
                    nested_within depth d x.
Proof.
  intros Hf. induction depth as [|k IH]; intros a x Hsize Hx.
  - cbn [nested_within]. destruct (indexed d x); try exact I.
    destruct (childNodes d x) as [|c l] eqn:E; [reflexivity|exfalso].
    assert (parentNode d c = Some x) as Hc
      by (apply (forest_child d Hf); rewrite E; apply list_elem_of_here).
    pose proof (child_ancestors d a x c Hc Hx) as H. cbn [ancestors_at_least] in H.
    replace a with (size d) in H by lia. rewrite (forest_root d Hf c) in H. discriminate H.
  - cbn [nested_within]. destruct (indexed d x); try exact I.
    intros c Hc. apply (IH (S a)); [lia|].
    apply (child_ancestors d a x c); [|exact Hx]. now apply (forest_child d Hf).
Qed.

Lemma nested_within_remove (y : Node) (d : Store) :
  forall depth x, nested_within depth d x -> nested_within depth (remove y d) x.
Proof.
  assert (forall q c, c ∈ childNodes (remove y d) q -> c ∈ childNodes d q) as Hsub.
  { intros q c. rewrite childNodes_remove.
    destruct (decide (parentNode d y = Some q)); [|tauto].
    rewrite list_elem_of_filter. tauto. }
  induction depth as [|k IH]; intros x; cbn [nested_within]; rewrite indexed_remove;
    destruct (indexed d x); try tauto.
  - intros E. destruct (childNodes (remove y d) x) as [|c l] eqn:E'; [reflexivity|].
    assert (c ∈ childNodes d x) as H by (apply Hsub; rewrite E'; apply list_elem_of_here).
    rewrite E in H. inversion H.
  - intros H c Hc. apply IH, H, Hsub, Hc.
Qed.

Lemma removeElements_from_more (more : nat) :
  forall depth,
    (forall d x, nested_within depth d x ->
                 removeElements_from (depth + more) (OneNode x) d
                 = removeElements_from depth (OneNode x) d)
    /\ (forall l d, items_within depth d l ->
                    each l (fun e => removeElements_from (depth + more) (of_item e)) d
                    = each l (fun e => removeElements_from depth (of_item e)) d).
Proof.
  assert (forall depth,
            (forall d x, nested_within depth d x ->
                         removeElements_from (depth + more) (OneNode x) d
                         = removeElements_from depth (OneNode x) d) ->
            forall l d, items_within depth d l ->
                        each l (fun e => removeElements_from (depth + more) (of_item e)) d
                        = each l (fun e => removeElements_from depth (of_item e)) d) as Hitems.
  { intros depth Hnode. induction l as [|e l IHl]; intros d Hl; [reflexivity|].
    cbn [each].
    assert (removeElements_from (depth + more) (of_item e) d
            = removeElements_from depth (of_item e) d) as ->.
    { destruct e as [x|]; cbn [of_item].
      - apply Hnode, Hl, list_elem_of_here.
      - now rewrite !removeElements_from_nothing. }
    destruct (removeElements_from_keeps
                (fun d' => forall x, nested_within depth d x -> nested_within depth d' x)
                (fun y d' H x Hx => nested_within_remove y d' depth x (H x Hx))
                depth (of_item e) d (fun x Hx => Hx)) as (d1 & -> & Hd1).
    cbn [bind]. apply IHl. intros x Hx. apply Hd1, Hl. now apply list_elem_of_further. }
  assert (forall depth,
            (forall d x, nested_within depth d x ->
                         removeElements_from (depth + more) (OneNode x) d
                         = removeElements_from depth (OneNode x) d)) as Hnode.
  { induction depth as [|k IH]; intros d x Hx.
    - cbn [Nat.add]. destruct more as [|m]; [reflexivity|].
      cbn [removeElements_from]. destruct (isArrayLike d (OneNode x)); [|reflexivity].
      cbn [nested_within items] in *. destruct (indexed d x).
      + reflexivity.
      + clear Hx. induction n as [|n IHn]; [reflexivity|].
        cbn [replicate each of_item]. now rewrite removeElements_from_nothing.
      + now rewrite Hx.
    - cbn [Nat.add removeElements_from]. destruct (isArrayLike d (OneNode x)); [|reflexivity].
      apply (Hitems k IH). intros c Hc. cbn [nested_within items] in *.
      destruct (indexed d x).
      + inversion Hc.
      + apply elem_of_replicate in Hc as [Hc _]. discriminate Hc.
      + apply list_elem_of_fmap in Hc as (c' & E & Hc). injection E as <-. now apply Hx. }
  intros depth. split; [apply Hnode | apply Hitems, Hnode].
Qed.

(** In a well-formed tree the depth [removeElements] allows is never what
    ends its calls. *)
Lemma removeElements_depth (d : Store) (nodes : NodeCollection) (more : nat) :
  forest d -> removeElements_from (S (size d) + more) nodes d = removeElements nodes d.
Proof.
  intros Hf. unfold removeElements. cbn [Nat.add removeElements_from].
  destruct (isArrayLike d nodes); [|reflexivity].
  apply (removeElements_from_more more (size d)).
  intros x _. apply (forest_nested d Hf (size d) 0%nat); [lia | exact I].
Qed.

(** *** Character data *)

Lemma isArrayLike_characters (d : Store) (n : Node) (k : nat) :
  indexed d n = Characters k -> Z.of_nat k < 2 ^ 53 -> isArrayLike d (OneNode n) = true.
Proof.
  intros Hix Hk. unfold isArrayLike, value_of, items.
  rewrite Hix, length_replicate. now apply isArrayLike_count.
Qed.

Lemma removeElements_from_characters (depth : nat) (d : Store) (n : Node) (k : nat) :
  indexed d n = Characters k -> Z.of_nat k < 2 ^ 53 ->
  removeElements_from depth (OneNode n) d = Normal d.
Proof.
  intros Hix Hk. destruct depth as [|depth]; cbn [removeElements_from];
    rewrite (isArrayLike_characters d n k Hix Hk); [reflexivity|].
  unfold items. rewrite Hix. clear Hix Hk.
  induction k as [|k IH]; [reflexivity|].
  cbn [replicate each of_item]. rewrite removeElements_from_nothing. exact IH.
Qed.

Lemma each_removeElements_mixed (depth : nat) (ns : list Node) (d : Store) :
  (forall n, n ∈ ns ->
             indexed d n = NoLength
             \/ exists k, indexed d n = Characters k /\ Z.of_nat k < 2 ^ 53) ->
  each (Some <$> ns) (fun e => removeElements_from depth (of_item e)) d
  = Normal (foldl (fun d' n => remove n d') d (filter (fun n => indexed d n = NoLength) ns)).
Proof.
  revert d. induction ns as [|n ns IH]; intros d Hl; [reflexivity|].
  cbn [fmap list_fmap each of_item].
  destruct (Hl n (list_elem_of_here n ns)) as [Hn | (k & Hn & Hk)].
  - rewrite (removeElements_from_node _ d n Hn).
    cbn [bind]. rewrite filter_cons_True by exact Hn. cbn [foldl].
    rewrite IH.
    + f_equal. f_equal. apply list_filter_iff. intros c. now rewrite indexed_remove.
    + intros m Hm. rewrite indexed_remove. now apply Hl, list_elem_of_further.
  - rewrite (removeElements_from_characters _ d n k Hn Hk). cbn [bind].
    rewrite filter_cons_False by (rewrite Hn; discriminate).
    apply IH. intros m Hm. now apply Hl, list_elem_of_further.
Qed.

(** *** The claims *)







(** *** More on the tree operations *)

Lemma not_ancestor_ne (d : Store) (n p : Node) :
  inclusive_ancestor d n p = false -> n ≠ p.
Proof.
  intros H ->. unfold inclusive_ancestor in H.
  apply bool_decide_eq_false_1 in H. apply H.
  destruct (size d); cbn; apply list_elem_of_here.
Qed.

Lemma elements_allocated (d : Store) (ns : list Node) :
  (forall x, x ∈ ns -> element d x = true) ->
  forall x, x ∈ ns -> exists nd, d !! x = Some nd /\ nd_fragment nd = false.
Proof.
  intros Hel x Hx. specialize (Hel x Hx). unfold element in Hel.
  destruct (d !! x) as [nd|]; [|discriminate].
  exists nd. split; [reflexivity|]. now apply negb_true_iff.
Qed.

Lemma element_allocated (d : Store) (x : Node) : element d x = true -> is_Some (d !! x).
Proof. unfold element. destruct (d !! x); [eauto | discriminate]. Qed.




(** In a forest, removing [x] takes it out of every list of children. *)
Lemma childNodes_remove_forest (d : Store) (x q : Node) :
  forest d -> childNodes (remove x d) q = filter (fun c => c ≠ x) (childNodes d q).
Proof.
  intros Hf. rewrite childNodes_remove.
  destruct (decide (parentNode d x = Some q)) as [E|E]; [reflexivity|].
  symmetry. apply filter_ne_id. intros Hin. apply E. now apply (forest_child d Hf).
Qed.

Lemma filter_ne_cons_self (x : Node) (t : list Node) :
  filter (fun c => c ≠ x) (x :: t) = filter (fun c => c ≠ x) t.
Proof. now rewrite filter_cons_False by tauto. Qed.






(** Appending a detached element and removing it again gives the store
    back. *)
Lemma append_then_remove (d : Store) (p n : Node) :
  forest d -> is_Some (d !! p) -> element d n = true -> indexed d n = NoLength ->
  parentNode d n = None -> inclusive_ancestor d n p = false ->
  bind (appendChildren (Some p) (OneNode n) d) (removeElements (OneNode n)) = Normal d.
Proof.
  intros Hf [ndp Hp] Hel Hix Hpar Hanc.
  unfold element in Hel. destruct (d !! n) as [nd|] eqn:Hn; [|discriminate].
  apply negb_true_iff in Hel.
  pose proof (not_ancestor_ne d n p Hanc) as Hnp.
  unfold appendChildren. rewrite (before_on_node d p n None Hix).
  change (Dom.insertBefore p n None d) with (appendChild p n d).
  rewrite (appendChild_element d p n ndp nd Hp Hn Hel Hanc).
  rewrite (remove_unparented n d Hpar). cbn [bind]. unfold removeElements.
  rewrite removeElements_from_node
    by now rewrite indexed_set_parent, indexed_set_children.
  f_equal.
  assert (n ∉ childNodes d p) as Hnl.
  { intros Hin. apply (forest_child d Hf) in Hin. congruence. }
  unfold remove. rewrite parentNode_set_parent, decide_True by reflexivity.
  rewrite lookup_set_children, decide_False by congruence. rewrite Hn.
  rewrite childNodes_set_parent, childNodes_set_children, decide_True by reflexivity.
  rewrite Hp. rewrite (filter_ne_snoc n _ Hnl).
  apply map_eq. intros y.
  unfold parentNode in Hpar. rewrite Hn in Hpar.
  unfold childNodes. rewrite Hp.
  destruct (decide (n = y)) as [<-|Hny]; [|destruct (decide (p = y)) as [<-|Hpy]].
  all: repeat (rewrite ?lookup_set_parent, ?lookup_set_children;
               rewrite ?(decide_True (P := n = n)), ?(decide_True (P := p = p)) by reflexivity;
               rewrite ?(decide_False (P := n = p)), ?(decide_False (P := p = n)),
                 ?(decide_False (P := n = y)), ?(decide_False (P := p = y)) by congruence).
  - rewrite Hn. cbn. destruct nd as [fr pa ch ix]. cbn in *. now subst.
  - rewrite Hp. cbn. now destruct ndp.
  - reflexivity.
Qed.

Lemma remove_all_unparented (ns : list Node) (d : Store) :
  (forall n, n ∈ ns -> parentNode d n = None) ->
  foldl (fun d' n => remove n d') d ns = d.
Proof.
  induction ns as [|n ns IH]; intros H; [reflexivity|].
  cbn [foldl]. rewrite remove_unparented by apply H, list_elem_of_here.
  apply IH. intros m Hm. now apply H, list_elem_of_further.
Qed.

Lemma reaches_root_shortened (d d' : Store) :
  (forall y, parentNode d' y = parentNode d y \/ parentNode d' y = None) ->
  forall fuel x, reaches_root fuel d x = true -> reaches_root fuel d' x = true.
Proof.
  intros H. induction fuel as [|k IH]; intros x Hr.
  - cbn in Hr |- *. destruct (H x) as [-> | ->]; [exact Hr | reflexivity].
  - cbn in Hr |- *. destruct (H x) as [-> | ->]; [|reflexivity].
    destruct (parentNode d x) as [q|]; [now apply IH | reflexivity].
Qed.

Lemma size_set_parent (x : Node) (q : option Node) (d : Store) :
  size (set_parent x q d) = size d.
Proof.
  unfold set_parent.
  rewrite <- (size_dom (D := gset Node) (alter _ x d)), <- (size_dom (D := gset Node) d).
  now rewrite dom_alter_L.
Qed.

Lemma size_set_children (x : Node) (l : list Node) (d : Store) :
  size (set_children x l d) = size d.
Proof.
  unfold set_children.
  rewrite <- (size_dom (D := gset Node) (alter _ x d)), <- (size_dom (D := gset Node) d).
  now rewrite dom_alter_L.
Qed.

Lemma size_remove (x : Node) (d : Store) : size (remove x d) = size d.
Proof.
  unfold remove. destruct (parentNode d x); [|reflexivity].
  now rewrite size_set_parent, size_set_children.
Qed.

Lemma remove_forest (x : Node) (d : Store) : forest d -> forest (remove x d).
Proof.
  intros Hf. split.
  - intros q c Hin. rewrite (childNodes_remove_forest d x q Hf) in Hin.
    apply list_elem_of_filter in Hin as [Hne Hin].
    rewrite parentNode_remove, decide_False by congruence.
    now apply (forest_child d Hf).
  - intros q c Hpar. rewrite parentNode_remove in Hpar.
    destruct (decide (x = c)) as [->|Hne]; [discriminate|].
    rewrite (childNodes_remove_forest d x q Hf). apply list_elem_of_filter.
    split; [congruence|]. now apply (forest_parent d Hf).
  - intros q. rewrite (childNodes_remove_forest d x q Hf).
    apply NoDup_filter, (forest_nodup d Hf).
  - intros y. rewrite size_remove.
    apply (reaches_root_shortened d); [|apply (forest_root d Hf)].
    intros z. rewrite parentNode_remove. destruct (decide (x = z)); tauto.
Qed.

Lemma remove_all_forest (ns : list Node) (d : Store) :
  forest d -> forest (foldl (fun d' n => remove n d') d ns).
Proof.
  revert d. induction ns as [|n ns IH]; intros d Hf; [exact Hf|].
  cbn [foldl]. apply IH. now apply remove_forest.
Qed.

Lemma indexed_remove_all (ns : list Node) (d : Store) (y : Node) :
  indexed (foldl (fun d' n => remove n d') d ns) y = indexed d y.
Proof.
  revert d. induction ns as [|n ns IH]; intros d; [reflexivity|].
  cbn [foldl]. now rewrite IH, indexed_remove.
Qed.



Lemma childNodes_insert_other (xs : list Node) (p : Node) (child : option Node)
  (d : Store) (q : Node) :
  q ≠ p -> childNodes (insert xs p child d) q = childNodes d q.
Proof.
  intros Hq. unfold insert.
  rewrite childNodes_set_parents, childNodes_set_children. now rewrite decide_False by congruence.
Qed.

(** *** The loop of [before] ends by itself *)

Lemma each_from_enough {St : Type} (inv : St -> Prop) (read : St -> list (option Node))
  (callback : option Node -> St -> Completion St) :
  (forall e s s', inv s -> callback e s = Normal s' ->
                  inv s' /\ (length (read s') <= length (read s))%nat) ->
  forall turns i s more,
    inv s -> (length (read s) <= i + turns)%nat ->
    each_from (turns + more) i read callback s = each_from turns i read callback s.
Proof.
  intros Hstep. induction turns as [|k IH]; intros i s more Hs Hlen.
  - cbn [each_from Nat.add]. destruct more; [reflexivity|]. cbn [each_from].
    rewrite (proj2 (lookup_ge_None _ _)) by lia. reflexivity.
  - cbn [Nat.add each_from]. destruct (read s !! i) as [e|] eqn:E; [|reflexivity].
    destruct (callback e s) as [s'|err] eqn:Ecb; [|reflexivity]. cbn [bind].
    destruct (Hstep e s s' Hs Ecb) as [Hs' Hle]. apply IH; [exact Hs'|lia].
Qed.

Lemma indexed_set_parents (xs : list Node) (q : option Node) (d : Store) (y : Node) :
  indexed (foldr (fun x d' => set_parent x q d') d xs) y = indexed d y.
Proof.
  induction xs as [|x xs IH]; [reflexivity|].
  cbn [foldr]. now rewrite indexed_set_parent.
Qed.

Lemma indexed_insert (xs : list Node) (p : Node) (child : option Node) (d : Store) (y : Node) :
  indexed (insert xs p child d) y = indexed d y.
Proof. unfold insert. now rewrite indexed_set_parents, indexed_set_children. Qed.

(** [f.appendChild(x)] changes no [length] of a kind, and makes the
    children of no other node than [f] more. *)
Lemma appendChild_shrinks (f x : Node) (d d' : Store) :
  appendChild f x d = Normal d' ->
  (forall y, indexed d' y = indexed d y)
  /\ (forall q, q ≠ f -> (length (childNodes d' q) <= length (childNodes d q))%nat).
Proof.
  unfold appendChild, Dom.insertBefore.
  destruct (d !! f) as [ndf|]; [|discriminate].
  destruct (d !! x) as [nd|] eqn:Hx; [|discriminate].
  destruct (ensure_pre_insertion_validity f x None d); [|discriminate].
  cbn [bind]. rewrite decide_False by discriminate.
  destruct (nd_fragment nd); intros E; injection E as <-.
  - split.
    + intros y. now rewrite indexed_insert, indexed_set_children.
    + intros q Hq. rewrite childNodes_insert_other by exact Hq.
      rewrite childNodes_set_children. destruct (decide (x = q)) as [->|]; [|lia].
      rewrite Hx. cbn. lia.
  - split.
    + intros y. now rewrite indexed_insert, indexed_remove.
    + intros q Hq. rewrite childNodes_insert_other by exact Hq.
      rewrite childNodes_remove.
      destruct (decide (parentNode d x = Some q)); [apply length_filter | lia].
Qed.

Lemma before_item_shrinks (f : Node) (source : NodeCollection) :
  match source with
  | OneNode q | ChildNodes q => q ≠ f
  | _ => True
  end ->
  forall e s s',
    before_item f e s = Normal s' ->
    (length (items (fst s') source) <= length (items (fst s) source))%nat.
Proof.
  intros Hq [x|] [d a] [d' a'] H; [|discriminate H].
  cbn [before_item before_callback] in H.
  destruct (appendChild f x d) as [d1|] eqn:E; [|discriminate H].
  cbn [bind] in H. injection H as <- _.
  destruct (appendChild_shrinks f x d d1 E) as [Hix Hlen]. cbn [fst].
  destruct source as [|n|ns|q]; cbn [items].
  - lia.
  - rewrite Hix. destruct (indexed d n); [lia | lia |].
    rewrite !length_fmap. now apply Hlen.
  - lia.
  - rewrite !length_fmap. now apply Hlen.
Qed.

(** The loop of [before] ends by itself: the turns it is given, as many
    as the collection has items when it starts, are never what ends
    it. *)
Lemma before_loop_ends (d : Store) (source : NodeCollection) (anchor : option Node)
  (more : nat) :
  let f := fst (createDocumentFragment d) in
  let d0 := snd (createDocumentFragment d) in
  each_from (length (items d0 source) + more) 0
    (fun s => items (fst s) source) (before_item f) (d0, anchor)
  = each_live (fun s => items (fst s) source) (before_item f) (d0, anchor).
Proof.
  intros f d0. unfold each_live. cbn [fst].
  destruct (items d0 source) as [|e l] eqn:E.
  - cbn [length Nat.add each_from]. destruct more; [reflexivity|].
    cbn [each_from fst]. now rewrite E.
  - rewrite <- E.
    apply (each_from_enough (fun _ => True) (fun s => items (fst s) source)); [| exact I | cbn [fst]; lia].
    intros e0 s s' _ H. split; [exact I|].
    apply (before_item_shrinks f source) with (e := e0); [|exact H].
    assert (d0 !! f = Some (mkNodeData true None [] NoLength)) as Hf
      by apply lookup_insert_eq.
    destruct source as [|n|ns|q]; try exact I.
    + intros ->. cbn [items] in E. unfold indexed in E. rewrite Hf in E. discriminate E.
    + intros ->. cbn [items] in E. unfold childNodes in E. rewrite Hf in E. discriminate E.
Qed.

(** *** The loop of [before] over a list of the document *)

Lemma indexed_moved (f : Node) (done : list Node) (d : Store) (y : Node) :
  indexed (moved f done d) y = if decide (f = y) then NoLength else indexed d y.
Proof.
  unfold indexed. rewrite lookup_moved. destruct (decide (f = y)); [reflexivity|].
  now destruct (d !! y).
Qed.

Lemma filter_ne_middle (e : Node) (l1 l2 : list Node) :
  NoDup (l1 ++ e :: l2) -> filter (fun c => c ≠ e) (l1 ++ e :: l2) = l1 ++ l2.
Proof.
  intros H. apply NoDup_app in H as (_ & H1 & H2). apply NoDup_cons in H2 as [H2 _].
  rewrite filter_app, filter_ne_cons_self.
  rewrite (filter_ne_id e l1) by (intros Hin; apply (H1 e Hin), list_elem_of_here).
  now rewrite (filter_ne_id e l2).
Qed.

Section Live.
Variables (d : Store) (f q : Node) (read : Store * option Node -> list (option Node)).
Hypothesis Hforest : forest d.
Hypothesis Hfresh : d !! f = None.
Hypothesis Hfq : f ≠ q.
Hypothesis Helements : forall x, x ∈ childNodes d q -> element d x = true.
Hypothesis Hread : forall done a, read (moved f done d, a) = Some <$> childNodes (moved f done d) q.

(** While the nodes of the list leave it for the fragment, the loop
    passes over every second of them: [skipped] are the nodes passed
    over, [rest] those not reached yet, [done] those in the fragment. *)
Lemma each_from_live (turns : nat) :
  forall skipped rest done a,
    filter (fun c => c ∉ done) (childNodes d q) = skipped ++ rest ->
    (length rest <= turns)%nat ->
    each_from turns (length skipped) read (before_item f) (moved f done d, a)
    = each (every_second rest) (before_callback f) (moved f done d, a).
Proof.
  induction turns as [|k IH]; intros skipped rest done a Hkids Hlen.
  - destruct rest; [reflexivity | cbn in Hlen; lia].
  - cbn [each_from]. rewrite Hread, childNodes_moved, Hkids by exact Hfq.
    rewrite list_lookup_fmap.
    destruct rest as [|e rest].
    + rewrite lookup_ge_None_2 by (rewrite length_app; cbn; lia). reflexivity.
    + rewrite (list_lookup_middle skipped rest e (length skipped) eq_refl).
      cbn [fmap option_fmap option_map before_item every_second each].
      assert (NoDup (skipped ++ e :: rest)) as Hnd
        by (rewrite <- Hkids; apply NoDup_filter, (forest_nodup d Hforest)).
      assert (e ∈ filter (fun c => c ∉ done) (childNodes d q)) as He
        by (rewrite Hkids, elem_of_app, elem_of_cons; tauto).
      apply list_elem_of_filter in He as [Hed Heq].
      destruct (elements_allocated d (childNodes d q) Helements e Heq) as (nd & Hnde & Hfrag).
      set (a' := if decide (Some e = a) then previousSibling (moved f done d) e else a).
      assert (before_callback f e (moved f done d, a)
              = Normal (moved f (done ++ [e]) d, a')) as Hcb.
      { unfold before_callback.
        now rewrite (appendChild_moved d f e done nd Hforest Hfresh Hed Hnde Hfrag). }
      rewrite Hcb. cbn [bind].
      assert (filter (fun c => c ∉ done ++ [e]) (childNodes d q) = skipped ++ rest) as Hkids'
        by (rewrite filter_notin_snoc, Hkids; now apply filter_ne_middle).
      destruct rest as [|e2 rest].
      * destruct k as [|k]; [reflexivity|]. cbn [each_from each].
        rewrite Hread, childNodes_moved, Hkids', app_nil_r by exact Hfq.
        rewrite lookup_ge_None_2 by (rewrite length_fmap; lia). reflexivity.
      * replace (S (length skipped)) with (length (skipped ++ [e2]))
          by (rewrite length_app; cbn; lia).
        apply IH.
        -- now rewrite <- app_assoc.
        -- cbn [length] in Hlen. lia.
Qed.

End Live.





Lemma tree_store_forest : forest Tree.store.
Proof. apply forestb_forest. vm_compute. reflexivity. Qed.

(** *** Further properties of the node utilities *)







(** X11: [insertBefore(node, nodes)] for a node whose parent [p] is an
    element, with [parent(node)] read as the parent of the node: an array
    of distinct element nodes, none of them [p] or an ancestor of [p], is
    put, in its order, where [node] stands among the children of [p]:
    immediately before [node], or in the place of [node] when [node] is
    one of them. *)
Theorem insertBefore_puts_before (d : Store) (p node : Node) (pre post ns : list Node) :
  forest d -> element d p = true -> childNodes d p = pre ++ node :: post ->
  NoDup ns ->
  (forall x, x ∈ ns -> element d x = true) ->
  (forall x, x ∈ ns -> inclusive_ancestor d x p = false) ->
  exists d',
    Manipulation.insertBefore (Some node) (ArrayLike ns) d = Normal d'
    /\ childNodes d' p
       = filter (fun y => y ∉ ns) pre ++ ns ++ filter (fun y => y ∉ ns) (node :: post)
    /\ (node ∉ ns ->
        childNodes d' p
        = filter (fun y => y ∉ ns) pre ++ ns ++ node :: filter (fun y => y ∉ ns) post)
    /\ (forall x, x ∈ ns -> parentNode d' x = Some p).
Proof.
  intros Hf Hpel Hkids Hnd Hel Hanc.
  pose proof (element_allocated d p Hpel) as Hp.
  assert (parentNode d node = Some p) as Hpar.
  { apply (forest_child d Hf). rewrite Hkids, elem_of_app, elem_of_cons. tauto. }
  destruct (before_array d p pre (node :: post) ns Hf Hp Hkids Hnd) as (d' & H1 & H2 & H3).
  - now apply elements_allocated.
  - exact Hanc.
  - exists d'. split; [|split; [exact H2|split; [|exact H3]]].
    + unfold Manipulation.insertBefore, parent. now rewrite Hpar.
    + intros Hnode. rewrite H2. now rewrite (filter_cons_True _ node) by exact Hnode.
Qed.

Lemma insertBefore_puts_before_witness :
  exists d',
    Manipulation.insertBefore (Some Tree.d) (ArrayLike [Tree.a; Tree.b]) Tree.store = Normal d'
    /\ childNodes d' Tree.p = [Tree.c; Tree.a; Tree.b; Tree.d].
Proof.
  destruct (insertBefore_puts_before Tree.store Tree.p Tree.d [Tree.c] [] [Tree.a; Tree.b]
              tree_store_forest)
    as (d' & H1 & H2 & _).
  - vm_compute. reflexivity.
  - vm_compute. reflexivity.
  - apply (bool_decide_unpack _). vm_compute. exact I.
  - apply Forall_forall. repeat constructor.
  - apply Forall_forall. repeat constructor.
  - exists d'. split; [exact H1|]. rewrite H2. vm_compute. reflexivity.
Defined.

(** X12: [insertAfter(node, nodes)] for a node whose parent [p] is an
    element, with [parent(node)] read as the parent of the node: an array
    of distinct element nodes, none of them [p] or an ancestor of [p], is
    put, in its order, immediately before the next sibling of [node], so
    immediately after [node] when [node] is not one of them. *)
Theorem insertAfter_puts_after (d : Store) (p node : Node) (pre post ns : list Node) :
  forest d -> element d p = true -> childNodes d p = pre ++ node :: post ->
  NoDup ns ->
  (forall x, x ∈ ns -> element d x = true) ->
  (forall x, x ∈ ns -> inclusive_ancestor d x p = false) ->
  exists d',
    insertAfter (Some node) (ArrayLike ns) d = Normal d'
    /\ childNodes d' p
       = filter (fun y => y ∉ ns) (pre ++ [node]) ++ ns ++ filter (fun y => y ∉ ns) post
    /\ (node ∉ ns ->
        childNodes d' p
        = filter (fun y => y ∉ ns) pre ++ node :: ns ++ filter (fun y => y ∉ ns) post)
    /\ (forall x, x ∈ ns -> parentNode d' x = Some p).
Proof.
  intros Hf Hpel Hkids Hnd Hel Hanc.
  pose proof (element_allocated d p Hpel) as Hp.
  assert (parentNode d node = Some p) as Hpar.
  { apply (forest_child d Hf). rewrite Hkids, elem_of_app, elem_of_cons. tauto. }
  assert (nextSibling d node = head post) as Hnext.
  { unfold nextSibling. rewrite Hpar, Hkids. apply after_in_app.
    pose proof (forest_nodup d Hf p) as H. rewrite Hkids in H.
    apply NoDup_app in H as (_ & H & _). intros Hin.
    apply (H node Hin), list_elem_of_here. }
  destruct (before_array d p (pre ++ [node]) post ns Hf Hp) as (d' & H1 & H2 & H3).
  - now rewrite <- app_assoc.
  - exact Hnd.
  - now apply elements_allocated.
  - exact Hanc.
  - exists d'. split; [|split; [exact H2|split; [|exact H3]]].
    + unfold insertAfter, parent. now rewrite Hpar, Hnext.
    + intros Hnode. rewrite H2, filter_app.
      rewrite (filter_cons_True _ node) by exact Hnode.
      cbn. now rewrite <- app_assoc.
Qed.

Lemma insertAfter_puts_after_witness :
  exists d',
    insertAfter (Some Tree.c) (ArrayLike [Tree.a; Tree.b]) Tree.store = Normal d'
    /\ childNodes d' Tree.p = [Tree.c; Tree.a; Tree.b; Tree.d].
Proof.
  destruct (insertAfter_puts_after Tree.store Tree.p Tree.c [] [Tree.d] [Tree.a; Tree.b]
              tree_store_forest)
    as (d' & H1 & H2 & _).
  - vm_compute. reflexivity.
  - vm_compute. reflexivity.
  - apply (bool_decide_unpack _). vm_compute. exact I.
  - apply Forall_forall. repeat constructor.
  - apply Forall_forall. repeat constructor.
  - exists d'. split; [exact H1|]. rewrite H2. vm_compute. reflexivity.
Defined.





(** X15: [removeElements] is idempotent on nodes without a numeric
    [length]: for such a node, or an array of such nodes, or nothing, it
    does not throw, and removing the same nodes once more leaves the store
    as the first removal left it. *)
Theorem removeElements_is_idempotent (c : NodeCollection) (d : Store) :
  plain d c -> (forall n, n ∈ nodes_of c -> indexed d n = NoLength) ->
  exists d',
    removeElements c d = Normal d'
    /\ removeElements c d' = Normal d'.
Proof.
  intros Hc Hix. rewrite (removeElements_remove_all c d Hc Hix).
  eexists. split; [reflexivity|].
  rewrite removeElements_remove_all.
  - f_equal. apply remove_all_unparented. intros n Hn.
    rewrite remove_all_parent. now rewrite decide_True.
  - destruct c; cbn [plain] in *; try exact Hc. now rewrite indexed_remove_all.
  - intros n Hn. rewrite indexed_remove_all. now apply Hix.
Qed.

Lemma removeElements_is_idempotent_witness :
  exists d',
    removeElements (ArrayLike [Tree.c; Tree.a; Tree.d]) Tree.store = Normal d'
    /\ removeElements (ArrayLike [Tree.c; Tree.a; Tree.d]) d' = Normal d'
    /\ childNodes d' Tree.p = [].
Proof.
  destruct (removeElements_is_idempotent (ArrayLike [Tree.c; Tree.a; Tree.d]) Tree.store)
    as (d' & H1 & H2).
  - exact I.
  - apply Forall_forall. repeat constructor.
  - exists d'. split; [exact H1|]. split; [exact H2|].
    vm_compute in H1. injection H1 as <-. vm_compute. reflexivity.
Defined.

(** X16: [removeElements] keeps the tree well formed, whatever it is
    given ([null], a node with or without a numeric [length], an array, a
    list of the document): on a store in which parents and children
    agree, no child is listed twice and every chain of parents ends, it
    does not throw and the store after the call is such a store again. *)
Theorem removeElements_keeps_the_forest (c : NodeCollection) (d : Store) :
  forest d -> exists d', removeElements c d = Normal d' /\ forest d'.
Proof.
  intros Hf. apply (removeElements_from_keeps forest); [|exact Hf].
  intros x d0. apply remove_forest.
Qed.

Lemma removeElements_keeps_the_forest_witness :
  (exists d',
     removeElements (ArrayLike [Tree.c; Tree.a]) Tree.store = Normal d'
     /\ forest d'
     /\ childNodes d' Tree.p = [Tree.d])
  /\ (exists d',
        removeElements (ArrayLike [Tree.text; Tree.select; Tree.c]) Tree.with_text = Normal d'
        /\ forest d'
        /\ childNodes d' Tree.p = [Tree.text]
        /\ childNodes d' Tree.select = []).
Proof.
  split.
  - destruct (removeElements_keeps_the_forest (ArrayLike [Tree.c; Tree.a]) Tree.store
                tree_store_forest) as (d' & H1 & H2).
    exists d'. split; [exact H1|]. split; [exact H2|].
    vm_compute in H1. injection H1 as <-. vm_compute. reflexivity.
  - destruct (removeElements_keeps_the_forest
                (ArrayLike [Tree.text; Tree.select; Tree.c]) Tree.with_text)
      as (d' & H1 & H2).
    + apply forestb_forest. vm_compute. reflexivity.
    + exists d'. split; [exact H1|]. split; [exact H2|].
      vm_compute in H1. injection H1 as <-. split; vm_compute; reflexivity.
Defined.







(** X20: [before] with an array that holds the parent or one of its
    ancestors throws.  The nodes of the array are appended to the new
    fragment first, which takes the ancestor, and the parent below it,
    into the fragment; [parent.insertBefore(fragment, anchor)] then throws
    the [HierarchyRequestError] of the DOM. *)
Theorem before_array_of_ancestor_throws (d : Store) (p : Node) (pre post ns : list Node)
  (n : Node) :
  forest d -> is_Some (d !! p) -> childNodes d p = pre ++ post ->
  NoDup ns -> (forall x, x ∈ ns -> element d x = true) ->
  n ∈ ns -> inclusive_ancestor d n p = true ->
  before (Some p) (head post) (ArrayLike ns) d = Throw HierarchyRequestError.
Proof.
  intros Hforest Hp Hkids Hnd Hel Hn Hanc.
  set (f := fresh (dom d)).
  assert (d !! f = None) as Hfresh by (apply not_elem_of_dom, is_fresh).
  assert (f ≠ p) as Hfp by (intros E; rewrite E in Hfresh; rewrite Hfresh in Hp; now destruct Hp).
  pose proof (elements_allocated d ns Hel) as Hel'.
  rewrite before_on_array.
  assert (createDocumentFragment d = (f, moved f [] d)) as ->
    by (unfold f; rewrite moved_nil; reflexivity).
  cbn [fst snd].
  rewrite <- (anchor_of_nil pre post) at 1.
  rewrite (each_before_callback d p f pre post Hforest Hfresh Hkids ns [] Hfp Hnd Hel').
  cbn [bind app]. unfold Dom.insertBefore.
  rewrite (lookup_moved f ns d p), decide_False by exact Hfp.
  destruct Hp as [ndp Hp]. rewrite Hp. cbn [fmap option_fmap option_map].
  rewrite (lookup_moved f ns d f), decide_True by reflexivity.
  unfold ensure_pre_insertion_validity.
  assert (inclusive_ancestor (moved f ns d) f p = true) as ->; [|reflexivity].
  unfold inclusive_ancestor in Hanc |- *. apply bool_decide_eq_true_2.
  apply bool_decide_eq_true_1 in Hanc.
  rewrite size_moved by exact Hfresh.
  apply (chain_moved_hits d f ns n Hfresh); [|exact Hn|exact Hanc].
  intros y Hy. destruct (Hel' y Hy) as (nd & E & _). eauto.
Qed.

Lemma before_array_of_ancestor_throws_witness :
  before (Some Tree.c) None (ArrayLike [Tree.a; Tree.p]) Tree.store
  = Throw HierarchyRequestError.
Proof.
  apply (before_array_of_ancestor_throws Tree.store Tree.c [] [] [Tree.a; Tree.p] Tree.p
           tree_store_forest).
  - vm_compute. eauto.
  - vm_compute. reflexivity.
  - apply (bool_decide_unpack _). vm_compute. exact I.
  - apply Forall_forall. repeat constructor.
  - apply list_elem_of_further, list_elem_of_here.
  - vm_compute. reflexivity.
Defined.

(** X25: character data is not inserted.  A text node or a comment has
    the length of its data as [length] and nothing at its indices, so
    [before] takes it for a list: with data that is not empty the first
    item, [undefined], goes to [fragment.appendChild], which throws a
    [TypeError], whatever the parent and the anchor; with empty data the
    call is the one with the empty array, which inserts nothing.  The
    length is below [2^53], as every length is. *)
Theorem before_character_data_throws (d : Store) (p n : Node) (anchor : option Node) (k : nat) :
  indexed d n = Characters k -> Z.of_nat k < 2 ^ 53 ->
  before (Some p) anchor (OneNode n) d
  = match k with
    | O => before (Some p) anchor (ArrayLike []) d
    | S _ => Throw TypeError
    end.
Proof.
  intros Hix Hk. rewrite before_on_array. unfold before.
  rewrite truthy_node, (isArrayLike_characters d n k Hix Hk).
  destruct (createDocumentFragment d) as [f d0] eqn:Hcreate. cbn [fst snd].
  assert (indexed d0 n = Characters k) as Hix0.
  { unfold createDocumentFragment in Hcreate. injection Hcreate as <- <-.
    unfold indexed in Hix |- *. rewrite lookup_insert_ne; [exact Hix|].
    intros E. rewrite <- E in Hix.
    rewrite (proj1 (not_elem_of_dom d (fresh (dom d))) (is_fresh _)) in Hix. discriminate Hix. }
  unfold each_live. cbn [fst items]. rewrite Hix0.
  destruct k as [|k]; [reflexivity|].
  cbn [replicate length each_from fst]. rewrite Hix0. reflexivity.
Qed.

Lemma before_character_data_throws_witness :
  before (Some Tree.c) None (OneNode Tree.text) Tree.with_text = Throw TypeError
  /\ appendChildren (Some Tree.c) (OneNode Tree.text) Tree.with_text = Throw TypeError.
Proof.
  split.
  - apply (before_character_data_throws Tree.with_text Tree.c Tree.text None 2);
      [vm_compute; reflexivity | lia].
  - apply (before_character_data_throws Tree.with_text Tree.c Tree.text None 2);
      [vm_compute; reflexivity | lia].
Defined.

(** X26: [removeElements] on an array that mixes nodes without a numeric
    [length] and character data (text nodes, comments, of a length below
    [2^53]): it does not throw, the first are taken out of their parents,
    and the character data stays where it is, as does every node that is
    not in the array; the children of a node are those it had, in their
    order, less the nodes of the first kind of the array. *)
Theorem removeElements_skips_character_data (d : Store) (ns : list Node) :
  (forall n, n ∈ ns ->
             indexed d n = NoLength
             \/ exists k, indexed d n = Characters k /\ Z.of_nat k < 2 ^ 53) ->
  exists d',
    removeElements (ArrayLike ns) d = Normal d'
    /\ (forall n, n ∈ ns -> indexed d n = NoLength -> parentNode d' n = None)
    /\ (forall n, indexed d n ≠ NoLength -> parentNode d' n = parentNode d n)
    /\ (forall n, n ∉ ns -> parentNode d' n = parentNode d n)
    /\ (forall q, childNodes d' q
                  = filter (fun c => ~ ((c ∈ ns /\ indexed d c = NoLength)
                                        /\ parentNode d c = Some q))
                      (childNodes d q)).
Proof.
  intros Hns.
  set (gone := filter (fun n => indexed d n = NoLength) ns).
  exists (foldl (fun d' n => remove n d') d gone).
  split; [|split; [|split; [|split]]].
  - unfold removeElements. cbn [removeElements_from]. rewrite isArrayLike_array.
    cbn [items]. now apply each_removeElements_mixed.
  - intros n Hn Hix. rewrite remove_all_parent. rewrite decide_True; [reflexivity|].
    apply list_elem_of_filter. tauto.
  - intros n Hix. rewrite remove_all_parent. rewrite decide_False; [reflexivity|].
    intros Hg. apply list_elem_of_filter in Hg. tauto.
  - intros n Hn. rewrite remove_all_parent. rewrite decide_False; [reflexivity|].
    intros Hg. apply list_elem_of_filter in Hg. tauto.
  - intros q. rewrite remove_all_children. apply list_filter_iff. intros c.
    unfold gone. rewrite list_elem_of_filter. tauto.
Qed.

Lemma removeElements_skips_character_data_witness :
  exists d',
    removeElements (ArrayLike [Tree.text; Tree.c]) Tree.with_text = Normal d'
    /\ parentNode d' Tree.c = None
    /\ parentNode d' Tree.text = Some Tree.p
    /\ childNodes d' Tree.p = [Tree.text].
Proof.
  destruct (removeElements_skips_character_data Tree.with_text [Tree.text; Tree.c])
    as (d' & H1 & H2 & H3 & _ & H5).
  - intros n Hn. apply elem_of_cons in Hn as [-> | Hn].
    + right. exists 2%nat. split; [vm_compute; reflexivity | lia].
    + apply list_elem_of_singleton in Hn as ->. left. vm_compute. reflexivity.
  - exists d'. split; [exact H1|]. split; [|split].
    + apply H2; [apply list_elem_of_further, list_elem_of_here | vm_compute; reflexivity].
    + rewrite H3 by (vm_compute; discriminate). vm_compute. reflexivity.
    + rewrite H5. vm_compute. reflexivity.
Defined.

(** X27: a list that the document keeps up to date gives every second of
    its nodes.  For a well-formed tree, [before] with the list
    [q.childNodes], or with a node [q] that has its child nodes at its
    indices, is the call with the array of the first, third, fifth, ...
    child of [q]: [each] reads the length and the item anew at every turn
    while the nodes leave the list for the fragment.  (The children of a
    node are no fragments, and fewer than [2^53].) *)
Theorem before_takes_every_second (d : Store) (p q : Node) (anchor : option Node)
  (source : NodeCollection) :
  forest d -> lists_children d source q ->
  (forall x, x ∈ childNodes d q -> element d x = true) ->
  Z.of_nat (length (childNodes d q)) < 2 ^ 53 ->
  before (Some p) anchor source d
  = before (Some p) anchor (ArrayLike (every_second (childNodes d q))) d.
Proof.
  intros Hforest Hsource Hel Hsmall.
  set (f := fresh (dom d)).
  assert (d !! f = None) as Hfresh by (apply not_elem_of_dom, is_fresh).
  assert (createDocumentFragment d = (f, moved f [] d)) as Hcreate
    by (unfold f; rewrite moved_nil; reflexivity).
  assert (items d source = Some <$> childNodes d q) as Hitems.
  { destruct Hsource as [-> | [-> Hix]]; cbn [items]; [reflexivity | now rewrite Hix]. }
  assert (truthy d source = true) as Htruthy
    by (destruct Hsource as [-> | [-> _]]; reflexivity).
  assert (isArrayLike d source = true) as Harray.
  { unfold isArrayLike, value_of. rewrite Hitems, length_fmap.
    destruct Hsource as [-> | [-> Hix]]; [|rewrite Hix]; now apply isArrayLike_count. }
  rewrite before_on_array. unfold before.
  rewrite Htruthy, Harray, Hcreate. cbn [fst snd]. f_equal.
  unfold each_live. cbn [fst].
  destruct (decide (childNodes d q = [])) as [Hkids|Hkids].
  { rewrite Hkids. cbn [every_second each].
    assert (items (moved f [] d) source = []) as ->; [|reflexivity].
    destruct Hsource as [-> | [-> Hix]]; cbn [items].
    - unfold childNodes in Hkids |- *. rewrite lookup_moved.
      destruct (decide (f = q)) as [|_]; [reflexivity|].
      destruct (d !! q); cbn; [now rewrite Hkids | reflexivity].
    - rewrite indexed_moved. destruct (decide (f = q)) as [|Hne]; [reflexivity|].
      rewrite Hix, childNodes_moved, Hkids by exact Hne. reflexivity. }
  assert (f ≠ q) as Hfq.
  { intros <-. apply Hkids. unfold childNodes. now rewrite Hfresh. }
  assert (forall done (a : option Node),
            items (fst (moved f done d, a)) source
            = Some <$> childNodes (moved f done d) q) as Hread.
  { intros done a. cbn [fst]. destruct Hsource as [-> | [-> Hix]]; cbn [items]; [reflexivity|].
    rewrite indexed_moved, decide_False by exact Hfq. now rewrite Hix. }
  pose proof (Hread [] anchor) as H0. cbn [fst] in H0.
  rewrite H0, childNodes_moved, filter_notin_nil, length_fmap by exact Hfq.
  apply (each_from_live d f q (fun s => items (fst s) source) Hforest Hfresh Hfq Hel Hread
           (length (childNodes d q)) [] (childNodes d q) [] anchor).
  - now rewrite filter_notin_nil.
  - lia.
Qed.

Lemma before_takes_every_second_witness :
  before (Some Tree.p) None (ChildNodes Tree.q) Tree.two_lists
  = before (Some Tree.p) None (ArrayLike [Tree.a; Tree.e]) Tree.two_lists
  /\ before (Some Tree.p) (Some Tree.c) (OneNode Tree.select) Tree.with_text
     = before (Some Tree.p) (Some Tree.c) (ArrayLike [Tree.option1; Tree.option3])
         Tree.with_text.
Proof.
  split.
  - apply (before_takes_every_second Tree.two_lists Tree.p Tree.q None (ChildNodes Tree.q)).
    + apply forestb_forest. vm_compute. reflexivity.
    + left. reflexivity.
    + apply Forall_forall. repeat constructor.
    + vm_compute. reflexivity.
  - apply (before_takes_every_second Tree.with_text Tree.p Tree.select (Some Tree.c)
             (OneNode Tree.select)).
    + apply forestb_forest. vm_compute. reflexivity.
    + right. split; reflexivity.
    + apply Forall_forall. repeat constructor.
    + vm_compute. reflexivity.
Defined.

End ManipulationFacts.

(* ===================================================================== *)
(** ** Properties of the type tests *)
(* ===================================================================== *)

Module TypesFacts.
Import Types.

(** X21: what [isArrayLike] accepts.  A falsy value ([undefined], [null],
    [false], [0], [NaN], the empty string) is not array-like.  A truthy
    value whose [length] is not a number is array-like only if it is an
    array.  A truthy value whose [length] is the integer [z], of magnitude
    below [2^53], is array-like exactly when it is an array, or is not a
    function and [z] is not negative: so a non-empty string and an object
    with a count as [length] are array-like, and a function never is.  A
    fraction, an infinity or [NaN] as [length] is refused. *)
Theorem isArrayLike_by_length :
  (forall obj, truthy obj = false -> isArrayLike obj = false)
  /\ (forall obj, truthy obj = true -> isNumber (get_length obj) = false ->
                  isArrayLike obj = isArray obj)
  /\ (forall obj z,
        Z.abs z < 2 ^ 53 -> truthy obj = true -> get_length obj = Number (JS.of_Z z) ->
        isArrayLike obj = isArray obj || negb (isFunction obj) && (0 <=? z))
  /\ (isArrayLike (Object (Number 0.5%float)) = false
      /\ isArrayLike (Object (Number (-0.5)%float)) = false
      /\ isArrayLike (Object (Number infinity)) = false
      /\ isArrayLike (Object (Number nan)) = false).
Proof.
  split; [|split; [|split]].
  - intros obj Ht. unfold isArrayLike, length_of. rewrite Ht.
    destruct obj; try discriminate Ht; reflexivity.
  - intros obj Ht Hn. unfold isArrayLike, length_of. rewrite Ht, Hn.
    now rewrite andb_false_r, orb_false_r.
  - intros obj z Hz Ht Hl. unfold isArrayLike, length_of. rewrite Ht, Hl.
    cbn [isNumber is_count andb].
    rewrite (NumberFacts.gt_minus_one_of_Z z Hz), (NumberFacts.rem_one_of_Z z Hz).
    now destruct (isArray obj), (isFunction obj), (0 <=? z).
  - repeat split; vm_compute; reflexivity.
Qed.

Lemma isArrayLike_by_length_witness :
  isArrayLike (Str "abc") = true
  /\ isArrayLike (Object (Number 3%float)) = true
  /\ isArrayLike (Object (Number (-1)%float)) = false
  /\ isArrayLike (Function (Number 2%float)) = false.
Proof.
  destruct isArrayLike_by_length as (_ & _ & H & _).
  split; [|split; [|split]].
  - apply (H (Str "abc") 3); reflexivity.
  - apply (H (Object (Number 3%float)) 3); reflexivity.
  - apply (H (Object (Number (-1)%float)) (-1)); reflexivity.
  - apply (H (Function (Number 2%float)) 2); reflexivity.
Defined.

End TypesFacts.

(* ===================================================================== *)
(** ** Properties of the helpers of the bundle *)
(* ===================================================================== *)

Module UtilsFacts.
Import Dom DomFacts ManipulationFacts.

Lemma filter_none (P : Node -> Prop) `{forall n, Decision (P n)} (l : list Node) :
  (forall c, c ∈ l -> ~ P c) -> filter P l = [].
Proof.
  induction l as [|a l IH]; intros Hnone; [reflexivity|].
  rewrite filter_cons_False by apply Hnone, list_elem_of_here.
  apply IH. intros c Hc. now apply Hnone, list_elem_of_further.
Qed.

(** With a callback that never returns [false], [each] is the loop of the
    node utilities. *)
Lemma each_from_never_false {St : Type} (source : list Node)
  (callback : Node -> St -> Completion St) (i : nat) (s : St) :
  Utils.each_from i source
    (fun e _ s' => bind (callback e s') (fun s'' => Normal (s'', false))) s
  = Manipulation.each source callback s.
Proof.
  revert i s. induction source as [|e rest IH]; intros i s; [reflexivity|].
  cbn [Utils.each_from Manipulation.each].
  destruct (callback e s) as [s1|err]; [|reflexivity]. cbn [bind]. apply IH.
Qed.

Lemma each_from_app {A St : Type} (callback : A -> nat -> St -> Completion (St * bool))
  (l1 l2 : list A) (i : nat) (s s1 : St) :
  (forall k e s', l1 !! k = Some e -> exists s'', callback e (i + k)%nat s' = Normal (s'', false)) ->
  Utils.each_from i l1 callback s = Normal s1 ->
  Utils.each_from i (l1 ++ l2) callback s = Utils.each_from (i + length l1) l2 callback s1.
Proof.
  revert i s. induction l1 as [|e l1 IH]; intros i s Hcont Hrun.
  - cbn in Hrun |- *. injection Hrun as ->. now rewrite Nat.add_0_r.
  - cbn [app Utils.each_from] in Hrun |- *.
    destruct (Hcont 0%nat e s eq_refl) as [s' Hs']. rewrite Nat.add_0_r in Hs'.
    rewrite Hs' in Hrun |- *. cbn [bind] in Hrun |- *.
    rewrite (IH (S i) s').
    + cbn [length]. now rewrite Nat.add_succ_r.
    + intros k e' s0 Hk. rewrite Nat.add_succ_l, <- Nat.add_succ_r. now apply (Hcont (S k)).
    + exact Hrun.
Qed.

(** X22: [each] hands the callback the elements of an array in the order
    of their indices, each with its index, and stops as soon as the
    callback returns [false]: when the callback does not return [false] on
    the elements of [l1] and returns [false] on [x], the loop over
    [l1 ++ x :: l2] ends in the state the callback leaves on [x], whatever
    [l2] holds. *)
Theorem each_stops_at_false {A St : Type}
  (callback : A -> nat -> St -> Completion (St * bool))
  (l1 : list A) (x : A) (l2 : list A) (s s1 s2 : St) :
  (forall k e s', l1 !! k = Some e -> exists s'', callback e k s' = Normal (s'', false)) ->
  Utils.each l1 callback s = Normal s1 ->
  callback x (length l1) s1 = Normal (s2, true) ->
  Utils.each (l1 ++ x :: l2) callback s = Normal s2.
Proof.
  intros Hcont Hrun Hstop. unfold Utils.each in Hrun |- *.
  rewrite (each_from_app callback l1 (x :: l2) 0 s s1 Hcont Hrun).
  cbn [Nat.add Utils.each_from]. now rewrite Hstop.
Qed.

Lemma each_stops_at_false_witness :
  Utils.each [1%nat; 2%nat] Tree.until_three [] = Normal [1%nat; 2%nat]
  /\ Utils.each ([1%nat; 2%nat] ++ 3%nat :: [4%nat; 5%nat]) Tree.until_three []
     = Normal [1%nat; 2%nat; 3%nat].
Proof.
  split; [reflexivity|].
  apply (each_stops_at_false Tree.until_three [1%nat; 2%nat] 3%nat [4%nat; 5%nat]
           [] [1%nat; 2%nat] [1%nat; 2%nat; 3%nat]).
  - intros k e s' Hk. destruct k as [|[|k]]; cbn in Hk; [| |discriminate Hk].
    + injection Hk as <-. now eexists.
    + injection Hk as <-. now eexists.
  - reflexivity.
  - reflexivity.
Defined.

Lemma filter_ext_in (P Q : Node -> Prop) `{forall n, Decision (P n)} `{forall n, Decision (Q n)}
  (l : list Node) :
  (forall c, c ∈ l -> P c <-> Q c) -> filter P l = filter Q l.
Proof.
  induction l as [|a l IH]; intros Hext; [reflexivity|].
  assert (filter P l = filter Q l) as E
    by (apply IH; intros c Hc; now apply Hext, list_elem_of_further).
  destruct (decide (P a)) as [Hp|Hp].
  - rewrite !filter_cons_True; [now rewrite E | | exact Hp].
    now apply (Hext a (list_elem_of_here a l)).
  - rewrite !filter_cons_False; [exact E | | exact Hp].
    intros Hq. now apply Hp, (Hext a (list_elem_of_here a l)).
Qed.

(** The loop of [createDOM]: of nodes that have no numeric [length] or
    are character data, the first are taken out of their parents. *)
Lemma each_removeElements_top (l : list Node) (d : Store) :
  (forall n, n ∈ l ->
             indexed d n = NoLength
             \/ exists k, indexed d n = Characters k /\ Z.of_nat k < 2 ^ 53) ->
  Manipulation.each l (fun e d' => Manipulation.removeElements (Manipulation.OneNode e) d') d
  = Normal (foldl (fun d' n => remove n d') d (filter (fun n => indexed d n = NoLength) l)).
Proof.
  revert d. induction l as [|n l IH]; intros d Hl; [reflexivity|].
  cbn [Manipulation.each].
  destruct (Hl n (list_elem_of_here n l)) as [Hn | (k & Hn & Hk)].
  - unfold Manipulation.removeElements at 1. rewrite (removeElements_from_node _ d n Hn).
    cbn [bind]. rewrite filter_cons_True by exact Hn. cbn [foldl].
    rewrite IH.
    + f_equal. f_equal. apply list_filter_iff. intros c. now rewrite indexed_remove.
    + intros m Hm. rewrite indexed_remove. now apply Hl, list_elem_of_further.
  - unfold Manipulation.removeElements at 1.
    rewrite (removeElements_from_characters _ d n k Hn Hk). cbn [bind].
    rewrite filter_cons_False by (rewrite Hn; discriminate).
    apply IH. intros m Hm. now apply Hl, list_elem_of_further.
Qed.

(** X23: [createDOM] gives the top-level nodes of the parsed markup, in
    their order, and takes out of the temporary [div] those that have no
    numeric [length], the elements (a [form] or a [select] apart).  A
    top-level text node or comment is array-like for [removeElements],
    which goes through its [length] and leaves it in the [div]: it is
    returned with the [div] as parent.  What is below the returned nodes
    stays as the parser built it, and the tree is well formed again.  The
    parser behind [innerHTML] is a parameter: any function that leaves a
    well-formed tree whose top-level nodes are of these two kinds. *)
Theorem createDOM_detaches_top_level_nodes (setInnerHTML : Node -> Store -> Store) (d : Store) :
  let elm := fst (Utils.createDiv d) in
  let d1 := setInnerHTML elm (snd (Utils.createDiv d)) in
  forest d1 ->
  (forall n, n ∈ childNodes d1 elm ->
             indexed d1 n = NoLength
             \/ exists k, indexed d1 n = Characters k /\ Z.of_nat k < 2 ^ 53) ->
  exists d2,
    Utils.createDOM setInnerHTML d = Normal (childNodes d1 elm, d2)
    /\ (forall n, n ∈ childNodes d1 elm -> indexed d1 n = NoLength -> parentNode d2 n = None)
    /\ (forall n, n ∈ childNodes d1 elm -> indexed d1 n ≠ NoLength ->
                  parentNode d2 n = Some elm)
    /\ childNodes d2 elm = filter (fun n => indexed d1 n ≠ NoLength) (childNodes d1 elm)
    /\ (forall q, q ≠ elm -> childNodes d2 q = childNodes d1 q)
    /\ (forall n, n ∉ childNodes d1 elm -> parentNode d2 n = parentNode d1 n)
    /\ forest d2.
Proof.
  intros elm d1 Hf Htop.
  set (gone := filter (fun n => indexed d1 n = NoLength) (childNodes d1 elm)).
  exists (foldl (fun d' n => remove n d') d1 gone).
  split; [|split; [|split; [|split; [|split; [|split]]]]].
  - change (Utils.createDOM setInnerHTML d)
      with (bind (Utils.each (childNodes d1 elm)
                    (fun elm' (_ : nat) d' =>
                       bind (Manipulation.removeElements (Manipulation.OneNode elm') d')
                            (fun d'' => Normal (d'', false)))
                    d1)
                 (fun d2 => Normal (childNodes d1 elm, d2))).
    unfold Utils.each.
    rewrite (each_from_never_false (childNodes d1 elm)
               (fun e d' => Manipulation.removeElements (Manipulation.OneNode e) d')).
    now rewrite (each_removeElements_top _ d1 Htop).
  - intros n Hn Hix. rewrite remove_all_parent. rewrite decide_True; [reflexivity|].
    apply list_elem_of_filter. tauto.
  - intros n Hn Hix. rewrite remove_all_parent. rewrite decide_False.
    + now apply (forest_child d1 Hf).
    + intros Hg. apply list_elem_of_filter in Hg. tauto.
  - rewrite remove_all_children. apply filter_ext_in. intros c Hc.
    unfold gone. rewrite list_elem_of_filter. split.
    + intros H Hix. apply H. split; [tauto|]. now apply (forest_child d1 Hf).
    + intros H [[Hix _] _]. now apply H.
  - intros q Hq. rewrite remove_all_children. apply filter_all.
    intros c Hc [Hin _]. apply list_elem_of_filter in Hin as [_ Hin].
    apply (forest_child d1 Hf) in Hc, Hin.
    rewrite Hc in Hin. injection Hin as E. now apply Hq.
  - intros n Hn. rewrite remove_all_parent. rewrite decide_False; [reflexivity|].
    intros Hg. apply list_elem_of_filter in Hg. tauto.
  - now apply remove_all_forest.
Qed.

Lemma createDOM_detaches_top_level_nodes_witness :
  (exists d2,
     Utils.createDOM Tree.parsed Tree.store = Normal ([Tree.outer], d2)
     /\ parentNode d2 Tree.outer = None
     /\ firstChild d2 Tree.outer = Some Tree.inner
     /\ forest d2)
  /\ (exists d2,
        Utils.createDOM Tree.parsed_with_text Tree.store
        = Normal ([Tree.words; Tree.outer], d2)
        /\ parentNode d2 Tree.outer = None
        /\ parentNode d2 Tree.words = Some (fst (Utils.createDiv Tree.store))
        /\ childNodes d2 (fst (Utils.createDiv Tree.store)) = [Tree.words]).
Proof.
  split.
  - destruct (createDOM_detaches_top_level_nodes Tree.parsed Tree.store)
      as (d2 & H1 & H2 & _ & _ & H4 & _ & H6).
    + apply forestb_forest. vm_compute. reflexivity.
    + intros n Hn. left. vm_compute in Hn.
      apply list_elem_of_singleton in Hn as ->. vm_compute. reflexivity.
    + exists d2. split; [exact H1|]. split; [|split; [|exact H6]].
      * apply H2; [vm_compute; apply list_elem_of_here | vm_compute; reflexivity].
      * unfold firstChild. rewrite H4 by (vm_compute; discriminate).
        vm_compute. reflexivity.
  - destruct (createDOM_detaches_top_level_nodes Tree.parsed_with_text Tree.store)
      as (d2 & H1 & H2 & H3 & H4 & _).
    + apply forestb_forest. vm_compute. reflexivity.
    + intros n Hn. vm_compute in Hn.
      apply elem_of_cons in Hn as [-> | Hn].
      * right. exists 5%nat. split; [vm_compute; reflexivity | lia].
      * apply list_elem_of_singleton in Hn as ->. left. vm_compute. reflexivity.
    + exists d2. split; [exact H1|]. split; [|split].
      * apply H2; [vm_compute; apply list_elem_of_further, list_elem_of_here
                  | vm_compute; reflexivity].
      * apply H3; [vm_compute; apply list_elem_of_here | vm_compute; discriminate].
      * rewrite H4. vm_compute. reflexivity.
Defined.

End UtilsFacts.

(* ===================================================================== *)
(** ** The environment and the tree *)
(* ===================================================================== *)

Module DocumentFacts.
Import Dom Manipulation DomFacts ManipulationFacts Document.

Section Measurement.
Variables (els : Elements) (d : Store).
Hypothesis Hforest : forest d.
Hypothesis Hbody : is_Some (d !! bodyNode els).
Hypothesis Helm : element d (envNode els) = true.
Hypothesis Hplain : indexed d (envNode els) = NoLength.
Hypothesis Hdetached : parentNode d (envNode els) = None.
Hypothesis Hanc : inclusive_ancestor d (envNode els) (bodyNode els) = false.

Lemma perform_probe (calls : list Environment.Effect) :
  perform_all els
    ([Environment.AppendChildren Environment.body Environment.envElm;
      Environment.RemoveElements Environment.envElm] ++ calls) d
  = perform_all els calls d.
Proof.
  cbn [app perform_all perform node_of].
  pose proof (append_then_remove d (bodyNode els) (envNode els)
                Hforest Hbody Helm Hplain Hdetached Hanc) as H.
  destruct (appendChildren (Some (bodyNode els)) (OneNode (envNode els)) d) as [d1|e];
    [|discriminate H].
  cbn [bind] in H |- *. now rewrite H.
Qed.

Lemma perform_notify (e : Environment.Environment) :
  perform_all els (Environment.notify e) d = Normal d.
Proof.
  unfold Environment.notify.
  induction (Environment.onChangedListener e) as [|l ls IH]; [reflexivity|exact IH].
Qed.

Lemma perform_step (pg : Environment.Page) (a : Environment.Action) :
  perform_all els (snd (Environment.step pg a)) d = Normal d.
Proof.
  destruct a as [l|l|ev]; cbn; [reflexivity | reflexivity |].
  unfold Environment.dispatchResize.
  destruct (Environment.resizeListener pg) as [c|]; [|reflexivity].
  destruct (EnvironmentFacts.onResize_cases (Environment.self pg) c ev)
    as [[E _] | (Hl & Hs & _)].
  - rewrite E. reflexivity.
  - destruct (Environment.isZoom c (Support.windowSize (Environment.window ev))
                (Environment.windowDPR (Environment.window ev))) eqn:Hz.
    + rewrite (EnvironmentFacts.onResize_zoom _ _ _ Hl Hz). cbn [snd].
      rewrite perform_probe.
      destruct (Environment.scrollbarSizeChanged _ _); [apply perform_notify | reflexivity].
    + rewrite (EnvironmentFacts.onResize_no_zoom _ _ _ Hl Hs Hz). reflexivity.
Qed.

Lemma perform_all_app (fx1 fx2 : list Environment.Effect) (d1 : Store) :
  perform_all els (fx1 ++ fx2) d1 = bind (perform_all els fx1 d1) (perform_all els fx2).
Proof.
  revert d1. induction fx1 as [|fx fx1 IH]; intros d1; [reflexivity|].
  cbn [app perform_all]. destruct (perform els fx d1) as [d2|e]; [|reflexivity].
  cbn [bind]. apply IH.
Qed.

Lemma perform_run (acts : list Environment.Action) (pg : Environment.Page) :
  perform_all els (snd (Environment.run pg acts)) d = Normal d.
Proof.
  revert pg. induction acts as [|a acts IH]; intros pg; [reflexivity|].
  rewrite EnvironmentFacts.run_cons. cbn [snd].
  rewrite perform_all_app, perform_step. cbn [bind]. apply IH.
Qed.

End Measurement.

(** X24: measuring leaves no trace in the document.  On a well-formed
    tree in which the measurement element is a detached element that does
    not contain [document.body] and, being a [div], has no numeric
    [length], the calls of [appendChildren] and
    [removeElements] that the constructor and the resize handler make,
    over any sequence of listener registrations and resize events, run
    without throwing and leave the tree exactly as it was: the element is
    appended to [body] for each measurement and removed again before
    anything else happens. *)
Theorem measurement_leaves_no_trace (els : Elements) (d : Store)
  (p : Environment.Platform) (acts : list Environment.Action) :
  forest d -> is_Some (d !! bodyNode els) ->
  element d (envNode els) = true -> indexed d (envNode els) = NoLength ->
  parentNode d (envNode els) = None ->
  inclusive_ancestor d (envNode els) (bodyNode els) = false ->
  perform_all els
    (snd (Environment.construct p)
       ++ snd (Environment.run (fst (Environment.construct p)) acts)) d
  = Normal d.
Proof.
  intros Hf Hb He Hi Hd Ha.
  rewrite (perform_all_app els).
  change (snd (Environment.construct p))
    with ([Environment.AppendChildren Environment.body Environment.envElm;
           Environment.RemoveElements Environment.envElm] ++ []).
  rewrite (perform_probe els d Hf Hb He Hi Hd Ha). cbn [perform_all bind].
  now apply perform_run.
Qed.

Lemma measurement_leaves_no_trace_witness :
  length (snd (Environment.run (fst (Environment.construct Examples.classic))
                 [Environment.AddListener 1%nat; Environment.Resize Examples.zoom_in])) = 3%nat
  /\ perform_all Tree.elements
       (snd (Environment.construct Examples.classic)
          ++ snd (Environment.run (fst (Environment.construct Examples.classic))
                    [Environment.AddListener 1%nat; Environment.Resize Examples.zoom_in]))
       Tree.store
     = Normal Tree.store.
Proof.
  split; [vm_compute; reflexivity|].
  apply (measurement_leaves_no_trace Tree.elements Tree.store Examples.classic
           [Environment.AddListener 1%nat; Environment.Resize Examples.zoom_in]
           tree_store_forest).
  - vm_compute. eauto.
  - vm_compute. reflexivity.
  - vm_compute. reflexivity.
  - vm_compute. reflexivity.
  - vm_compute. reflexivity.
Defined.

End DocumentFacts.
